(** * Agent Orchestrator: the GitLab tracker plugin, the plugin registry and
      the shell utilities

    A shallow embedding of the TypeScript sources

      - packages/core/src/utils.ts                               [Utils]
      - packages/core/src/plugin-registry.ts                     [PluginRegistry]
      - packages/plugins/tracker-gitlab/src/webhookHandler.ts    [WebhookHandler]
      - packages/plugins/tracker-gitlab/src/gitlabClient.ts      [GitLabClient]
      - packages/plugins/tracker-gitlab/src/adapter.ts           [Tracker]

    and, of node:crypto, SHA-256 [Sha256].  After these come the string
    builtins that the plugin calls [Text], the base URL of the client
    [BaseUrl], its retry policy turn by turn [Retry], the builtins that
    loading registers [PluginLoading], the rest of the adapter - creation,
    links and updates - [TrackerOps], and command lines of escaped arguments
    [Shell].

    The repository holds two generations of the plugin.  The later one (the
    webhook handler that compares digests, the client that cancels its
    timer, the adapter that checks for an empty body) is what the modules
    above embed; where the earlier one differs (the webhook handler that
    compares raw values, client.ts with its timer left running) it is
    embedded next to it in a submodule [Legacy].

    JavaScript strings are modelled as Rocq [string]s, read as the UTF-8
    encoding of the text.  A value that may be [undefined] is an [option];
    an expression that may throw has a result in [Js.result].  The
    definitions come first, the properties follow from [UtilsFacts] on. *)

From Stdlib Require Import ZArith List String Ascii Bool Lia.
From Stdlib Require Strings.Byte.
From stdpp Require Import base option list strings pretty gmap.

Import ListNotations.
Local Open Scope string_scope.

(** Let [simpl] and [cbn] compute string concatenation on literals. *)
#[local] Arguments String.append !s1 s2 : simpl nomatch.

(* ===================================================================== *)
(** * packages/core/src/utils.ts *)
(* ===================================================================== *)

Module Utils.

(** [arg.replace(/c/g, by)] for a one-character pattern [c] and a
    replacement text [by] without [$] patterns: every occurrence of [c],
    left to right, is replaced by [by]. *)
Fixpoint replaceAll (c : ascii) (by_ : string) (arg : string) : string :=
  match arg with
  | EmptyString => EmptyString
  | String a rest =>
      if Ascii.eqb a c then by_ ++ replaceAll c by_ rest
      else String a (replaceAll c by_ rest)
  end.

Definition squote : ascii := "'"%char.
Definition backslash : ascii := "\"%char.

(** The JavaScript literal ["'\\''"]: quote, backslash, quote, quote. *)
Definition escapedQuote : string :=
  String squote (String backslash (String squote (String squote EmptyString))).

(** [export function shellEscape(arg: string): string] *)
Definition shellEscape (arg : string) : string :=
  String squote EmptyString ++ replaceAll squote escapedQuote arg
    ++ String squote EmptyString.

(** ** POSIX shell quoting (XCU 2.2), the reference semantics

    Outside quotes a single quote opens a quoted section, a backslash
    preserves the literal value of the next character (a backslash-newline
    pair is a line continuation and disappears), and any other character
    with a special meaning to the shell ends or alters the word: the reader
    gives up on it.  Inside single quotes every character is literal up to
    the closing single quote. *)

Inductive quoting := Unquoted | InSingleQuotes.

Definition newline : ascii := Ascii.ascii_of_nat 10.

Definition shellSpecial (a : ascii) : bool :=
  existsb (Ascii.eqb a)
    (list_ascii_of_string "|&;<>()$`*?[#~=% "
       ++ [Ascii.ascii_of_nat 34; Ascii.ascii_of_nat 9; newline])%list.

Fixpoint readWord (q : quoting) (s : string) : option string :=
  match s with
  | EmptyString =>
      match q with Unquoted => Some EmptyString | InSingleQuotes => None end
  | String a rest =>
      match q with
      | InSingleQuotes =>
          if Ascii.eqb a squote then readWord Unquoted rest
          else option_map (String a) (readWord InSingleQuotes rest)
      | Unquoted =>
          if Ascii.eqb a squote then readWord InSingleQuotes rest
          else if Ascii.eqb a backslash then
            match rest with
            | EmptyString => None
            | String b rest' =>
                if Ascii.eqb b newline then readWord Unquoted rest'
                else option_map (String b) (readWord Unquoted rest')
            end
          else if shellSpecial a then None
          else option_map (String a) (readWord Unquoted rest)
      end
  end.

(** The single word the shell reads from [s], if [s] is exactly one word. *)
Definition shellWord (s : string) : option string := readWord Unquoted s.

End Utils.

(* ===================================================================== *)
(** * node:crypto, as far as the webhook handler uses it *)
(* ===================================================================== *)

(** SHA-256 (FIPS 180-4) on byte strings, with 32-bit words as [Z] and the
    wrap-around written out.  [crypto.createHash("sha256").update(s, "utf8")
    .digest()] is [sha256 s]: a buffer of 32 bytes. *)
Module Sha256.
Local Open Scope Z_scope.

Definition wrap32 (x : Z) : Z := x mod 2 ^ 32.
Definition add32 (x y : Z) : Z := wrap32 (x + y).
Definition rotr (n x : Z) : Z :=
  Z.lor (Z.shiftr x n) (wrap32 (Z.shiftl x (32 - n))).
Definition not32 (x : Z) : Z := Z.lxor x 0xffffffff.

Definition Ch (x y z : Z) : Z := Z.lxor (Z.land x y) (Z.land (not32 x) z).
Definition Maj (x y z : Z) : Z :=
  Z.lxor (Z.lxor (Z.land x y) (Z.land x z)) (Z.land y z).
Definition bigSigma0 (x : Z) : Z :=
  Z.lxor (Z.lxor (rotr 2 x) (rotr 13 x)) (rotr 22 x).
Definition bigSigma1 (x : Z) : Z :=
  Z.lxor (Z.lxor (rotr 6 x) (rotr 11 x)) (rotr 25 x).
Definition smallSigma0 (x : Z) : Z :=
  Z.lxor (Z.lxor (rotr 7 x) (rotr 18 x)) (Z.shiftr x 3).
Definition smallSigma1 (x : Z) : Z :=
  Z.lxor (Z.lxor (rotr 17 x) (rotr 19 x)) (Z.shiftr x 10).

(** Hexadecimal digits to a number, most significant digit first. *)
Definition hexValue (a : ascii) : Z :=
  let n := Z.of_N (N_of_ascii a) in
  if 97 <=? n then n - 87 else n - 48.

Definition ofHex (s : string) : Z :=
  fold_left (fun acc a => 16 * acc + hexValue a) (list_ascii_of_string s) 0.

(** Consecutive groups of eight hexadecimal digits, as 32-bit words. *)
Fixpoint hexWords (n : nat) (s : string) : list Z :=
  match n with
  | O => []
  | S n' => ofHex (String.substring 0 8 s)
              :: hexWords n' (String.substring 8 (String.length s - 8) s)
  end.

(** The round constants: the first 32 bits of the fractional parts of the
    cube roots of the first 64 primes. *)
Definition K : list Z :=
  Eval vm_compute in
    hexWords 64
      ("428a2f9871374491b5c0fbcfe9b5dba53956c25b59f111f1923f82a4ab1c5ed5"
       ++ "d807aa9812835b01243185be550c7dc372be5d7480deb1fe9bdc06a7c19bf174"
       ++ "e49b69c1efbe47860fc19dc6240ca1cc2de92c6f4a7484aa5cb0a9dc76f988da"
       ++ "983e5152a831c66db00327c8bf597fc7c6e00bf3d5a7914706ca635114292967"
       ++ "27b70a852e1b21384d2c6dfc53380d13650a7354766a0abb81c2c92e92722c85"
       ++ "a2bfe8a1a81a664bc24b8b70c76c51a3d192e819d6990624f40e3585106aa070"
       ++ "19a4c1161e376c082748774c34b0bcb5391c0cb34ed8aa4a5b9cca4f682e6ff3"
       ++ "748f82ee78a5636f84c878148cc7020890befffaa4506cebbef9a3f7c67178f2").

(** The eight working words a..h, also the running hash value. *)
Record words8 := Words8 {
  wa : Z; wb : Z; wc : Z; wd : Z; we : Z; wf : Z; wg : Z; wh : Z }.

(** The initial hash value: the first 32 bits of the fractional parts of the
    square roots of the first 8 primes. *)
Definition H0 : words8 :=
  match hexWords 8 "6a09e667bb67ae853c6ef372a54ff53a510e527f9b05688c1f83d9ab5be0cd19" with
  | [a; b; c; d; e; f; g; h] => Words8 a b c d e f g h
  | _ => Words8 0 0 0 0 0 0 0 0
  end.

(** Padding: a one bit, zeros up to 56 modulo 64 bytes, then the message
    length in bits as a 64-bit big-endian integer. *)
Definition be64 (n : Z) : list Z :=
  map (fun i => Z.shiftr n (8 * i) mod 256) [7; 6; 5; 4; 3; 2; 1; 0].

Definition pad (msg : list Z) : list Z :=
  let len := Z.of_nat (length msg) in
  msg ++ 0x80 :: repeat 0 (Z.to_nat ((55 - len) mod 64)) ++ be64 (8 * len).

(** Big-endian 32-bit words of a run of bytes. *)
Fixpoint wordsOf (bs : list Z) : list Z :=
  match bs with
  | b0 :: b1 :: b2 :: b3 :: rest =>
      (Z.shiftl b0 24 + Z.shiftl b1 16 + Z.shiftl b2 8 + b3) :: wordsOf rest
  | _ => []
  end.

(** Message schedule, most recent word first: [n] more words after [w]. *)
Fixpoint schedule (n : nat) (w : list Z) : list Z :=
  match n with
  | O => w
  | S n' =>
      let next :=
        add32 (add32 (smallSigma1 (nth 1 w 0)) (nth 6 w 0))
              (add32 (smallSigma0 (nth 14 w 0)) (nth 15 w 0)) in
      schedule n' (next :: w)
  end.

Definition round (s : words8) (kw : Z * Z) : words8 :=
  let t1 := add32 (add32 (add32 (wh s) (bigSigma1 (we s)))
                         (add32 (Ch (we s) (wf s) (wg s)) (fst kw))) (snd kw) in
  let t2 := add32 (bigSigma0 (wa s)) (Maj (wa s) (wb s) (wc s)) in
  Words8 (add32 t1 t2) (wa s) (wb s) (wc s) (add32 (wd s) t1) (we s) (wf s) (wg s).

Definition compress (h : words8) (block : list Z) : words8 :=
  let w := rev (schedule 48 (rev (wordsOf block))) in
  let s := fold_left round (combine K w) h in
  Words8 (add32 (wa h) (wa s)) (add32 (wb h) (wb s)) (add32 (wc h) (wc s))
         (add32 (wd h) (wd s)) (add32 (we h) (we s)) (add32 (wf h) (wf s))
         (add32 (wg h) (wg s)) (add32 (wh h) (wh s)).

Fixpoint blocks (n : nat) (h : words8) (bs : list Z) : words8 :=
  match n with
  | O => h
  | S n' => blocks n' (compress h (firstn 64 bs)) (skipn 64 bs)
  end.

Definition byteOf (z : Z) : Byte.byte :=
  match Byte.of_N (Z.to_N (z mod 256)) with
  | Some b => b
  | None => Byte.x00
  end.

Definition be32 (w : Z) : list Byte.byte :=
  [byteOf (Z.shiftr w 24); byteOf (Z.shiftr w 16); byteOf (Z.shiftr w 8); byteOf w].

Definition digestOf (h : words8) : list Byte.byte :=
  be32 (wa h) ++ be32 (wb h) ++ be32 (wc h) ++ be32 (wd h)
    ++ be32 (we h) ++ be32 (wf h) ++ be32 (wg h) ++ be32 (wh h).

Definition bytesOfString (s : string) : list Z :=
  map (fun b => Z.of_N (Byte.to_N b)) (list_byte_of_string s).

Definition sha256 (s : string) : list Byte.byte :=
  let padded := pad (bytesOfString s) in
  digestOf (blocks (length padded / 64) H0 padded).

(** Equality of bytes is decided on their numeric values. *)
#[global] Instance byte_eq_decision : EqDecision Byte.byte.
Proof.
  intros x y. destruct (N.eq_dec (Byte.to_N x) (Byte.to_N y)) as [E | E].
  - left. apply (f_equal Byte.of_N) in E.
    rewrite !Strings.Byte.of_to_N in E. now injection E.
  - right. intros ->. now apply E.
Defined.

(** Hexadecimal rendering of a buffer, for reading digests. *)
Definition hexDigit (n : N) : ascii :=
  nth (N.to_nat n) (list_ascii_of_string "0123456789abcdef") "0"%char.

Definition hex (bs : list Byte.byte) : string :=
  string_of_list_ascii
    (flat_map (fun b => [hexDigit (Byte.to_N b / 16); hexDigit (Byte.to_N b mod 16)%N]) bs).

End Sha256.

(* ===================================================================== *)
(** * JavaScript values and completions *)
(* ===================================================================== *)

Module Js.

(** Values as [JSON.parse] and a missing property produce them.  Numbers
    are carried as integers: no arithmetic is done on payload numbers. *)
#[local] Unset Elimination Schemes.
Inductive value :=
| Undefined
| Null
| Bool (b : bool)
| Number (n : Z)
| Str (s : string)
| Array (items : list value)
| Object (fields : list (string * value)).
#[local] Set Elimination Schemes.

(** A thrown [Error]: its [name], its optional [code] and its message. *)
Record error := Err {
  errName : string;
  errCode : option string;
  errMessage : string }.

Definition Error (msg : string) : error := Err "Error" None msg.
Definition TypeError (msg : string) : error := Err "TypeError" None msg.
Definition RangeError (msg : string) : error := Err "RangeError" None msg.
Definition SyntaxError (msg : string) : error := Err "SyntaxError" None msg.

(** The result of evaluating an expression: a value or a thrown error. *)
Definition result (A : Type) := (error + A)%type.

Definition isNullish (v : value) : bool :=
  match v with Undefined | Null => true | _ => false end.

Fixpoint field (name : string) (fields : list (string * value)) : value :=
  match fields with
  | [] => Undefined
  | (k, v) :: rest => if String.eqb k name then v else field name rest
  end.

(** [v.name], for a [name] that no primitive wrapper, array or
    [Object.prototype] defines (here: object_attributes, action, project):
    reading it from [undefined] or [null] throws, an object gives its own
    property, every other value gives [undefined]. *)
Definition getProp (v : value) (name : string) : result value :=
  match v with
  | Undefined | Null =>
      inl (TypeError ("Cannot read properties of null or undefined (reading '"
                        ++ name ++ "')"))
  | Object fields => inr (field name fields)
  | _ => inr Undefined
  end.

(** [v?.name] *)
Definition getPropOpt (v : value) (name : string) : value :=
  match v with
  | Object fields => field name fields
  | _ => Undefined
  end.

(** [a ?? b] *)
Definition coalesce (a b : value) : value := if isNullish a then b else a.

(** [a ?? b] on a string that may be [undefined]. *)
Definition orElse {A} (a b : option A) : option A :=
  match a with Some _ => a | None => b end.

(** Truthiness of an optional string: [undefined] and [""] are falsy. *)
Definition truthy (s : option string) : bool :=
  match s with
  | None => false
  | Some s => negb (String.eqb s "")
  end.

End Js.

(* ===================================================================== *)
(** * packages/plugins/tracker-gitlab/src/webhookHandler.ts *)
(* ===================================================================== *)

Module WebhookHandler.
Import Js.

(** [GitLabWebhookEvent] *)
Inductive GitLabWebhookEvent :=
| IssueEvent (action issue project : value)
| MergeRequestEvent (action merge_request project : value)
| UnknownEvent (payload : value).

(** [Record<string, string | undefined>]: a key bound to [undefined] reads
    like a missing key. *)
Abbreviation Headers := (gmap string string).

(** The calls into node:crypto, in program order. *)
Inductive cryptoOp :=
| HashSha256 (input : string)
| TimingSafeEqual (a b : list Byte.byte).

(** Computations that log their crypto calls. *)
Definition Crypto (A : Type) := (list cryptoOp * A)%type.

Definition ret {A} (x : A) : Crypto A := ([], x).

Definition bind {A B} (m : Crypto A) (k : A -> Crypto B) : Crypto B :=
  let (l1, a) := m in let (l2, b) := k a in ((l1 ++ l2)%list, b).

Notation "'let*' x ':=' m 'in' k" := (bind m (fun x => k))
  (at level 10, x name, m at level 100, k at level 200).

(** [crypto.createHash("sha256").update(s, "utf8").digest()] *)
Definition sha256Digest (s : string) : Crypto (list Byte.byte) :=
  ([HashSha256 s], Sha256.sha256 s).

(** [crypto.timingSafeEqual(a, b)]: throws on buffers of different
    lengths, otherwise compares all bytes. *)
Definition timingSafeEqual (a b : list Byte.byte) : Crypto (result bool) :=
  ([TimingSafeEqual a b],
   if Nat.eqb (length a) (length b) then inr (bool_decide (a = b))
   else inl (RangeError "Input buffers must have the same byte length")).

Definition tokenHeader (headers : Headers) : option string :=
  orElse (headers !! "x-gitlab-token") (headers !! "X-Gitlab-Token").

Definition eventHeader (headers : Headers) : string :=
  default "" (orElse (headers !! "x-gitlab-event") (headers !! "X-Gitlab-Event")).

(** The block guarded by [if (secret)]: [ok] after the try/catch. *)
Definition tokenOk (headers : Headers) (secretStr : string) : Crypto bool :=
  let headerStr := default "" (tokenHeader headers) in
  let* headerHash := sha256Digest headerStr in
  let* secretHash := sha256Digest secretStr in
  let* r := timingSafeEqual headerHash secretHash in
  ret (match r with inr ok => ok | inl _ => false end).

(** The part after the signature check. *)
Definition normalize (headers : Headers) (payload : value)
  : result GitLabWebhookEvent :=
  let event := eventHeader headers in
  if String.eqb event "Issue Hook" then
    match getProp payload "object_attributes", getProp payload "project" with
    | inr attrs, inr project =>
        inr (IssueEvent (coalesce (getPropOpt attrs "action") (Str "unknown"))
                        attrs project)
    | inl e, _ | _, inl e => inl e
    end
  else if String.eqb event "Merge Request Hook" then
    match getProp payload "object_attributes", getProp payload "project" with
    | inr attrs, inr project =>
        inr (MergeRequestEvent
               (coalesce (getPropOpt attrs "action") (Str "unknown"))
               attrs project)
    | inl e, _ | _, inl e => inl e
    end
  else inr (UnknownEvent payload).

Definition invalidToken : error := Error "Invalid webhook token".

(** [export function handleWebhook(headers, payload, secret?)] *)
Definition handleWebhook (headers : Headers) (payload : value)
    (secret : option string) : Crypto (result GitLabWebhookEvent) :=
  let* ok := match secret with
             | Some secretStr =>
                 if truthy secret then tokenOk headers secretStr else ret true
             | None => ret true
             end in
  if ok then ret (normalize headers payload) else ret (inl invalidToken).

(** The event [normalize] builds when reading the payload does not throw. *)
Definition eventOf (headers : Headers) (payload : value) : GitLabWebhookEvent :=
  let attrs := getPropOpt payload "object_attributes" in
  let project := getPropOpt payload "project" in
  let action := coalesce (getPropOpt attrs "action") (Str "unknown") in
  if String.eqb (eventHeader headers) "Issue Hook" then
    IssueEvent action attrs project
  else if String.eqb (eventHeader headers) "Merge Request Hook" then
    MergeRequestEvent action attrs project
  else UnknownEvent payload.

(** The request is turned away by the signature check. *)
Definition rejected (r : Crypto (result GitLabWebhookEvent)) : Prop :=
  snd r = inl invalidToken.

(** What one crypto call costs, as far as it does not depend on the data:
    the kind of call and, for the comparison, the two buffer lengths. *)
Inductive opShape :=
| ShapeHash
| ShapeCompare (lenA lenB : nat).

Definition shapeOf (op : cryptoOp) : opShape :=
  match op with
  | HashSha256 _ => ShapeHash
  | TimingSafeEqual a b => ShapeCompare (length a) (length b)
  end.

(** The earlier handler of the plugin (the file without a name):
    [if (secret && tokenHeader !== secret) throw ...].  It compares the raw
    header, [undefined] when it is missing, with the secret and calls nothing
    of node:crypto. *)
Module Legacy.

Definition handleWebhook (headers : Headers) (payload : value)
    (secret : option string) : Crypto (result GitLabWebhookEvent) :=
  if truthy secret && negb (bool_decide (tokenHeader headers = secret))
  then ret (inl invalidToken)
  else ret (normalize headers payload).

End Legacy.

End WebhookHandler.

(* ===================================================================== *)
(** * packages/plugins/tracker-gitlab/src/gitlabClient.ts (fetch client) *)
(* ===================================================================== *)

Module GitLabClient.
Import Js.
Local Open Scope Z_scope.

(** [GitLabClientOptions] *)
Record GitLabClientOptions := {
  optBaseUrl : option string;
  optToken : string;
  optTimeoutMs : option Z;
  optMaxRetries : option Z }.

(** The fields of a [GitLabClient].  [baseUrl] keeps the configured value:
    its normalisation and [new URL(...)] only decide whether a request
    throws before its first attempt, see [newURL] below. *)
Record client := {
  baseUrl : option string;
  token : string;
  timeoutMs : Z;
  maxRetries : Z }.

(** [constructor(opts: GitLabClientOptions)] *)
Definition newClient (opts : GitLabClientOptions) : client :=
  {| baseUrl := optBaseUrl opts;
     token := optToken opts;
     timeoutMs := default 15000 (optTimeoutMs opts);
     maxRetries := default 3 (optMaxRetries opts) |}.

(** What happens to the await of one attempt. *)
Inductive raceOutcome :=
| Responded (status : Z) (statusText : string) (text : option string)
    (** the fetch settles first; [text] is [None] when [res.text()] rejects *)
| FetchFailed (err : error)
    (** the fetch rejects first: a network failure *)
| TimedOut (abortFirst : bool).
    (** the timer fires first and aborts the fetch; the await rejects with
        the AbortError of the fetch or with the TimeoutError of the timer *)

(** The world outside the client. *)
Record environment := {
  newURL : option string -> string -> option string;
    (** base URL and path to the request URL; [None] when it is invalid *)
  outcome : nat -> raceOutcome;           (** of the attempt with this number *)
  firesLate : nat -> bool;
    (** the timer of this attempt fires after the race is settled, while the
        body is read or the loop sleeps before a retry *)
  jsonParse : string -> option value;     (** [None]: [JSON.parse] throws *)
  random : nat -> Z }.                    (** the 53 random bits of a draw *)

(** What the event loop holds for the client. *)
Record runtime := {
  pending : list nat;          (** timers armed, neither fired nor cancelled *)
  nextTimer : nat;             (** the next fresh timer id *)
  armed : list (nat * Z);      (** every timeout timer armed, with its delay *)
  fetches : nat;               (** fetch calls issued *)
  aborted : nat;               (** fetch calls aborted *)
  sleeps : list Z }.           (** backoff delays awaited, oldest first *)

Definition idle : runtime :=
  {| pending := []; nextTimer := 0; armed := []; fetches := 0; aborted := 0;
     sleeps := [] |}.

(** Computations on the event loop. *)
Definition Loop (A : Type) := runtime -> A * runtime.

Definition ret {A} (x : A) : Loop A := fun rt => (x, rt).

Definition bind {A B} (m : Loop A) (k : A -> Loop B) : Loop B :=
  fun rt => let (a, rt') := m rt in k a rt'.

Notation "'let*' x ':=' m 'in' k" := (bind m (fun x => k))
  (at level 10, x name, m at level 100, k at level 200).
Notation "m ';;' k" := (bind m (fun _ => k))
  (at level 100, k at level 200, right associativity).

(** [setTimeout(delay, undefined, { signal })]: arms a timer. *)
Definition armTimer (delay : Z) : Loop nat :=
  fun rt =>
    (nextTimer rt,
     {| pending := nextTimer rt :: pending rt;
        nextTimer := S (nextTimer rt);
        armed := (armed rt ++ [(nextTimer rt, delay)])%list;
        fetches := fetches rt; aborted := aborted rt; sleeps := sleeps rt |}).

Definition dropTimer (id : nat) (rt : runtime) : runtime :=
  {| pending := filter (fun t => t <> id) (pending rt);
     nextTimer := nextTimer rt; armed := armed rt;
     fetches := fetches rt; aborted := aborted rt; sleeps := sleeps rt |}.

(** The timer fires: it is no longer pending. *)
Definition fireTimer (id : nat) : Loop unit := fun rt => (tt, dropTimer id rt).

(** [timeoutController.abort()]: cancels the timer if it is still pending,
    and does nothing otherwise. *)
Definition cancelTimer (id : nat) : Loop unit := fun rt => (tt, dropTimer id rt).

(** [fetch(url, { ..., signal })] *)
Definition startFetch : Loop unit :=
  fun rt =>
    (tt, {| pending := pending rt; nextTimer := nextTimer rt; armed := armed rt;
            fetches := S (fetches rt); aborted := aborted rt; sleeps := sleeps rt |}).

(** [fetchController.abort()] *)
Definition abortFetch : Loop unit :=
  fun rt =>
    (tt, {| pending := pending rt; nextTimer := nextTimer rt; armed := armed rt;
            fetches := fetches rt; aborted := S (aborted rt); sleeps := sleeps rt |}).

(** [await setTimeout(ms)]: the backoff timer is armed and has fired when the
    await returns. *)
Definition sleep (ms : Z) : Loop unit :=
  fun rt =>
    (tt, {| pending := pending rt; nextTimer := nextTimer rt; armed := armed rt;
            fetches := fetches rt; aborted := aborted rt;
            sleeps := (sleeps rt ++ [ms])%list |}).

(** How one turn of [while (true)] ends. *)
Inductive step (T : Type) :=
| Return (v : T)
| Continue
| Throw (e : error).
Arguments Return {T} v.
Arguments Continue {T}.
Arguments Throw {T} e.

(** [try { body } catch (err) { handler(err) } finally { finalizer }], for a
    finalizer that completes normally. *)
Definition tryCatchFinally {T} (body : Loop (step T))
    (handler : error -> Loop (step T)) (finalizer : Loop unit) : Loop (step T) :=
  let* r := body in
  let* r' := match r with Throw e => handler e | _ => ret r end in
  finalizer ;; ret r'.

(** [try { body } catch (err) { handler(err) }] *)
Definition tryCatch {T} (body : Loop (step T))
    (handler : error -> Loop (step T)) : Loop (step T) :=
  let* r := body in
  match r with Throw e => handler e | _ => ret r end.

(** [Math.floor(Math.random() * 100)] *)
Definition jitter (env : environment) (attempt : nat) : Z :=
  (random env attempt mod 2 ^ 53) * 100 / 2 ^ 53.

(** [100 * 2 ** (attempt - 1)] *)
Definition backoff (attempt : nat) : Z := 100 * 2 ^ (Z.of_nat attempt - 1).

Definition retryableStatus (status : Z) : bool :=
  (status =? 429) || (500 <=? status).

Definition apiError (status : Z) (statusText text : string) : error :=
  Error ("GitLab API " ++ pretty status ++ " " ++ statusText ++ ": "
           ++ String.substring 0 1000 text).

Definition timeoutError (ms : Z) : error :=
  Err "TimeoutError" None
      ("GitLab API request timed out after " ++ pretty ms ++ "ms").

Definition abortError : error :=
  Err "AbortError" None "This operation was aborted".

Definition hasCode (err : error) (code : string) : bool :=
  match errCode err with
  | Some c => String.eqb c code
  | None => false
  end.

(** The callback of the timer: it runs when the timer fires, also when the
    race is over, and aborts the fetch. *)
Definition timerFired (timer : nat) : Loop unit :=
  fireTimer timer ;; abortFetch.

(** Until [finally] runs the timer may still fire. *)
Definition lateFire (env : environment) (attempt timer : nat) : Loop unit :=
  if firesLate env attempt then timerFired timer else ret tt.

(** The statements of the [try] block from the fetch on.  The body handed to
    [JSON.stringify] is taken to serialise: the adapter builds it from plain
    records. *)
Definition tryBody (c : client) (env : environment) (attempt timer : nat)
  : Loop (step value) :=
  startFetch ;;
  match outcome env attempt with
  | TimedOut abortFirst =>
      timerFired timer ;;
      ret (Throw (if abortFirst then abortError else timeoutError (timeoutMs c)))
  | FetchFailed err => lateFire env attempt timer ;; ret (Throw err)
  | Responded status statusText text =>
      lateFire env attempt timer ;;
      let text := default "" text in
      if (200 <=? status) && (status <? 300) then
        if String.eqb text "" then ret (Return Undefined)
        else match jsonParse env text with
             | Some v => ret (Return v)
             | None => ret (Throw (SyntaxError "Unexpected token in JSON"))
             end
      else if retryableStatus status && (Z.of_nat attempt <? maxRetries c) then
        sleep (backoff attempt + jitter env attempt) ;;
        ret Continue
      else ret (Throw (apiError status statusText text))
  end.

(** The [catch (err)] block. *)
Definition catchBody (c : client) (env : environment) (attempt : nat)
    (err : error) : Loop (step value) :=
  let isAbort :=
    String.eqb (errName err) "AbortError" || String.eqb (errName err) "TimeoutError" in
  if (isAbort || hasCode err "ECONNRESET" || hasCode err "ENOTFOUND")
       && (Z.of_nat attempt <? maxRetries c) then
    sleep (backoff attempt + jitter env attempt) ;;
    ret Continue
  else ret (Throw err).

(** One turn of the loop, after [attempt += 1]. *)
Definition turn (c : client) (env : environment) (attempt : nat)
  : Loop (step value) :=
  let* timer := armTimer (timeoutMs c) in
  tryCatchFinally (tryBody c env attempt timer)
                  (catchBody c env attempt)
                  (cancelTimer timer).

(** [while (true)], with [fuel] turns at most: [None] when they run out. *)
Fixpoint retryLoop (fuel : nat) (c : client) (env : environment) (attempt : nat)
  : Loop (option (result value)) :=
  match fuel with
  | O => ret None
  | S fuel' =>
      let* r := turn c env attempt in
      match r with
      | Return v => ret (Some (inr v))
      | Throw e => ret (Some (inl e))
      | Continue => retryLoop fuel' c env (S attempt)
      end
  end.

(** [path.startsWith("/") ? path : `/${path}`] *)
Definition normalizedPath (path : string) : string :=
  match path with
  | String "/" _ => path
  | _ => String "/" path
  end.

(** A turn continues only while [attempt < maxRetries]: this many turns are
    enough. *)
Definition turnsNeeded (c : client) : nat := Z.to_nat (Z.max 1 (maxRetries c)).

(** [private async request<T>(method, path, body?, query?)].  The method, the
    body and the query go to the server and come back as [outcome]. *)
Definition request (c : client) (env : environment) (path : string)
  : Loop (option (result value)) :=
  match newURL env (baseUrl c) (normalizedPath path) with
  | None => ret (Some (inl (TypeError "Invalid URL")))
  | Some _ => retryLoop (turnsNeeded c) c env 1
  end.

(** Timer ids still to come are fresh. *)
Definition fresh (rt : runtime) : Prop :=
  Forall (fun t => (t < nextTimer rt)%nat) (pending rt).



(** What a turn makes of a response. *)
Definition respond (c : client) (env : environment) (attempt : nat)
    (status : Z) (statusText : string) (text : option string) : step value :=
  if (200 <=? status) && (status <? 300) then
    if String.eqb (default "" text) "" then Return Undefined
    else match jsonParse env (default "" text) with
         | Some v => Return v
         | None => Throw (SyntaxError "Unexpected token in JSON")
         end
  else if retryableStatus status && (Z.of_nat attempt <? maxRetries c) then Continue
  else Throw (apiError status statusText (default "" text)).

(** The timer of an attempt fires, in the race or after it. *)
Definition timerFires (env : environment) (attempt : nat) : bool :=
  match outcome env attempt with
  | TimedOut _ => true
  | _ => firesLate env attempt
  end.

(** What a turn leaves behind: one more timer armed and gone again, one more
    fetch, aborted if the timer fired, and the backoff delays [zs]. *)
Definition afterTurn (c : client) (fired : bool) (rt : runtime) (zs : list Z)
  : runtime :=
  {| pending := pending rt;
     nextTimer := S (nextTimer rt);
     armed := (armed rt ++ [(nextTimer rt, timeoutMs c)])%list;
     fetches := S (fetches rt);
     aborted := if fired then S (aborted rt) else aborted rt;
     sleeps := (sleeps rt ++ zs)%list |}.

Definition lateCount (env : environment) (n k : nat) : nat :=
  length (filter (fun i => firesLate env i = true) (seq n k)).

(** The state after [k] turns that started at attempt [n] and were all
    retried after a response. *)
Definition afterRetries (c : client) (env : environment) (n k : nat) (rt : runtime)
  : runtime :=
  {| pending := pending rt;
     nextTimer := (nextTimer rt + k)%nat;
     armed := (armed rt ++ ((fun i => ((nextTimer rt + i)%nat, timeoutMs c)) <$> seq 0 k))%list;
     fetches := (fetches rt + k)%nat;
     aborted := (aborted rt + lateCount env n k)%nat;
     sleeps := (sleeps rt ++ ((fun i => backoff i + jitter env i) <$> seq n k))%list |}.

(** A server that answers 503 twice and then 200 with a JSON body; the timer
    of the second attempt fires during the backoff. *)
Definition flakyServer : environment :=
  {| newURL := fun _ path => Some path;
     outcome := fun n => if (n <? 3)%nat then Responded 503 "Service Unavailable" (Some "busy")
                         else Responded 200 "OK" (Some "{}");
     firesLate := fun n => (n =? 2)%nat;
     jsonParse := fun _ => Some (Object []);
     random := fun n => 2 ^ 52 |}.

(** A server that answers 200 with a JSON body to everything. *)
Definition healthyServer : environment :=
  {| newURL := fun _ path => Some path;
     outcome := fun _ => Responded 200 "OK" (Some "{}");
     firesLate := fun _ => false;
     jsonParse := fun _ => Some (Object []);
     random := fun _ => 0 |}.

(** A server that answers 404 to everything. *)
Definition notFoundServer : environment :=
  {| newURL := fun _ path => Some path;
     outcome := fun _ => Responded 404 "Not Found" (Some "{}");
     firesLate := fun _ => false;
     jsonParse := fun _ => None;
     random := fun _ => 0 |}.

(** A server that answers 503 to everything. *)
Definition busyServer : environment :=
  {| newURL := fun _ path => Some path;
     outcome := fun _ => Responded 503 "Service Unavailable" (Some "busy");
     firesLate := fun _ => false;
     jsonParse := fun _ => None;
     random := fun _ => 0 |}.

Definition defaultOptions : GitLabClientOptions :=
  {| optBaseUrl := None; optToken := "t"; optTimeoutMs := None;
     optMaxRetries := None |}.

Definition defaultClient : client := newClient defaultOptions.

(** The earlier client (client.ts): one controller, a timer that nothing
    cancels, no race. *)
Module Legacy.

Definition tryBody (c : client) (env : environment) (attempt timer : nat)
  : Loop (step value) :=
  startFetch ;;
  match outcome env attempt with
  | TimedOut _ => timerFired timer ;; ret (Throw abortError)
  | FetchFailed err => lateFire env attempt timer ;; ret (Throw err)
  | Responded status statusText text =>
      lateFire env attempt timer ;;
      let text := default "" text in
      if (200 <=? status) && (status <? 300) then
        if String.eqb text "" then ret (Return Undefined)
        else match jsonParse env text with
             | Some v => ret (Return v)
             | None => ret (Throw (SyntaxError "Unexpected token in JSON"))
             end
      else if retryableStatus status && (Z.of_nat attempt <? maxRetries c) then
        sleep (backoff attempt + jitter env attempt) ;;
        ret Continue
      else ret (Throw (apiError status statusText text))
  end.

Definition catchBody (c : client) (env : environment) (attempt : nat)
    (err : error) : Loop (step value) :=
  let isAbort := String.eqb (errName err) "AbortError" in
  if (isAbort || hasCode err "ECONNRESET" || hasCode err "ENOTFOUND")
       && (Z.of_nat attempt <? maxRetries c) then
    sleep (backoff attempt + jitter env attempt) ;;
    ret Continue
  else ret (Throw err).

Definition turn (c : client) (env : environment) (attempt : nat)
  : Loop (step value) :=
  let* timer := armTimer (timeoutMs c) in
  tryCatch (tryBody c env attempt timer) (catchBody c env attempt).

Fixpoint retryLoop (fuel : nat) (c : client) (env : environment) (attempt : nat)
  : Loop (option (result value)) :=
  match fuel with
  | O => ret None
  | S fuel' =>
      let* r := turn c env attempt in
      match r with
      | Return v => ret (Some (inr v))
      | Throw e => ret (Some (inl e))
      | Continue => retryLoop fuel' c env (S attempt)
      end
  end.

(** [private async request<T>(method, path, body?, query?)] of client.ts.
    The oracle [newURL] is asked about the configured base and the path as it
    is given.  The text this client hands to [new URL] is its own, see
    [BaseUrl.Legacy.requestUrl]: where the two clients are compared, each
    gets the oracle that parses its own text, [BaseUrl.Legacy.resolving] and
    [BaseUrl.resolving]. *)
Definition request (c : client) (env : environment) (path : string)
  : Loop (option (result value)) :=
  match newURL env (baseUrl c) path with
  | None => ret (Some (inl (TypeError "Invalid URL")))
  | Some _ => retryLoop (turnsNeeded c) c env 1
  end.

End Legacy.

End GitLabClient.

(* ===================================================================== *)
(** * packages/core/src/plugin-registry.ts *)
(* ===================================================================== *)

Module PluginRegistry.

(** Modelled from the spec: [PluginSlot] of types.ts, which is not among the
    sources: the extension points the glossary names, and the terminal slot
    that [BUILTIN_PLUGINS] uses.  Each is the string literal of the same
    name. *)
Inductive PluginSlot :=
| SlotRuntime | SlotAgent | SlotWorkspace | SlotTracker | SlotScm
| SlotNotifier | SlotTerminal.

Definition slotName (slot : PluginSlot) : string :=
  match slot with
  | SlotRuntime => "runtime"
  | SlotAgent => "agent"
  | SlotWorkspace => "workspace"
  | SlotTracker => "tracker"
  | SlotScm => "scm"
  | SlotNotifier => "notifier"
  | SlotTerminal => "terminal"
  end.

#[global] Instance slot_eq_decision : EqDecision PluginSlot.
Proof. solve_decision. Defined.

(** [PluginManifest] *)
Record PluginManifest := {
  name : string;
  slot : PluginSlot;
  description : string;
  version : string }.

(** [Record<string, unknown>] *)
Abbreviation PluginConfig := (list (string * Js.value)).

(** The part of [OrchestratorConfig] the registry reads. *)
Record OrchestratorConfig := { worktreeDir : option string }.

(** [function makeKey(slot, name)] *)
Definition makeKey (slot : PluginSlot) (name : string) : string :=
  slotName slot ++ ":" ++ name.

Record builtin := { bSlot : PluginSlot; bName : string; pkg : string }.

#[global] Instance builtin_eq_decision : EqDecision builtin.
Proof. solve_decision. Defined.

Definition BUILTIN_PLUGINS : list builtin :=
  [ {| bSlot := SlotRuntime; bName := "tmux"; pkg := "@agent-orchestrator/plugin-runtime-tmux" |};
    {| bSlot := SlotRuntime; bName := "process"; pkg := "@agent-orchestrator/plugin-runtime-process" |};
    {| bSlot := SlotAgent; bName := "claude-code"; pkg := "@agent-orchestrator/plugin-agent-claude-code" |};
    {| bSlot := SlotAgent; bName := "codex"; pkg := "@agent-orchestrator/plugin-agent-codex" |};
    {| bSlot := SlotAgent; bName := "aider"; pkg := "@agent-orchestrator/plugin-agent-aider" |};
    {| bSlot := SlotWorkspace; bName := "worktree"; pkg := "@agent-orchestrator/plugin-workspace-worktree" |};
    {| bSlot := SlotWorkspace; bName := "clone"; pkg := "@agent-orchestrator/plugin-workspace-clone" |};
    {| bSlot := SlotTracker; bName := "github"; pkg := "@agent-orchestrator/plugin-tracker-github" |};
    {| bSlot := SlotTracker; bName := "linear"; pkg := "@agent-orchestrator/plugin-tracker-linear" |};
    {| bSlot := SlotScm; bName := "github"; pkg := "@agent-orchestrator/plugin-scm-github" |};
    {| bSlot := SlotNotifier; bName := "desktop"; pkg := "@agent-orchestrator/plugin-notifier-desktop" |};
    {| bSlot := SlotNotifier; bName := "slack"; pkg := "@agent-orchestrator/plugin-notifier-slack" |};
    {| bSlot := SlotNotifier; bName := "webhook"; pkg := "@agent-orchestrator/plugin-notifier-webhook" |};
    {| bSlot := SlotTerminal; bName := "iterm2"; pkg := "@agent-orchestrator/plugin-terminal-iterm2" |};
    {| bSlot := SlotTerminal; bName := "web"; pkg := "@agent-orchestrator/plugin-terminal-web" |} ].

(** [function extractPluginConfig(slot, name, config)] *)
Definition extractPluginConfig (slot : PluginSlot) (name : string)
    (config : OrchestratorConfig) : option PluginConfig :=
  match worktreeDir config with
  | Some dir =>
      if Js.truthy (Some dir) then
        if bool_decide (slot = SlotWorkspace) && String.eqb name "worktree" then
          Some [("worktreeDir", Js.Str dir)]
        else if bool_decide (slot = SlotWorkspace) && String.eqb name "clone" then
          Some [("cloneDir", Js.Str dir)]
        else None
      else None
  | None => None
  end.

Section Registry.

(** What [plugin.create] constructs: [unknown] to the registry. *)
Context {Instance : Type}.

(** [PluginModule]: [create] may throw. *)
Record PluginModule := {
  manifest : PluginManifest;
  create : option PluginConfig -> Js.result Instance }.

(** What [import(pkg)] resolves to: the two exports may be missing. *)
Record ImportedModule := {
  modManifest : option PluginManifest;
  modCreate : option (option PluginConfig -> Js.result Instance) }.

Record entry := { entryManifest : PluginManifest; entryInstance : Instance }.

(** [Map<string, { manifest, instance }>]: the entries in insertion order,
    each key once. *)
Abbreviation PluginMap := (list (string * entry)).

(** [plugins.set(key, value)]: a known key keeps its place. *)
Fixpoint mapSet (key : string) (e : entry) (plugins : PluginMap) : PluginMap :=
  match plugins with
  | [] => [(key, e)]
  | (k, v) :: rest =>
      if String.eqb k key then (key, e) :: rest else (k, v) :: mapSet key e rest
  end.

(** [plugins.get(key)] *)
Fixpoint mapGet (key : string) (plugins : PluginMap) : option entry :=
  match plugins with
  | [] => None
  | (k, v) :: rest => if String.eqb k key then Some v else mapGet key rest
  end.

(** The methods of the registry object work on the map it closes over. *)
Definition Registry (A : Type) := PluginMap -> A * PluginMap.

(** [register(plugin, config?)] *)
Definition register (plugin : PluginModule) (config : option PluginConfig)
  : Registry (Js.result unit) :=
  fun plugins =>
    let key := makeKey (slot (manifest plugin)) (name (manifest plugin)) in
    match create plugin config with
    | inl e => (inl e, plugins)
    | inr instance =>
        (inr tt,
         mapSet key {| entryManifest := manifest plugin; entryInstance := instance |}
                plugins)
    end.

(** [get<T>(slot, name)]: [None] is [null]. *)
Definition get (slot : PluginSlot) (name : string) : Registry (option Instance) :=
  fun plugins =>
    (match mapGet (makeKey slot name) plugins with
     | Some e => Some (entryInstance e)
     | None => None
     end, plugins).

(** [list(slot)] (with an underscore: [list] is the type of lists) *)
Definition list_ (slot : PluginSlot) : Registry (list PluginManifest) :=
  fun plugins =>
    (entryManifest <$>
       (snd <$> filter (fun kv => String.prefix (slotName slot ++ ":") (fst kv) = true)
                       plugins),
     plugins).

(** The body of the [for] loop of [loadBuiltins], with its try/catch. *)
Definition loadBuiltin (importPkg : string -> Js.result ImportedModule)
    (orchestratorConfig : option OrchestratorConfig) (b : builtin)
  : Registry (Js.result unit) :=
  fun plugins =>
    let attempt : Js.result unit * PluginMap :=
      match importPkg (pkg b) with
      | inl e => (inl e, plugins)
      | inr mod_ =>
          match modManifest mod_, modCreate mod_ with
          | Some m, Some c =>
              let pluginConfig :=
                match orchestratorConfig with
                | Some cfg => extractPluginConfig (bSlot b) (bName b) cfg
                | None => None
                end in
              register {| manifest := m; create := c |} pluginConfig plugins
          | _, _ => (inr tt, plugins)
          end
      end in
    match attempt with
    | (inl _, plugins') => (inr tt, plugins')
    | (inr _, plugins') => (inr tt, plugins')
    end.

Fixpoint loadAll (importPkg : string -> Js.result ImportedModule)
    (orchestratorConfig : option OrchestratorConfig) (bs : list builtin)
  : Registry (Js.result unit) :=
  fun plugins =>
    match bs with
    | [] => (inr tt, plugins)
    | b :: rest =>
        match loadBuiltin importPkg orchestratorConfig b plugins with
        | (inl e, plugins') => (inl e, plugins')
        | (inr _, plugins') => loadAll importPkg orchestratorConfig rest plugins'
        end
    end.

(** [async loadBuiltins(orchestratorConfig?)] *)
Definition loadBuiltins (importPkg : string -> Js.result ImportedModule)
    (orchestratorConfig : option OrchestratorConfig) : Registry (Js.result unit) :=
  loadAll importPkg orchestratorConfig BUILTIN_PLUGINS.

(** [async loadFromConfig(config)] *)
Definition loadFromConfig (importPkg : string -> Js.result ImportedModule)
    (config : OrchestratorConfig) : Registry (Js.result unit) :=
  loadBuiltins importPkg (Some config).

(** The registries [createPluginRegistry()] can get into by [register]. *)
Inductive reachable : PluginMap -> Prop :=
| reachable_new : reachable []
| reachable_register plugins plugin config :
    reachable plugins -> reachable (snd (register plugin config plugins)).

(** The plugins of a history of [register] calls, oldest first. *)
Fixpoint registerAll (calls : list (PluginModule * option PluginConfig))
    (plugins : PluginMap) : PluginMap :=
  match calls with
  | [] => plugins
  | (plugin, config) :: rest => registerAll rest (snd (register plugin config plugins))
  end.

Definition keyOf (plugin : PluginModule) : string :=
  makeKey (slot (manifest plugin)) (name (manifest plugin)).

(** The entry a [register] call binds, if [create] does not throw. *)
Definition bindingOf (call : PluginModule * option PluginConfig)
  : option (string * entry) :=
  match create (fst call) (snd call) with
  | inr instance =>
      Some (keyOf (fst call),
            {| entryManifest := manifest (fst call); entryInstance := instance |})
  | inl _ => None
  end.

(** The package of a builtin can be imported. *)
Definition available (importPkg : string -> Js.result ImportedModule) (b : builtin) : bool :=
  match importPkg (pkg b) with inr _ => true | inl _ => false end.

(** Every key is the key of the manifest it is bound to. *)
Definition keysOk (plugins : PluginMap) : Prop :=
  Forall (fun kv => fst kv = makeKey (slot (entryManifest (snd kv)))
                                     (name (entryManifest (snd kv)))) plugins.

(** The configuration [loadBuiltins] hands to a builtin. *)
Definition configFor (orchestratorConfig : option OrchestratorConfig) (b : builtin)
  : option PluginConfig :=
  match orchestratorConfig with
  | Some cfg => extractPluginConfig (bSlot b) (bName b) cfg
  | None => None
  end.

(** The package of [b] exports a manifest for this key. *)
Definition provides (importPkg : string -> Js.result ImportedModule)
    (b : builtin) (key : string) : Prop :=
  exists mod_ m, importPkg (pkg b) = inr mod_ /\ modManifest mod_ = Some m
                 /\ makeKey (slot m) (name m) = key.

End Registry.

Arguments PluginModule : clear implicits.
Arguments ImportedModule : clear implicits.
Arguments entry : clear implicits.

Abbreviation PluginMap Instance := (list (string * entry Instance)).

Definition gitlabManifest : PluginManifest :=
  {| name := "gitlab"; slot := SlotTracker;
     description := "Tracker plugin: GitLab Issues"; version := "0.1.0" |}.

Definition githubManifest : PluginManifest :=
  {| name := "github"; slot := SlotScm;
     description := "SCM plugin: GitHub"; version := "0.1.0" |}.

(** Only the GitHub SCM package is installed. *)
Definition onlyScmGithub (p : string) : Js.result (ImportedModule nat) :=
  if String.eqb p "@agent-orchestrator/plugin-scm-github" then
    inr {| modManifest := Some githubManifest;
           modCreate := Some (fun _ => inr 1%nat) |}
  else inl (Js.Error "Cannot find package").


End PluginRegistry.

(* ===================================================================== *)
(** * packages/plugins/tracker-gitlab/src/adapter.ts *)
(* ===================================================================== *)

Module Tracker.
Import Js.

(** The values of [Issue["state"]] the adapter produces. *)
Inductive IssueState := StateOpen | StateClosed.

(** The normalised [Issue].  [url] is [undefined] when list and create get
    no [web_url]. *)
Record Issue := {
  id : string;
  title : string;
  description : string;
  url : option string;
  state : IssueState;
  labels : list string;
  assignee : option string }.

Record GitLabUser := { username : option string }.

(** An issue as the GitLab API sends it, as far as the adapter reads it.
    [glState] has the type of the parameter of [mapState]:
    [string | undefined]. *)
Record GitLabIssue := {
  iid : Z;
  glTitle : string;
  glDescription : option string;
  webUrl : option string;
  glState : option string;
  glLabels : option (list string);
  assignees : option (list GitLabUser) }.

(** An entry of the answer to [GET /users]. *)
Record UserRecord := { userId : option Z; userUid : option Z }.

Record ProjectConfig := { repo : option string }.

Record IssueFilters := {
  filterState : option string;
  filterLabels : option (list string);
  filterAssignee : option string;
  filterLimit : option Z }.

Record CreateIssueInput := {
  inputTitle : string;
  inputDescription : option string;
  inputLabels : option (list string);
  inputAssignee : option string }.

(** The body of [POST /projects/:id/issues]. *)
Record CreatePayload := {
  payloadTitle : string;
  payloadDescription : string;
  payloadLabels : option string;
  payloadAssigneeIds : option (list Z) }.

(** [String.prototype.toLowerCase], on the bytes of the UTF-8 text: the
    letters A..Z go to a..z.  Other characters never become one of the
    letters of the word closed, which is all the adapter compares with. *)
Definition lowerAscii (a : ascii) : ascii :=
  let n := N_of_ascii a in
  if ((65 <=? n) && (n <=? 90))%N then ascii_of_N (n + 32) else a.

Fixpoint toLowerCase (s : string) : string :=
  match s with
  | EmptyString => EmptyString
  | String a rest => String (lowerAscii a) (toLowerCase rest)
  end.

(** [function mapState(state: string | undefined): Issue["state"]] *)
Definition mapState (state : option string) : IssueState :=
  let s := toLowerCase (default "" state) in
  if String.eqb s "closed" then StateClosed
  else if String.eqb s "reopened" || String.eqb s "opened" then StateOpen
  else StateOpen.

(** [String(v)] of a string that may be [undefined]. *)
Definition stringOf (v : option string) : string := default "undefined" v.

(** [identifier.replace(/^#/, "")] *)
Definition stripHash (identifier : string) : string :=
  match identifier with
  | String "#" rest => rest
  | _ => identifier
  end.

(** The builtins of the platform that the adapter calls. *)
Record platform := {
  trim : string -> string;
  finiteNumber : string -> option string;
    (** [Number(m)] as [`${n}`] prints it, [None] when it is not finite *)
  encodeURIComponent : string -> string }.

(** The [GitLabClient] as the adapter sees it: what a call resolves to.
    [None] is an empty body. *)
Record api := {
  getIssueAt : string -> result (option GitLabIssue);
  getIssuesAt : string -> list (string * option string)
                -> result (option (list GitLabIssue));
  getUsers : string -> result (option (list UserRecord));
  postIssue : string -> CreatePayload -> result (option GitLabIssue) }.

(** [function parseIid(identifier: string): number] *)
Definition parseIid (pf : platform) (identifier : string) : result string :=
  let m := trim pf (stripHash identifier) in
  match finiteNumber pf m with
  | Some n => inr n
  | None => inl (Error ("Invalid issue identifier: " ++ identifier))
  end.

(** [function projectToPath(project: ProjectConfig): string] *)
Definition projectToPath (project : ProjectConfig) : result string :=
  if truthy (repo project) then inr (default "" (repo project))
  else inl (Error "project.repo is required for GitLab tracker").

Definition firstAssignee (users : option (list GitLabUser)) : option string :=
  match users with
  | Some (u :: _) => username u
  | _ => None
  end.

Definition issuePath (proj iid : string) : string :=
  "/projects/" ++ proj ++ "/issues/" ++ iid.

Definition emptyBody (method path : string) : error :=
  Error ("GitLab API returned empty body for " ++ method ++ " " ++ path).

(** [async getIssue(identifier, project)] *)
Definition getIssue (pf : platform) (client : api)
    (identifier : string) (project : ProjectConfig) : result Issue :=
  match parseIid pf identifier with
  | inl e => inl e
  | inr iid =>
      match projectToPath project with
      | inl e => inl e
      | inr repo =>
          let proj := encodeURIComponent pf repo in
          match getIssueAt client (issuePath proj iid) with
          | inl e => inl e
          | inr None => inl (emptyBody "GET" (issuePath proj iid))
          | inr (Some data) =>
              inr {| id := pretty (Tracker.iid data);
                     title := glTitle data;
                     description := default "" (glDescription data);
                     url := Some (default "" (webUrl data));
                     state := mapState (glState data);
                     labels := default [] (glLabels data);
                     assignee := firstAssignee (assignees data) |}
          end
      end
  end.

(** [async isCompleted(identifier, project)] *)
Definition isCompleted (pf : platform) (client : api)
    (identifier : string) (project : ProjectConfig) : result bool :=
  match parseIid pf identifier with
  | inl e => inl e
  | inr iid =>
      match projectToPath project with
      | inl e => inl e
      | inr repo =>
          let proj := encodeURIComponent pf repo in
          match getIssueAt client (issuePath proj iid) with
          | inl e => inl e
          | inr None => inl (emptyBody "GET" (issuePath proj iid))
          | inr (Some data) =>
              inr (String.eqb (toLowerCase (stringOf (glState data))) "closed")
          end
      end
  end.

(** The object literal that list and create map an upstream issue to. *)
Definition listedIssue (d : GitLabIssue) : Issue :=
  {| id := pretty (iid d);
     title := glTitle d;
     description := default "" (glDescription d);
     url := webUrl d;
     state := mapState (glState d);
     labels := default [] (glLabels d);
     assignee := firstAssignee (assignees d) |}.

Definition nonEmpty {A} (l : option (list A)) : option (list A) :=
  match l with
  | Some (_ :: _) => l
  | _ => None
  end.

(** The query of [listIssues]; a key bound to [None] is not sent. *)
Definition issuesQuery (filters : IssueFilters) : list (string * option string) :=
  [("per_page", Some (pretty (default 30%Z (filterLimit filters))));
   ("state",
    match filterState filters with
    | Some "closed" => Some "closed"
    | Some "all" => None
    | _ => Some "opened"
    end)]
  ++ (if truthy (filterAssignee filters)
      then [("assignee_username", filterAssignee filters)] else [])
  ++ (match nonEmpty (filterLabels filters) with
      | Some ls => [("labels", Some (String.concat "," ls))]
      | None => []
      end).

(** [async listIssues(filters, project)] *)
Definition listIssues (pf : platform) (client : api)
    (filters : IssueFilters) (project : ProjectConfig) : result (list Issue) :=
  match projectToPath project with
  | inl e => inl e
  | inr repo =>
      let proj := encodeURIComponent pf repo in
      match getIssuesAt client ("/projects/" ++ proj ++ "/issues") (issuesQuery filters) with
      | inl e => inl e
      | inr data => inr (listedIssue <$> default [] data)
      end
  end.

(** The user id that the lookup of an assignee yields, if any. *)
Definition resolveAssignee (client : api) (assignee : option string)
  : option (list Z) :=
  if truthy assignee then
    match getUsers client (default "" assignee) with
    | inr (Some (u :: _)) =>
        match orElse (userId u) (userUid u) with
        | Some uid => if (uid =? 0)%Z then None else Some [uid]
        | None => None
        end
    | _ => None
    end
  else None.

(** [async createIssue(input, project)] *)
Definition createIssue (pf : platform) (client : api)
    (input : CreateIssueInput) (project : ProjectConfig) : result Issue :=
  match projectToPath project with
  | inl e => inl e
  | inr repo =>
      let proj := encodeURIComponent pf repo in
      let payload :=
        {| payloadTitle := inputTitle input;
           payloadDescription := default "" (inputDescription input);
           payloadLabels := String.concat "," <$> nonEmpty (inputLabels input);
           payloadAssigneeIds := resolveAssignee client (inputAssignee input) |} in
      match postIssue client ("/projects/" ++ proj ++ "/issues") payload with
      | inl e => inl e
      | inr None => inl (emptyBody "POST" ("/projects/" ++ proj ++ "/issues"))
      | inr (Some created) => inr (listedIssue created)
      end
  end.

(** The upstream state reads closed, whatever the case of its letters. *)
Definition upstreamClosed (st : option string) : Prop :=
  exists s, st = Some s /\ toLowerCase s = toLowerCase "CLOSED".

(** A platform whose number parser accepts every identifier as it is, and a
    server on which every issue is closed. *)
Definition plainPlatform : platform :=
  {| trim := fun s => s; finiteNumber := fun s => Some s;
     encodeURIComponent := fun s => s |}.

Definition closedIssue : GitLabIssue :=
  {| iid := 42; glTitle := "Test issue"; glDescription := None; webUrl := None;
     glState := Some "Closed"; glLabels := None; assignees := None |}.

Definition allClosed : api :=
  {| getIssueAt := fun _ => inr (Some closedIssue);
     getIssuesAt := fun _ _ => inr (Some [closedIssue]);
     getUsers := fun _ => inr None;
     postIssue := fun _ _ => inr (Some closedIssue) |}.

End Tracker.

(** Auxiliary definitions for counting digests. *)
Module Counting.

(** A buffer read as a big-endian number. *)
Fixpoint bufferNum (d : list Byte.byte) : N :=
  match d with
  | [] => 0
  | b :: rest => Byte.to_N b * 256 ^ N.of_nat (length rest) + bufferNum rest
  end%N.

(** The character [x] followed by [i] times the character [a]: pairwise
    different, non-empty strings. *)
Fixpoint tail (i : nat) : string :=
  match i with
  | O => EmptyString
  | S i' => String "a"%char (tail i')
  end.

Definition probe (i : nat) : string := String "x"%char (tail i).

End Counting.

(* ===================================================================== *)
(** * The string builtins the plugin calls *)
(* ===================================================================== *)

(** [String.prototype] methods and [encodeURIComponent], on the UTF-8
    encoding of well-formed text. *)
Module Text.

(** [s.endsWith(suffix)] *)
Fixpoint endsWith (s suffix : string) : bool :=
  String.eqb s suffix
  || match s with
     | EmptyString => false
     | String _ rest => endsWith rest suffix
     end.

(** [s.startsWith(w)], with what follows [w]. *)
Fixpoint stripPrefix (w s : string) : option string :=
  match w with
  | EmptyString => Some s
  | String a w' =>
      match s with
      | EmptyString => None
      | String b s' => if Ascii.eqb a b then stripPrefix w' s' else None
      end
  end.

(** [s.replace(/c+$/, "")] for a character [c]: the trailing run of [c]
    goes. *)
Fixpoint stripTrailing (c : ascii) (s : string) : string :=
  match s with
  | EmptyString => EmptyString
  | String a rest =>
      let r := stripTrailing c rest in
      if String.eqb r "" && Ascii.eqb a c then EmptyString else String a r
  end.

Definition bytes (l : list nat) : string :=
  string_of_list_ascii (Ascii.ascii_of_nat <$> l).

(** WhiteSpace and LineTerminator of ECMAScript, each code point in UTF-8:
    TAB, LF, VT, FF, CR, SP, U+00A0, U+1680, U+2000 to U+200A, U+2028,
    U+2029, U+202F, U+205F, U+3000 and U+FEFF. *)
Definition whiteSpace : list string :=
  Eval vm_compute in
    ((bytes <$> [[9]; [10]; [11]; [12]; [13]; [32]; [194; 160]; [225; 154; 128]])
     ++ ((fun b => bytes [226; 128; b]) <$> seq 128 11)
     ++ (bytes <$> [[226; 128; 168]; [226; 128; 169]; [226; 128; 175];
                    [226; 129; 159]; [227; 128; 128]; [239; 187; 191]]))%list.

(** The text after one leading white space character, if there is one. *)
Fixpoint afterWhite (ws : list string) (s : string) : option string :=
  match ws with
  | [] => None
  | w :: ws' =>
      match stripPrefix w s with
      | Some rest => Some rest
      | None => afterWhite ws' s
      end
  end.

Fixpoint trimStartWithin (n : nat) (s : string) : string :=
  match n with
  | O => s
  | S n' =>
      match afterWhite whiteSpace s with
      | Some rest => trimStartWithin n' rest
      | None => s
      end
  end.

(** [s.trimStart()] *)
Definition trimStart (s : string) : string := trimStartWithin (String.length s) s.

(** [s.trimEnd()]: the longest suffix made of white space goes. *)
Fixpoint trimEnd (s : string) : string :=
  match s with
  | EmptyString => EmptyString
  | String a rest =>
      if String.eqb (trimStart s) "" then EmptyString else String a (trimEnd rest)
  end.

(** [s.trim()] *)
Definition trim (s : string) : string := trimEnd (trimStart s).

(** [s.split(c)] for a one-character separator. *)
Fixpoint split (c : ascii) (s : string) : list string :=
  match s with
  | EmptyString => [EmptyString]
  | String a rest =>
      match split c rest with
      | w :: ws => if Ascii.eqb a c then EmptyString :: w :: ws else String a w :: ws
      | [] => []
      end
  end.

(** The characters [encodeURIComponent] leaves alone: letters, digits and
    [- _ . ! ~ * ' ( )]. *)
Definition unreserved (a : ascii) : bool :=
  let n := N_of_ascii a in
  ((65 <=? n) && (n <=? 90) || (97 <=? n) && (n <=? 122)
   || (48 <=? n) && (n <=? 57))%N
  || existsb (Ascii.eqb a) (list_ascii_of_string "-_.!~*'()").

Definition hexUpper (n : N) : ascii :=
  ascii_of_N (if (n <? 10)%N then 48 + n else 55 + n).

(** [%XX] for a byte. *)
Definition percent (a : ascii) : string :=
  let n := N_of_ascii a in
  String "%" (String (hexUpper (n / 16)) (String (hexUpper (n mod 16)) EmptyString)).

(** [encodeURIComponent(s)]: every byte of the UTF-8 text that is not
    unreserved is escaped. *)
Fixpoint encodeURIComponent (s : string) : string :=
  match s with
  | EmptyString => EmptyString
  | String a rest =>
      (if unreserved a then String a EmptyString else percent a)
        ++ encodeURIComponent rest
  end.

(** The characters of [s] all satisfy [p]. *)
Fixpoint allChars (p : ascii -> bool) (s : string) : bool :=
  match s with
  | EmptyString => true
  | String a rest => p a && allChars p rest
  end.

Definition isNot (c a : ascii) : bool := negb (Ascii.eqb a c).

(** What an encoded text is made of. *)
Definition encoded (a : ascii) : bool := unreserved a || Ascii.eqb a "%".

End Text.

(* ===================================================================== *)
(** * The base URL of the client (gitlabClient.ts and client.ts) *)
(* ===================================================================== *)

Module BaseUrl.
Import Js Text GitLabClient.

Definition gitlabApi : string := "https://gitlab.com/api/v4".

(** [function defaultBaseUrl(url?: string): string] of gitlabClient.ts *)
Definition defaultBaseUrl (url : option string) : string :=
  if truthy url then
    let normalized := stripTrailing "/" (trim (default "" url)) in
    if endsWith normalized "/api/v4" then normalized
    else normalized ++ "/api/v4"
  else gitlabApi.

(** The text handed to [new URL] by [request]:
    [`${this.baseUrl}${normalizedPath}`]. *)
Definition requestUrl (opts : GitLabClientOptions) (path : string) : string :=
  defaultBaseUrl (optBaseUrl opts) ++ normalizedPath path.

(** A path without its leading slash, if it has one. *)
Definition relative (path : string) : string :=
  match path with
  | String "/" rest => rest
  | _ => path
  end.

(** The world in which [new URL] is [parse], for the client of
    gitlabClient.ts: asked about a configured base and a normalised path, it
    parses the text that [request] builds from them,
    [`${this.baseUrl}${normalizedPath}`] with [this.baseUrl] set by the
    constructor to [defaultBaseUrl(opts.baseUrl)]. *)
Definition resolving (parse : string -> option string) (env : environment)
  : environment :=
  {| newURL := fun base path => parse (defaultBaseUrl base ++ path);
     outcome := outcome env;
     firesLate := firesLate env;
     jsonParse := jsonParse env;
     random := random env |}.

Module Legacy.

(** [function defaultBaseUrl(url?: string): string] of client.ts *)
Definition defaultBaseUrl (url : option string) : string :=
  if truthy url then
    let u := default "" url in
    if endsWith u "/api/v4" then u
    else if endsWith u "/" then u ++ "api/v4"
    else u ++ "/api/v4"
  else gitlabApi.

(** [s.replace(/\/$/, "")] *)
Fixpoint dropSlash (s : string) : string :=
  match s with
  | EmptyString => EmptyString
  | String a rest =>
      match rest with
      | EmptyString => if Ascii.eqb a "/" then EmptyString else s
      | String _ _ => String a (dropSlash rest)
      end
  end.

(** [`${this.baseUrl.replace(/\/$/, "")}${path}`] *)
Definition requestUrl (opts : GitLabClientOptions) (path : string) : string :=
  dropSlash (defaultBaseUrl (optBaseUrl opts)) ++ path.

(** The world in which [new URL] is [parse], for the client of client.ts:
    it parses the text that this client builds from the configured base and
    the path as given. *)
Definition resolving (parse : string -> option string) (env : environment)
  : environment :=
  {| newURL := fun base path => parse (dropSlash (defaultBaseUrl base) ++ path);
     outcome := outcome env;
     firesLate := firesLate env;
     jsonParse := jsonParse env;
     random := random env |}.

End Legacy.

End BaseUrl.

(* ===================================================================== *)
(** * The retry policy of [GitLabClient.request], turn by turn *)
(* ===================================================================== *)

Module Retry.
Import Js GitLabClient.
Local Open Scope Z_scope.

(** The errors that the [catch] block retries. *)
Definition retryable (err : error) : bool :=
  String.eqb (errName err) "AbortError" || String.eqb (errName err) "TimeoutError"
  || hasCode err "ECONNRESET" || hasCode err "ENOTFOUND".

(** How the turn of an attempt ends, from what happens to its await. *)
Definition verdict (c : client) (env : environment) (attempt : nat) : step value :=
  match outcome env attempt with
  | Responded status statusText text => respond c env attempt status statusText text
  | FetchFailed err =>
      if retryable err && (Z.of_nat attempt <? maxRetries c) then Continue
      else Throw err
  | TimedOut abortFirst =>
      if Z.of_nat attempt <? maxRetries c then Continue
      else Throw (if abortFirst then abortError else timeoutError (timeoutMs c))
  end.

(** The turns taken from attempt [n] on, [fuel] at most. *)
Fixpoint attemptsFrom (fuel : nat) (c : client) (env : environment) (n : nat) : nat :=
  match fuel with
  | O => O
  | S fuel' =>
      match verdict c env n with
      | Continue => S (attemptsFrom fuel' c env (S n))
      | _ => 1%nat
      end
  end.

(** What the last of them returns or throws. *)
Fixpoint settle (fuel : nat) (c : client) (env : environment) (n : nat)
  : option (result value) :=
  match fuel with
  | O => None
  | S fuel' =>
      match verdict c env n with
      | Return v => Some (inr v)
      | Throw e => Some (inl e)
      | Continue => settle fuel' c env (S n)
      end
  end.

(** The delay before the attempt after [attempt]. *)
Definition pause (env : environment) (attempt : nat) : Z :=
  backoff attempt + jitter env attempt.

(** An outcome that is retried while attempts are left. *)
Definition transient (o : raceOutcome) : bool :=
  match o with
  | Responded status _ _ => (status =? 429) || (500 <=? status)
  | FetchFailed err => retryable err
  | TimedOut _ => true
  end.

(** No answer ever: every attempt runs into the timeout. *)
Definition deadServer : environment :=
  {| newURL := fun _ path => Some path;
     outcome := fun _ => TimedOut false;
     firesLate := fun _ => false;
     jsonParse := fun _ => None;
     random := fun _ => 0 |}.

(** The connection is reset once, then a timeout, then an answer. *)
Definition shakyNetwork : environment :=
  {| newURL := fun _ path => Some path;
     outcome := fun n =>
       if (n =? 1)%nat then FetchFailed (Err "TypeError" (Some "ECONNRESET") "fetch failed")
       else if (n =? 2)%nat then TimedOut true
       else Responded 200 "OK" (Some "[]");
     firesLate := fun _ => false;
     jsonParse := fun _ => Some (Array []);
     random := fun _ => 0 |}.

(** The certificate of the server is not accepted. *)
Definition badCertificate : environment :=
  {| newURL := fun _ path => Some path;
     outcome := fun _ =>
       FetchFailed (Err "TypeError" (Some "CERT_HAS_EXPIRED") "fetch failed");
     firesLate := fun _ => false;
     jsonParse := fun _ => None;
     random := fun _ => 0 |}.

(** A proxy answers 200 with a page that is not JSON. *)
Definition htmlServer : environment :=
  {| newURL := fun _ path => Some path;
     outcome := fun _ => Responded 200 "OK" (Some "<html>");
     firesLate := fun _ => false;
     jsonParse := fun _ => None;
     random := fun _ => 0 |}.

Module Legacy.

(** In client.ts the timeout always surfaces as the AbortError of the
    fetch, and [catch] does not know the TimeoutError. *)
Definition retryable (err : error) : bool :=
  String.eqb (errName err) "AbortError"
  || hasCode err "ECONNRESET" || hasCode err "ENOTFOUND".

Definition verdict (c : client) (env : environment) (attempt : nat) : step value :=
  match outcome env attempt with
  | Responded status statusText text => respond c env attempt status statusText text
  | FetchFailed err =>
      if retryable err && (Z.of_nat attempt <? maxRetries c) then Continue
      else Throw err
  | TimedOut _ =>
      if Z.of_nat attempt <? maxRetries c then Continue else Throw abortError
  end.

(** The outcomes that the two clients can both meet and treat alike: the
    earlier one has no TimeoutError of its own. *)
Definition common (o : raceOutcome) : bool :=
  match o with
  | Responded _ _ _ => true
  | FetchFailed err => negb (String.eqb (errName err) "TimeoutError")
  | TimedOut abortFirst => abortFirst
  end.

End Legacy.

End Retry.

(* ===================================================================== *)
(** * Which builtins end up in the registry *)
(* ===================================================================== *)

Module PluginLoading.
Import PluginRegistry.

(** The package of [b] imports, exports a manifest and a factory, and the
    factory constructs an instance from the configuration of [b]. *)
Definition usable {Instance : Type}
    (importPkg : string -> Js.result (ImportedModule Instance))
    (orchestratorConfig : option OrchestratorConfig) (b : builtin) : bool :=
  match importPkg (pkg b) with
  | inr mod_ =>
      match modManifest mod_, modCreate mod_ with
      | Some _, Some c =>
          match c (configFor orchestratorConfig b) with
          | inr _ => true
          | inl _ => false
          end
      | _, _ => false
      end
  | inl _ => false
  end.

(** The GitLab tracker as a plugin module whose instance is a number. *)
Definition gitlabModule (instance : nat) : PluginModule nat :=
  {| manifest := gitlabManifest; create := fun _ => inr instance |}.

(** The SCM package is installed, the tmux runtime exports no factory and
    the factory of the desktop notifier throws. *)
Definition brokenPackages (p : string) : Js.result (ImportedModule nat) :=
  if String.eqb p "@agent-orchestrator/plugin-scm-github" then
    inr {| modManifest := Some githubManifest;
           modCreate := Some (fun _ => inr 1%nat) |}
  else if String.eqb p "@agent-orchestrator/plugin-runtime-tmux" then
    inr {| modManifest := Some {| name := "tmux"; slot := SlotRuntime;
                                  description := "tmux"; version := "0.1.0" |};
           modCreate := None |}
  else if String.eqb p "@agent-orchestrator/plugin-notifier-desktop" then
    inr {| modManifest := Some {| name := "desktop"; slot := SlotNotifier;
                                  description := "desktop"; version := "0.1.0" |};
           modCreate := Some (fun _ => inl (Js.Error "no display")) |}
  else inl (Js.Error "Cannot find package").

End PluginLoading.

(* ===================================================================== *)
(** * The rest of the tracker (adapter.ts): creation, links, updates *)
(* ===================================================================== *)

Module TrackerOps.
Import Js Text Tracker.

(** [GitLabPluginConfig] *)
Record GitLabPluginConfig := {
  cfgToken : option string;
  cfgBaseUrl : option string;
  cfgWebhookSecret : option string;
  cfgTimeoutMs : option Z;
  cfgMaxRetries : option Z }.

Definition tokenRequired : error :=
  Error "GITLAB_TOKEN (or plugin config.token) is required for tracker-gitlab".

(** [export function createGitLabTracker(cfg = {})], up to the client that
    the methods of the tracker close over; [envToken] is
    [process.env["GITLAB_TOKEN"]]. *)
Definition createGitLabTracker (cfg : GitLabPluginConfig) (envToken : option string)
  : result GitLabClient.client :=
  let token := orElse (cfgToken cfg) envToken in
  if truthy token then
    inr (GitLabClient.newClient
           {| GitLabClient.optBaseUrl := cfgBaseUrl cfg;
              GitLabClient.optToken := default "" token;
              GitLabClient.optTimeoutMs := cfgTimeoutMs cfg;
              GitLabClient.optMaxRetries := cfgMaxRetries cfg |})
  else inl tokenRequired.

(** The builtins of [Text] with a number parser [finiteNumber]. *)
Definition textPlatform (finiteNumber : string -> option string) : platform :=
  {| trim := Text.trim;
     finiteNumber := finiteNumber;
     encodeURIComponent := Text.encodeURIComponent |}.

(** [branchName(identifier, _project)] *)
Definition branchName (pf : platform) (identifier : string) : string :=
  "feat/issue-" ++ trim pf (stripHash identifier).

(** [issueUrl(identifier, project)]; [base] is [client.baseUrl] and
    [originOf] is [new URL(...).origin], [None] when the URL is invalid. *)
Definition issueUrl (pf : platform) (originOf : string -> option string)
    (base : string) (identifier : string) (project : ProjectConfig) : string :=
  let num := trim pf (stripHash identifier) in
  let origin := default "https://" (originOf base) in
  let repoRaw := trim pf (default "" (repo project)) in
  let repoPath :=
    if String.eqb repoRaw "" then ""
    else String.concat "/" (encodeURIComponent pf <$> split "/" repoRaw) in
  if negb (String.eqb repoPath "") then
    origin ++ "/" ++ repoPath ++ "/-/issues/" ++ encodeURIComponent pf num
  else origin ++ "/-/issues/" ++ encodeURIComponent pf num.

(** A repository path of unreserved characters and slashes. *)
Definition plainPath (s : string) : bool :=
  allChars (fun a => unreserved a || Ascii.eqb a "/") s.

(** [IssueUpdate], as far as [updateIssue] reads it. *)
Record IssueUpdate := {
  updState : option string;
  updLabels : option (list string);
  updAssignee : option string;
  updComment : option string }.

(** The body of [PUT /projects/:id/issues/:iid]: a key is present when it
    is [Some]. *)
Record UpdatePayload := {
  stateEvent : option string;
  putLabels : option string;
  putAssigneeIds : option (list Z) }.

(** [Object.keys(payload).length > 0] *)
Definition hasKeys (payload : UpdatePayload) : bool :=
  match stateEvent payload, putLabels payload, putAssigneeIds payload with
  | None, None, None => false
  | _, _, _ => true
  end.

(** The calls [updateIssue] makes on the client. *)
Inductive call :=
| GetIssue (path : string)
| GetUsers (username : string)
| PostNote (path body : string)
| PutIssue (path : string) (payload : UpdatePayload).

(** What the calls resolve to. *)
Record server := {
  issueAt : string -> result (option GitLabIssue);
  usersNamed : string -> result (option (list UserRecord));
  noteTo : string -> string -> result unit;
  putTo : string -> UpdatePayload -> result unit }.

(** Computations that log their calls, in program order. *)
Definition Calls (A : Type) := (list call * A)%type.

Definition ret {A} (x : A) : Calls A := ([], x).

Definition bind {A B} (m : Calls A) (k : A -> Calls B) : Calls B :=
  let (l1, a) := m in let (l2, b) := k a in ((l1 ++ l2)%list, b).

Notation "'let*' x ':=' m 'in' k" := (bind m (fun x => k))
  (at level 10, x name, m at level 100, k at level 200).

Definition getIssueCall (sv : server) (path : string)
  : Calls (result (option GitLabIssue)) := ([GetIssue path], issueAt sv path).

Definition getUsersCall (sv : server) (username : string)
  : Calls (result (option (list UserRecord))) :=
  ([GetUsers username], usersNamed sv username).

Definition postNoteCall (sv : server) (path body : string) : Calls (result unit) :=
  ([PostNote path body], noteTo sv path body).

Definition putIssueCall (sv : server) (path : string) (payload : UpdatePayload)
  : Calls (result unit) := ([PutIssue path payload], putTo sv path payload).

(** [payload["state_event"]] *)
Definition stateEventOf (st : option string) : option string :=
  if truthy st then
    if String.eqb (default "" st) "closed" then Some "close"
    else if String.eqb (default "" st) "open" then Some "reopen"
    else None
  else None.

(** [set.add(x)] on the elements of a [Set] in insertion order. *)
Definition setAdd (elements : list string) (x : string) : list string :=
  if bool_decide (x ∈ elements) then elements else (elements ++ [x])%list.

(** [Array.from(new Set(l))] *)
Definition fromSet (l : list string) : list string := fold_left setAdd l [].

(** [Array.from(new Set([...existingLabels, ...update.labels]))] *)
Definition mergeLabels (existing requested : list string) : list string :=
  fromSet (existing ++ requested)%list.

(** The labels of the payload: the [try] block that reads the issue, and
    its [catch]. *)
Definition labelsFor (sv : server) (path : string) (labels : option (list string))
  : Calls (option string) :=
  match nonEmpty labels with
  | Some requested =>
      let* existing := getIssueCall sv path in
      match existing with
      | inr data =>
          let existingLabels :=
            match data with
            | Some d => default [] (glLabels d)
            | None => []
            end in
          ret (Some (String.concat "," (mergeLabels existingLabels requested)))
      | inl _ => ret (Some (String.concat "," requested))
      end
  | None => ret None
  end.

(** [users && users[0] && (users[0].id ?? users[0].uid)], kept if truthy. *)
Definition uidOf (users : result (option (list UserRecord))) : option (list Z) :=
  match users with
  | inr (Some (u :: _)) =>
      match orElse (userId u) (userUid u) with
      | Some uid => if (uid =? 0)%Z then None else Some [uid]
      | None => None
      end
  | _ => None
  end.

(** The assignee of the payload: the lookup and its empty [catch]. *)
Definition assigneeFor (sv : server) (assignee : option string)
  : Calls (option (list Z)) :=
  if truthy assignee then
    let* users := getUsersCall sv (default "" assignee) in
    ret (uidOf users)
  else ret None.

(** [async updateIssue(identifier, update, project)] *)
Definition updateIssue (pf : platform) (sv : server) (identifier : string)
    (update : IssueUpdate) (project : ProjectConfig) : Calls (result unit) :=
  match parseIid pf identifier with
  | inl e => ret (inl e)
  | inr iid =>
      match projectToPath project with
      | inl e => ret (inl e)
      | inr repo =>
          let path := issuePath (encodeURIComponent pf repo) iid in
          let* labels := labelsFor sv path (updLabels update) in
          let* assigneeIds := assigneeFor sv (updAssignee update) in
          let payload :=
            {| stateEvent := stateEventOf (updState update);
               putLabels := labels;
               putAssigneeIds := assigneeIds |} in
          let* posted :=
            if truthy (updComment update) then
              postNoteCall sv (path ++ "/notes") (default "" (updComment update))
            else ret (inr tt) in
          match posted with
          | inl e => ret (inl e)
          | inr _ =>
              if hasKeys payload then putIssueCall sv path payload
              else ret (inr tt)
          end
      end
  end.

Definition isWrite (c : call) : bool :=
  match c with
  | PostNote _ _ | PutIssue _ _ => true
  | _ => false
  end.

Definition isPut (c : call) : bool :=
  match c with
  | PutIssue _ _ => true
  | _ => false
  end.

(** A server on which writes succeed. *)
Definition writable (sv : server) : Prop :=
  (forall path body, noteTo sv path body = inr tt)
  /\ (forall path payload, putTo sv path payload = inr tt).

(** Nothing is found and nothing fails. *)
Definition quietServer : server :=
  {| issueAt := fun _ => inr None;
     usersNamed := fun _ => inr None;
     noteTo := fun _ _ => inr tt;
     putTo := fun _ _ => inr tt |}.

(** Reading fails, notes are refused. *)
Definition readOnlyServer : server :=
  {| issueAt := fun _ => inl (Error "GitLab API 500");
     usersNamed := fun _ => inl (Error "GitLab API 500");
     noteTo := fun _ _ => inl (Error "GitLab API 403 Forbidden: ");
     putTo := fun _ _ => inr tt |}.

(** The issue 42 has the labels bug and ui. *)
Definition labelledIssue : GitLabIssue :=
  {| iid := 42; glTitle := "Test issue"; glDescription := None; webUrl := None;
     glState := Some "opened"; glLabels := Some ["bug"; "ui"]; assignees := None |}.

Definition labelledServer : server :=
  {| issueAt := fun _ => inr (Some labelledIssue);
     usersNamed := fun _ => inr None;
     noteTo := fun _ _ => inr tt;
     putTo := fun _ _ => inr tt |}.

(** The client [client], with another answer to [GET /users]. *)
Definition withUsers (client : api) (answer : result (option (list UserRecord))) : api :=
  {| getIssueAt := getIssueAt client;
     getIssuesAt := getIssuesAt client;
     getUsers := fun _ => answer;
     postIssue := postIssue client |}.

(** A server without users that echoes what is posted as issue 7. *)
Definition echoServer : api :=
  {| getIssueAt := fun _ => inr None;
     getIssuesAt := fun _ _ => inr None;
     getUsers := fun _ => inl (Error "GitLab API 403 Forbidden: ");
     postIssue := fun _ payload =>
       inr (Some {| iid := 7; glTitle := payloadTitle payload;
                    glDescription := Some (payloadDescription payload);
                    webUrl := None; glState := Some "opened"; glLabels := None;
                    assignees := None |}) |}.

(** The earlier adapter (adapter.ts). *)
Module Legacy.

(** [function projectToPath(project)]: it encodes the path itself. *)
Definition projectToPath (pf : platform) (project : ProjectConfig) : result string :=
  if truthy (repo project) then inr (encodeURIComponent pf (default "" (repo project)))
  else inl (Error "project.repo is required for GitLab tracker").

Definition readOfUndefined (name : string) : error :=
  TypeError ("Cannot read properties of undefined (reading '" ++ name ++ "')").

(** [async getIssue(identifier, project)]: no check for an empty body. *)
Definition getIssue (pf : platform) (client : api)
    (identifier : string) (project : ProjectConfig) : result Issue :=
  match parseIid pf identifier with
  | inl e => inl e
  | inr iid =>
      match projectToPath pf project with
      | inl e => inl e
      | inr proj =>
          match getIssueAt client (issuePath proj iid) with
          | inl e => inl e
          | inr None => inl (readOfUndefined "iid")
          | inr (Some data) =>
              inr {| id := pretty (Tracker.iid data);
                     title := glTitle data;
                     description := default "" (glDescription data);
                     url := webUrl data;
                     state := mapState (glState data);
                     labels := default [] (glLabels data);
                     assignee := firstAssignee (assignees data) |}
          end
      end
  end.

(** [async isCompleted(identifier, project)] *)
Definition isCompleted (pf : platform) (client : api)
    (identifier : string) (project : ProjectConfig) : result bool :=
  match parseIid pf identifier with
  | inl e => inl e
  | inr iid =>
      match projectToPath pf project with
      | inl e => inl e
      | inr proj =>
          match getIssueAt client (issuePath proj iid) with
          | inl e => inl e
          | inr None => inl (readOfUndefined "state")
          | inr (Some data) =>
              inr (String.eqb (toLowerCase (stringOf (glState data))) "closed")
          end
      end
  end.

(** [branchName(identifier, _project)] *)
Definition branchName (identifier : string) : string :=
  "feat/issue-" ++ stripHash identifier.

(** [s.replace(/\/api\/v4\/?$/, "")] *)
Definition stripApi (s : string) : string :=
  if endsWith s "/api/v4/" then String.substring 0 (String.length s - 8) s
  else if endsWith s "/api/v4" then String.substring 0 (String.length s - 7) s
  else s.

(** [s.replace(/^https?:\/\//, "")] *)
Definition stripScheme (s : string) : string :=
  match stripPrefix "https://" s with
  | Some rest => rest
  | None => default s (stripPrefix "http://" s)
  end.

(** [issueUrl(identifier, project)]; [base] is [client["baseUrl"]]. *)
Definition issueUrl (base : string) (identifier : string) (project : ProjectConfig)
  : string :=
  let num := stripHash identifier in
  let host := stripScheme (stripApi base) in
  "https://" ++ host ++ "/" ++ stringOf (repo project) ++ "/-/issues/" ++ num.

End Legacy.

End TrackerOps.

(* ===================================================================== *)
(** * Command lines of escaped arguments *)
(* ===================================================================== *)

(** The words of a simple command (XCU 2.3, 2.6.5): unquoted blanks
    separate words, quoting is as in [Utils.readWord], and the reader gives
    up on operators, expansions and an unquoted newline. *)
Module Shell.
Import Utils.

Definition blank (a : ascii) : bool :=
  Ascii.eqb a " " || Ascii.eqb a (Ascii.ascii_of_nat 9).

(** Put [a] before the word that is being read. *)
Definition push (a : ascii) (ws : option (list string)) : option (list string) :=
  match ws with
  | Some (w :: rest) => Some (String a w :: rest)
  | _ => None
  end.

(** The words of [s]; [inWord] says that a word has begun, and the first
    word of the result is then the rest of it. *)
Fixpoint readWords (q : quoting) (inWord : bool) (s : string) : option (list string) :=
  match s with
  | EmptyString =>
      match q with
      | Unquoted => Some (if inWord then [EmptyString] else [])
      | InSingleQuotes => None
      end
  | String a rest =>
      match q with
      | InSingleQuotes =>
          if Ascii.eqb a squote then readWords Unquoted true rest
          else push a (readWords InSingleQuotes true rest)
      | Unquoted =>
          if Ascii.eqb a squote then readWords InSingleQuotes true rest
          else if Ascii.eqb a backslash then
            match rest with
            | EmptyString => None
            | String b rest' =>
                if Ascii.eqb b newline then readWords Unquoted inWord rest'
                else push b (readWords Unquoted true rest')
            end
          else if blank a then
            if inWord then option_map (cons EmptyString) (readWords Unquoted false rest)
            else readWords Unquoted false rest
          else if shellSpecial a then None
          else push a (readWords Unquoted true rest)
      end
  end.

(** The arguments that the shell hands to a command. *)
Definition shellWords (s : string) : option (list string) := readWords Unquoted false s.

(** Escaped arguments with single spaces between them: the command line
    that a caller makes of them for [sh -c]. *)
Definition commandLine (args : list string) : string :=
  String.concat " " (shellEscape <$> args).

End Shell.

(* ===================================================================== *)
(** * Properties *)
(* ===================================================================== *)

Module UtilsFacts.
Import Utils.

Example shellEscape_plain :
  shellEscape "feat/a b; rm -rf /" = "'feat/a b; rm -rf /'".
Proof. reflexivity. Qed.

Example shellEscape_quote : shellEscape "it's" = "'it'\''s'".
Proof. reflexivity. Qed.

Example shellWord_unterminated : shellWord "'abc" = None.
Proof. reflexivity. Qed.

Example shellWord_unquoted_semicolon : shellWord "a;b" = None.
Proof. reflexivity. Qed.

Lemma append_assoc (a b c : string) : (a ++ b) ++ c = a ++ (b ++ c).
Proof. induction a as [|x a IH]; simpl; [reflexivity | now rewrite IH]. Qed.

Lemma append_empty_r (a : string) : a ++ "" = a.
Proof. induction a as [|x a IH]; simpl; [reflexivity | now rewrite IH]. Qed.

(** Reading the escaped body inside single quotes yields the original
    characters and leaves the reader inside single quotes. *)
Lemma readWord_body (arg rest : string) :
  readWord InSingleQuotes (replaceAll squote escapedQuote arg ++ rest)
  = option_map (String.append arg) (readWord InSingleQuotes rest).
Proof.
  induction arg as [|a arg IH]; simpl.
  - now destruct (readWord InSingleQuotes rest).
  - destruct (Ascii.eqb a squote) eqn:E.
    + apply Ascii.eqb_eq in E. subst a.
      cbn [escapedQuote String.append readWord].
      change (Ascii.eqb squote squote) with true.
      change (Ascii.eqb backslash squote) with false.
      change (Ascii.eqb backslash backslash) with true.
      change (Ascii.eqb squote newline) with false.
      cbn iota. rewrite IH.
      now destruct (readWord InSingleQuotes rest).
    + cbn [String.append readWord]. rewrite E, IH.
      now destruct (readWord InSingleQuotes rest).
Qed.

(** Replacing is done character by character. *)
Lemma replaceAll_chars (c : ascii) (by_ arg : string) :
  replaceAll c by_ arg
  = String.concat ""
      ((fun a => if Ascii.eqb a c then by_ else String a "")
         <$> list_ascii_of_string arg).
Proof.
  induction arg as [|a arg IH]; [reflexivity |].
  cbn [replaceAll list_ascii_of_string fmap list_fmap]. rewrite IH.
  destruct (list_ascii_of_string arg) as [|b l] eqn:E; cbn [fmap list_fmap String.concat].
  - destruct (Ascii.eqb a c); cbn [String.append]; now rewrite ?append_empty_r.
  - destruct (Ascii.eqb a c); reflexivity.
Qed.

(** C10. For every input string, [shellEscape] produces the input between
    two single quotes with every embedded single quote replaced by the four
    characters quote, backslash, quote, quote and every other character kept;
    reading that word under the POSIX quoting rules gives back exactly the
    input: no input can leave the quoting. *)
Theorem shellEscape_roundtrip (arg : string) :
  shellEscape arg
  = "'" ++ String.concat ""
             ((fun a => if Ascii.eqb a squote then escapedQuote else String a "")
                <$> list_ascii_of_string arg)
        ++ "'"
  /\ shellWord (shellEscape arg) = Some arg.
Proof.
  split; [unfold shellEscape; now rewrite replaceAll_chars |].
  unfold shellWord, shellEscape.
  cbn [String.append readWord].
  change (Ascii.eqb squote squote) with true. cbn iota.
  rewrite readWord_body. cbn [readWord].
  change (Ascii.eqb squote squote) with true. cbn iota.
  cbn [readWord option_map]. now rewrite append_empty_r.
Qed.

End UtilsFacts.

Module Sha256Facts.
Import Sha256.

(** The test vectors of FIPS 180-4 and one two-block message. *)
Example sha256_empty :
  hex (sha256 "")
  = "e3b0c44298fc1c149afbf4c8996fb92427ae41e4649b934ca495991b7852b855".
Proof. vm_compute. reflexivity. Qed.

Example sha256_abc :
  hex (sha256 "abc")
  = "ba7816bf8f01cfea414140de5dae2223b00361a396177a9cb410ff61f20015ad".
Proof. vm_compute. reflexivity. Qed.

Example sha256_two_blocks :
  hex (sha256 "aaaaaaaaaaaaaaaaaaaaaaaaaaaaaaaaaaaaaaaaaaaaaaaaaaaaaaaaaaaaaaaa")
  = "ffe054fe7ae0cb6dc65c3af9b61d5209f439851db43d0ba5997337df154668eb".
Proof. vm_compute. reflexivity. Qed.

(** A digest is always 32 bytes long. *)
Lemma sha256_length (s : string) : length (sha256 s) = 32%nat.
Proof. reflexivity. Qed.

End Sha256Facts.

Module WebhookHandlerFacts.
Import Js Sha256 WebhookHandler.

#[local] Arguments sha256 : simpl never.

Example webhook_good_token :
  snd (handleWebhook {[ "x-gitlab-token" := "s3cret"; "x-gitlab-event" := "Issue Hook" ]}
         (Object [("object_attributes", Object [("action", Str "open")]);
                  ("project", Object [("id", Number 7)])])
         (Some "s3cret"))
  = inr (IssueEvent (Str "open") (Object [("action", Str "open")])
                    (Object [("id", Number 7)])).
Proof. vm_compute. reflexivity. Qed.

Example webhook_bad_token :
  snd (handleWebhook {[ "x-gitlab-token" := "guess" ]} Null (Some "s3cret"))
  = inl invalidToken.
Proof. vm_compute. reflexivity. Qed.

Example webhook_missing_token :
  handleWebhook ∅ Null (Some "s3cret")
  = ([HashSha256 ""; HashSha256 "s3cret";
      TimingSafeEqual (sha256 "") (sha256 "s3cret")], inl invalidToken).
Proof. vm_compute. reflexivity. Qed.

Example webhook_capitalised_headers :
  snd (handleWebhook {[ "X-Gitlab-Token" := "s3cret"; "X-Gitlab-Event" := "Merge Request Hook" ]}
         (Object []) (Some "s3cret"))
  = inr (MergeRequestEvent (Str "unknown") Undefined Undefined).
Proof. vm_compute. reflexivity. Qed.

Lemma truthy_Some (s : string) : s <> "" -> truthy (Some s) = true.
Proof.
  intros H. unfold truthy. destruct (String.eqb s "") eqn:E; [|reflexivity].
  now apply String.eqb_eq in E.
Qed.

Lemma tokenOk_unfold (headers : Headers) (secret : string) :
  tokenOk headers secret
  = ([HashSha256 (default "" (tokenHeader headers)); HashSha256 secret;
      TimingSafeEqual (sha256 (default "" (tokenHeader headers))) (sha256 secret)],
     bool_decide (sha256 (default "" (tokenHeader headers)) = sha256 secret)).
Proof. reflexivity. Qed.

Lemma handleWebhook_secret (headers : Headers) (payload : value) (secret : string) :
  secret <> "" ->
  handleWebhook headers payload (Some secret)
  = (fst (tokenOk headers secret),
     if snd (tokenOk headers secret) then normalize headers payload
     else inl invalidToken).
Proof.
  intros H. unfold handleWebhook. rewrite (truthy_Some _ H), tokenOk_unfold.
  cbn [bind fst snd]. destruct (bool_decide _); cbn; now rewrite ?app_nil_r.
Qed.

Lemma handleWebhook_no_secret (headers : Headers) (payload : value) (secret : option string) :
  truthy secret = false ->
  handleWebhook headers payload secret = ([], normalize headers payload).
Proof.
  intros H. unfold handleWebhook. destruct secret as [s|]; [rewrite H|]; reflexivity.
Qed.




(** *** Digests cannot tell all strings apart *)

Lemma bufferNum_bound (d : list Byte.byte) :
  (Counting.bufferNum d < 256 ^ N.of_nat (length d))%N.
Proof.
  induction d as [|b d IH]; cbn [Counting.bufferNum length]; [reflexivity |].
  pose proof (Strings.Byte.to_N_bounded b) as Hb.
  rewrite Nat2N.inj_succ, N.pow_succ_r'. nia.
Qed.

Lemma bufferNum_inj (d1 d2 : list Byte.byte) :
  length d1 = length d2 ->
  Counting.bufferNum d1 = Counting.bufferNum d2 -> d1 = d2.
Proof.
  revert d2. induction d1 as [|b1 d1 IH]; intros [|b2 d2] Hl Hn;
    try discriminate; [reflexivity |].
  cbn [Counting.bufferNum length] in *. injection Hl as Hl. rewrite Hl in Hn.
  pose proof (bufferNum_bound d1) as B1. pose proof (bufferNum_bound d2) as B2.
  rewrite Hl in B1.
  assert (Byte.to_N b1 = Byte.to_N b2 /\ Counting.bufferNum d1 = Counting.bufferNum d2)
    as [Hb Hr].
  { apply (N.div_mod_unique (256 ^ N.of_nat (length d2))); [assumption.. |].
    now rewrite !(N.mul_comm (256 ^ _)). }
  f_equal; [| now apply IH].
  apply (f_equal Byte.of_N) in Hb. rewrite !Strings.Byte.of_to_N in Hb.
  now injection Hb.
Qed.

Lemma probe_inj (i j : nat) : Counting.probe i = Counting.probe j -> i = j.
Proof.
  unfold Counting.probe. intros H. injection H as H. revert j H.
  induction i as [|i IH]; intros [|j] H; try discriminate; [reflexivity |].
  injection H as H. f_equal. now apply IH.
Qed.

(** No map from [0..M] into [0..M-1] is one-to-one. *)
Lemma pigeonhole (M : nat) (g : nat -> nat) :
  (forall i, i <= M -> g i < M) ->
  ~ (forall i j, i <= M -> j <= M -> g i = g j -> i = j).
Proof.
  intros Hb Hinj.
  assert (NoDup (g <$> seq 0 (S M))) as Hnd.
  { apply NoDup_fmap_2_strong; [| apply NoDup_seq].
    intros x y Hx%elem_of_seq Hy%elem_of_seq. apply Hinj; lia. }
  assert (incl (g <$> seq 0 (S M)) (seq 0 M)) as Hincl.
  { intros y Hy. apply list_elem_of_In, list_elem_of_fmap in Hy as (x & -> & Hx%elem_of_seq).
    apply in_seq. specialize (Hb x). lia. }
  apply NoDup_ListNoDup in Hnd.
  pose proof (NoDup_incl_length Hnd Hincl) as Hlen.
  rewrite length_fmap, !length_seq in Hlen. lia.
Qed.

(** Among the probes there are two different strings with one digest: no
    such pair is known, but that every pair of strings has different digests
    cannot be proved.  Where a property of the later handler needs a header
    and a secret to have different digests, it says so. *)
Lemma sha256_not_injective :
  ~ (forall i j : nat,
       sha256 (Counting.probe i) = sha256 (Counting.probe j) -> i = j).
Proof.
  intros Hinj.
  apply (pigeonhole (N.to_nat (256 ^ 32))
           (fun i => N.to_nat (Counting.bufferNum (sha256 (Counting.probe i))))).
  - intros i _. pose proof (bufferNum_bound (sha256 (Counting.probe i))) as B.
    rewrite Sha256Facts.sha256_length in B. change (N.of_nat 32) with 32%N in B. lia.
  - intros i j _ _ H. apply Hinj, bufferNum_inj.
    + now rewrite !Sha256Facts.sha256_length.
    + lia.
Qed.

(** *** The signature check *)


(** X1. Constant-shape validation in webhookHandler.ts.  With a secret
    configured, [handleWebhook] makes the same crypto calls whether or not
    the token header is present and whatever its value: the SHA-256 digest of
    the header value (of the empty string when the header is missing), the
    digest of the secret, and one constant-time comparison of the two 32-byte
    digests.  A request without the header runs exactly like one whose header
    is the empty string. *)
Theorem handleWebhook_same_operations
    (headers headers' : Headers) (payload payload' : value) (secret : string) :
  secret <> "" ->
  fst (handleWebhook headers payload (Some secret))
    = [HashSha256 (default "" (tokenHeader headers)); HashSha256 secret;
       TimingSafeEqual (sha256 (default "" (tokenHeader headers))) (sha256 secret)]
  /\ shapeOf <$> fst (handleWebhook headers payload (Some secret))
      = [ShapeHash; ShapeHash; ShapeCompare 32 32]
  /\ shapeOf <$> fst (handleWebhook headers payload (Some secret))
      = shapeOf <$> fst (handleWebhook headers' payload' (Some secret))
  /\ (tokenHeader headers = None ->
      handleWebhook headers payload (Some secret)
      = handleWebhook (<["x-gitlab-token" := ""]> headers) payload (Some secret)).
Proof.
  intros Hs.
  assert (forall h p, shapeOf <$> fst (handleWebhook h p (Some secret))
                      = [ShapeHash; ShapeHash; ShapeCompare 32 32]) as Hshape.
  { intros h p. rewrite (handleWebhook_secret _ _ _ Hs), tokenOk_unfold.
    cbn [fst fmap list_fmap shapeOf]. now rewrite !Sha256Facts.sha256_length. }
  split; [| split; [| split]].
  - now rewrite (handleWebhook_secret _ _ _ Hs), tokenOk_unfold.
  - apply Hshape.
  - now rewrite !Hshape.
  - intros Hnone.
    assert (tokenHeader (<["x-gitlab-token" := ""]> headers) = Some "") as Hins.
    { unfold tokenHeader. now rewrite lookup_insert_eq. }
    assert (normalize (<["x-gitlab-token" := ""]> headers) payload
            = normalize headers payload) as Hnorm.
    { unfold normalize, eventHeader. now rewrite !lookup_insert_ne by discriminate. }
    rewrite !(handleWebhook_secret _ _ _ Hs), !tokenOk_unfold, Hins, Hnone, Hnorm.
    reflexivity.
Qed.

Lemma handleWebhook_same_operations_witness :
  shapeOf <$> fst (handleWebhook ∅ Null (Some "s3cret"))
  = shapeOf <$> fst (handleWebhook {[ "x-gitlab-token" := "a much longer guess" ]}
                       (Object []) (Some "s3cret")).
Proof.
  apply (handleWebhook_same_operations ∅ {[ "x-gitlab-token" := "a much longer guess" ]}
           Null (Object []) "s3cret").
  discriminate.
Defined.

(** C1.  The earlier handler does not validate like that: for a request
    without the token header and with a secret configured it computes no
    digest and calls no constant-time comparison; it throws on comparing the
    missing header, not the empty string, with the secret itself.  The later
    handler, on the same request, hashes the empty string and the secret and
    compares the two 32-byte digests. *)
Lemma legacy_handleWebhook_compares_raw :
  Legacy.handleWebhook ∅ Null (Some "s3cret") = ([], inl invalidToken)
  /\ tokenHeader ∅ = None
  /\ Legacy.handleWebhook {[ "x-gitlab-token" := "" ]} Null (Some "s3cret")
     = ([], inl invalidToken)
  /\ fst (handleWebhook ∅ Null (Some "s3cret"))
     = [HashSha256 ""; HashSha256 "s3cret";
        TimingSafeEqual (sha256 "") (sha256 "s3cret")].
Proof. repeat split; vm_compute; reflexivity. Qed.






(** Both handlers give the same answer unless the digests of a header and
    of a different secret coincide. *)
Lemma legacy_handleWebhook_agrees
    (headers : Headers) (payload : value) (secret : option string) :
  (tokenHeader headers <> secret ->
   sha256 (default "" (tokenHeader headers)) <> sha256 (default "" secret)) ->
  snd (handleWebhook headers payload secret)
  = snd (Legacy.handleWebhook headers payload secret).
Proof.
  intros Hsep. unfold Legacy.handleWebhook. destruct (truthy secret) eqn:T.
  - destruct secret as [s|]; [|discriminate].
    assert (s <> "") as Hs by (intros ->; discriminate).
    rewrite (handleWebhook_secret _ _ _ Hs), tokenOk_unfold. cbn [fst snd andb].
    case_bool_decide as E; case_bool_decide as E'; cbn [negb ret snd]; try reflexivity.
    + now apply Hsep in E'.
    + rewrite E' in E. now cbn in E.
  - now rewrite (handleWebhook_no_secret _ _ _ T).
Qed.

(** *** The normalised event *)

Lemma getProp_defined (v : value) (name : string) :
  isNullish v = false -> getProp v name = inr (getPropOpt v name).
Proof. destruct v; intros H; try discriminate; reflexivity. Qed.

Lemma normalize_defined (headers : Headers) (payload : value) :
  isNullish payload = false
  \/ (eventHeader headers <> "Issue Hook"
      /\ eventHeader headers <> "Merge Request Hook") ->
  normalize headers payload = inr (eventOf headers payload).
Proof.
  unfold normalize, eventOf. intros [Hp | [Hi Hm]].
  - rewrite !(getProp_defined _ _ Hp).
    now repeat destruct (String.eqb _ _).
  - apply String.eqb_neq in Hi, Hm. now rewrite Hi, Hm.
Qed.

Lemma not_rejected_result (headers : Headers) (payload : value) (secret : option string) :
  ~ rejected (handleWebhook headers payload secret) ->
  snd (handleWebhook headers payload secret) = normalize headers payload.
Proof.
  intros Hok. destruct (truthy secret) eqn:T.
  - destruct secret as [s|]; [|discriminate].
    assert (s <> "") as Hs by (intros ->; discriminate).
    unfold rejected in Hok. revert Hok.
    rewrite (handleWebhook_secret _ _ _ Hs). cbn [snd].
    destruct (snd (tokenOk headers s)); [reflexivity | intros F; now destruct F].
  - now rewrite (handleWebhook_no_secret _ _ _ T).
Qed.

(** The earlier handler normalises in the same way. *)
Lemma legacy_handleWebhook_event_shapes
    (headers : Headers) (payload : value) (secret : option string) :
  ~ rejected (Legacy.handleWebhook headers payload secret) ->
  isNullish payload = false
  \/ (eventHeader headers <> "Issue Hook"
      /\ eventHeader headers <> "Merge Request Hook") ->
  snd (Legacy.handleWebhook headers payload secret) = inr (eventOf headers payload).
Proof.
  unfold rejected, Legacy.handleWebhook. intros Hok Hp.
  destruct (truthy secret && negb (bool_decide (tokenHeader headers = secret)));
    cbn [ret snd] in *; [now destruct Hok | now apply normalize_defined].
Qed.

(** C5, as claimed, fails: a request without a secret passes the signature
    check, but with the payload [null] and the Issue Hook header reading
    [payload.object_attributes] throws a TypeError and no event is returned. *)
Lemma handleWebhook_null_payload_throws :
  ~ rejected (handleWebhook {[ "x-gitlab-event" := "Issue Hook" ]} Null None)
  /\ forall ev : GitLabWebhookEvent,
       snd (handleWebhook {[ "x-gitlab-event" := "Issue Hook" ]} Null None) <> inr ev.
Proof. split; [intros F | intros ev F]; vm_compute in F; discriminate. Qed.

(** C5, amended. For every request that passes the signature check and
    whose payload is neither [null] nor [undefined], [handleWebhook] returns
    an event of exactly one of three shapes: an issue event when the event
    header is "Issue Hook", a merge-request event when it is "Merge Request
    Hook" (both with the action read from [payload.object_attributes.action]
    and "unknown" when that is missing), and otherwise, also for a missing
    header and then for any payload, an unknown event carrying the payload.
    The earlier handler returns the same event for the requests it lets
    pass. *)
Theorem handleWebhook_event_shapes
    (headers : Headers) (payload : value) (secret : option string) :
  ~ rejected (handleWebhook headers payload secret) ->
  isNullish payload = false
  \/ (eventHeader headers <> "Issue Hook"
      /\ eventHeader headers <> "Merge Request Hook") ->
  let attrs := getPropOpt payload "object_attributes" in
  let project := getPropOpt payload "project" in
  let action := coalesce (getPropOpt attrs "action") (Str "unknown") in
  snd (handleWebhook headers payload secret)
  = inr (if String.eqb (eventHeader headers) "Issue Hook" then
           IssueEvent action attrs project
         else if String.eqb (eventHeader headers) "Merge Request Hook" then
           MergeRequestEvent action attrs project
         else UnknownEvent payload)
  /\ (isNullish (getPropOpt attrs "action") = true -> action = Str "unknown")
  /\ (isNullish (getPropOpt attrs "action") = false ->
      action = getPropOpt attrs "action")
  /\ (~ rejected (Legacy.handleWebhook headers payload secret) ->
      snd (Legacy.handleWebhook headers payload secret)
      = snd (handleWebhook headers payload secret)).
Proof.
  intros Hok Hp attrs project action. split; [| split; [| split]].
  - rewrite (not_rejected_result _ _ _ Hok). now apply normalize_defined.
  - intros H. subst action. unfold coalesce. now rewrite H.
  - intros H. subst action. unfold coalesce. now rewrite H.
  - intros Hl. rewrite (legacy_handleWebhook_event_shapes _ _ _ Hl Hp).
    rewrite (not_rejected_result _ _ _ Hok). symmetry. now apply normalize_defined.
Qed.

Lemma handleWebhook_event_shapes_witness :
  snd (handleWebhook {[ "x-gitlab-token" := "s3cret"; "x-gitlab-event" := "Issue Hook" ]}
         (Object [("object_attributes", Object [("iid", Number 4)])])
         (Some "s3cret"))
  = inr (IssueEvent (Str "unknown") (Object [("iid", Number 4)]) Undefined).
Proof.
  refine (proj1 (handleWebhook_event_shapes
                   {[ "x-gitlab-token" := "s3cret"; "x-gitlab-event" := "Issue Hook" ]}
                   (Object [("object_attributes", Object [("iid", Number 4)])])
                   (Some "s3cret") _ _)).
  - intros F. vm_compute in F. discriminate.
  - left. reflexivity.
Defined.

End WebhookHandlerFacts.

Module GitLabClientFacts.
Import Js GitLabClient.
Local Open Scope Z_scope.

Example request_flaky :
  request defaultClient flakyServer "/projects/1/issues/2" idle
  = (Some (inr (Object [])),
     {| pending := []; nextTimer := 3;
        armed := [(0%nat, 15000); (1%nat, 15000); (2%nat, 15000)];
        fetches := 3; aborted := 1; sleeps := [150; 250] |}).
Proof. vm_compute. reflexivity. Qed.

Example legacy_request_flaky :
  Legacy.request defaultClient flakyServer "/projects/1/issues/2" idle
  = (Some (inr (Object [])),
     {| pending := [2; 0]%nat; nextTimer := 3;
        armed := [(0%nat, 15000); (1%nat, 15000); (2%nat, 15000)];
        fetches := 3; aborted := 1; sleeps := [150; 250] |}).
Proof. vm_compute. reflexivity. Qed.

Example request_not_found :
  request defaultClient notFoundServer "projects/1/issues/2" idle
  = (Some (inl (Error "GitLab API 404 Not Found: {}")),
     {| pending := []; nextTimer := 1; armed := [(0%nat, 15000)];
        fetches := 1; aborted := 0; sleeps := [] |}).
Proof. vm_compute. reflexivity. Qed.

Lemma filter_fresh (id : nat) (l : list nat) :
  Forall (fun t => (t < id)%nat) l -> filter (fun t => t <> id) l = l.
Proof.
  induction 1 as [|t l Ht _ IH]; [reflexivity |].
  rewrite filter_cons_True by lia. now rewrite IH.
Qed.

Lemma drop_armed (id : nat) (l : list nat) :
  Forall (fun t => (t < id)%nat) l -> filter (fun t => t <> id) (id :: l) = l.
Proof. intros H. rewrite filter_cons_False by tauto. now apply filter_fresh. Qed.

(** *** One turn of the loop *)

Ltac unfold_turn :=
  unfold turn, tryCatchFinally, tryBody, catchBody, lateFire, timerFired, bind, ret,
    armTimer, cancelTimer, fireTimer, startFetch, abortFetch, sleep, dropTimer,
    hasCode;
  cbn [fst snd pending nextTimer armed fetches aborted sleeps].

Ltac split_cases :=
  repeat match goal with
    | |- context [if ?b then _ else _] => destruct b eqn:?
    | |- context [match jsonParse ?e ?t with _ => _ end] => destruct (jsonParse e t)
    end;
  cbn [fst snd pending nextTimer armed fetches aborted sleeps].

(** The errors the client makes itself are not the ones [catch] retries. *)
Ltac impossible_catch :=
  match goal with
  | H : (_ || _ || _ || _) && _ = true |- _ => cbn in H; discriminate H
  end.

Lemma turn_effects (c : client) (env : environment) (n : nat) (rt : runtime) :
  fresh rt ->
  snd (turn c env n rt)
  = afterTurn c (timerFires env n) rt
      (match fst (turn c env n rt) with
       | Continue => [backoff n + jitter env n]
       | _ => []
       end).
Proof.
  intros Hf. unfold fresh in Hf. unfold afterTurn, timerFires. unfold_turn.
  destruct (outcome env n) as [status statusText text | err | abortFirst];
    cbn [fst snd pending nextTimer armed fetches aborted sleeps];
    split_cases;
    rewrite ?app_nil_r, ?(drop_armed _ _ Hf), ?(filter_fresh _ _ Hf);
    reflexivity.
Qed.

Lemma turn_fresh (c : client) (env : environment) (n : nat) (rt : runtime) :
  fresh rt -> fresh (snd (turn c env n rt)).
Proof.
  intros Hf. rewrite (turn_effects _ _ _ _ Hf). unfold fresh, afterTurn in *.
  cbn [pending nextTimer]. eapply Forall_impl; [exact Hf |]. cbn. lia.
Qed.

(** After a response the result of a turn is [respond]. *)
Lemma turn_responded (c : client) (env : environment) (n : nat) (rt : runtime)
    (status : Z) (statusText : string) (text : option string) :
  outcome env n = Responded status statusText text ->
  fst (turn c env n rt) = respond c env n status statusText text.
Proof.
  intros Ho. unfold respond. unfold_turn. rewrite Ho.
  destruct (firesLate env n);
    cbn [fst snd pending nextTimer armed fetches aborted sleeps];
    split_cases; try reflexivity; impossible_catch.
Qed.

(** A turn asks for another one only below [maxRetries], and after a
    response only when its status is 429 or at least 500. *)
Lemma turn_continue (c : client) (env : environment) (n : nat) (rt : runtime) :
  fst (turn c env n rt) = Continue ->
  Z.of_nat n < maxRetries c
  /\ match outcome env n with
     | Responded status _ _ => status = 429 \/ 500 <= status
     | FetchFailed err =>
         errName err = "AbortError" \/ errName err = "TimeoutError"
         \/ errCode err = Some "ECONNRESET" \/ errCode err = Some "ENOTFOUND"
     | TimedOut _ => True
     end.
Proof.
  destruct (outcome env n) as [status statusText text | err | abortFirst] eqn:Ho.
  - rewrite (turn_responded _ _ _ _ _ _ _ Ho). unfold respond, retryableStatus.
    destruct ((200 <=? status) && (status <? 300)).
    { destruct (String.eqb _ _); [discriminate |].
      destruct (jsonParse _ _); discriminate. }
    destruct (((status =? 429) || (500 <=? status)) && (Z.of_nat n <? maxRetries c)) eqn:E;
      [| discriminate].
    intros _. apply andb_true_iff in E as [Es En]. apply orb_true_iff in Es. lia.
  - unfold_turn. rewrite Ho.
    destruct (firesLate env n);
      cbn [fst snd pending nextTimer armed fetches aborted sleeps];
      (destruct ((_ || _ || _ || _) && _) eqn:E; cbn [fst snd]; [| discriminate]);
      intros _; apply andb_true_iff in E as [Ee En];
      (split; [lia |]);
      repeat (apply orb_true_iff in Ee as [Ee | Ee]);
      try (apply String.eqb_eq in Ee; tauto);
      (destruct (errCode err); [| discriminate]);
      apply String.eqb_eq in Ee; subst; tauto.
  - unfold_turn. rewrite Ho.
    cbn [fst snd pending nextTimer armed fetches aborted sleeps].
    destruct ((_ || _ || _ || _) && _) eqn:E; cbn [fst snd]; [| discriminate].
    intros _. apply andb_true_iff in E as [_ En]. split; [lia | exact I].
Qed.

(** A 429 or 5xx response: retried below [maxRetries], thrown otherwise. *)
Lemma respond_server_error (c : client) (env : environment) (n : nat)
    (status : Z) (statusText : string) (text : option string) :
  status = 429 \/ 500 <= status ->
  respond c env n status statusText text
  = if Z.of_nat n <? maxRetries c then Continue
    else Throw (apiError status statusText (default "" text)).
Proof.
  intros Hs. unfold respond, retryableStatus.
  assert ((200 <=? status) && (status <? 300) = false) as -> by lia.
  assert ((status =? 429) || (500 <=? status) = true) as -> by lia.
  reflexivity.
Qed.


(** A 2xx response: the parsed body. *)
Lemma respond_success (c : client) (env : environment) (n : nat)
    (status : Z) (statusText : string) (text : option string) :
  200 <= status < 300 ->
  respond c env n status statusText text
  = if String.eqb (default "" text) "" then Return Undefined
    else match jsonParse env (default "" text) with
         | Some v => Return v
         | None => Throw (SyntaxError "Unexpected token in JSON")
         end.
Proof.
  intros Hs. unfold respond.
  assert ((200 <=? status) && (status <? 300) = true) as -> by lia.
  reflexivity.
Qed.

(** *** The loop *)

Lemma retryLoop_S (c : client) (env : environment) (fuel n : nat) (rt : runtime) :
  retryLoop (S fuel) c env n rt
  = match fst (turn c env n rt) with
    | Return v => (Some (inr v), snd (turn c env n rt))
    | Throw e => (Some (inl e), snd (turn c env n rt))
    | Continue => retryLoop fuel c env (S n) (snd (turn c env n rt))
    end.
Proof.
  cbn [retryLoop]. unfold bind at 1.
  now destruct (turn c env n rt) as [[v | | e] rt1].
Qed.

Lemma afterRetries_0 (c : client) (env : environment) (n : nat) (rt : runtime) :
  afterRetries c env n 0 rt = rt.
Proof.
  destruct rt. unfold afterRetries, lateCount. cbn.
  now rewrite !app_nil_r, !Nat.add_0_r.
Qed.

Lemma lateCount_S (env : environment) (n k : nat) :
  lateCount env n (S k)
  = ((if firesLate env n then 1 else 0) + lateCount env (S n) k)%nat.
Proof.
  unfold lateCount. cbn [seq]. rewrite filter_cons.
  destruct (firesLate env n); [rewrite decide_True by reflexivity
                              | rewrite decide_False by discriminate];
    reflexivity.
Qed.

Lemma afterRetries_S (c : client) (env : environment) (n k : nat) (rt : runtime) :
  afterRetries c env (S n) k
    (afterTurn c (firesLate env n) rt [backoff n + jitter env n])
  = afterRetries c env n (S k) rt.
Proof.
  unfold afterRetries, afterTurn. cbn [pending nextTimer armed fetches aborted sleeps].
  rewrite lateCount_S. f_equal; try lia.
  - rewrite <- app_assoc. f_equal. cbn [seq fmap list_fmap app].
    rewrite Nat.add_0_r. f_equal. rewrite <- (fmap_S_seq 0), <- list_fmap_compose.
    apply list_fmap_ext. intros _ i _. cbn. f_equal. lia.
  - destruct (firesLate env n); lia.
  - now rewrite <- app_assoc.
Qed.

Lemma afterRetries_fresh (c : client) (env : environment) (n k : nat) (rt : runtime) :
  fresh rt -> fresh (afterRetries c env n k rt).
Proof.
  unfold fresh, afterRetries. cbn [pending nextTimer]. intros Hf.
  eapply Forall_impl; [exact Hf |]. cbn. lia.
Qed.

(** [k] server errors in a row, all below [maxRetries], cost [k] turns. *)
Lemma retryLoop_retries (c : client) (env : environment) (k : nat) :
  forall (n fuel : nat) (rt : runtime),
    fresh rt ->
    (forall i, (n <= i < n + k)%nat ->
               exists status statusText text,
                 outcome env i = Responded status statusText text
                 /\ (status = 429 \/ 500 <= status)) ->
    Z.of_nat (n + k) <= maxRetries c ->
    retryLoop (k + fuel) c env n rt
    = retryLoop fuel c env (n + k) (afterRetries c env n k rt).
Proof.
  induction k as [|k IH]; intros n fuel rt Hf Hout Hmax.
  - now rewrite afterRetries_0, Nat.add_0_r.
  - destruct (Hout n ltac:(lia)) as (status & statusText & text & Ho & Hs).
    cbn [Nat.add]. rewrite retryLoop_S.
    pose proof (turn_effects c env n rt Hf) as He.
    pose proof (turn_responded c env n rt _ _ _ Ho) as Hr.
    rewrite (respond_server_error _ _ _ _ _ _ Hs) in Hr.
    assert ((Z.of_nat n <? maxRetries c) = true) as Hlt by lia.
    rewrite Hlt in Hr. rewrite Hr in He. unfold timerFires in He. rewrite Ho in He.
    rewrite Hr, He, IH.
    + rewrite afterRetries_S. f_equal. lia.
    + unfold fresh, afterTurn in *. cbn [pending nextTimer].
      eapply Forall_impl; [exact Hf |]. cbn. lia.
    + intros i Hi. apply Hout. lia.
    + lia.
Qed.

(** The loop ends within [turnsNeeded] turns. *)
Lemma retryLoop_total (c : client) (env : environment) (fuel : nat) :
  forall (n : nat) (rt : runtime),
    Z.of_nat n <= Z.max 1 (maxRetries c) ->
    Z.max 1 (maxRetries c) < Z.of_nat n + Z.of_nat fuel ->
    fst (retryLoop fuel c env n rt) <> None.
Proof.
  induction fuel as [|fuel IH]; intros n rt Hn Hfuel; [lia |].
  rewrite retryLoop_S.
  pose proof (turn_continue c env n rt) as Hc.
  destruct (fst (turn c env n rt)) as [v | | e]; cbn [fst]; try discriminate.
  destruct (Hc eq_refl) as [Hlt _]. apply IH; lia.
Qed.

(** Whatever the turns do, what is left of them is one cancelled or fired
    timer of [timeoutMs] per fetch. *)
Lemma retryLoop_effects (c : client) (env : environment) (fuel : nat) :
  forall (n : nat) (rt : runtime),
    fresh rt ->
    pending (snd (retryLoop fuel c env n rt)) = pending rt
    /\ exists k : nat,
         fetches (snd (retryLoop fuel c env n rt)) = (fetches rt + k)%nat
         /\ armed (snd (retryLoop fuel c env n rt))
            = (armed rt ++ ((fun i => ((nextTimer rt + i)%nat, timeoutMs c)) <$> seq 0 k))%list.
Proof.
  induction fuel as [|fuel IH]; intros n rt Hf.
  - cbn. split; [reflexivity |]. exists 0%nat. cbn. now rewrite app_nil_r, Nat.add_0_r.
  - rewrite retryLoop_S.
    pose proof (turn_effects c env n rt Hf) as He.
    pose proof (turn_fresh c env n rt Hf) as Hf1.
    destruct (turn c env n rt) as [r rt1]. cbn [fst snd] in *.
    assert (pending rt1 = pending rt /\ fetches rt1 = S (fetches rt)
            /\ nextTimer rt1 = S (nextTimer rt)
            /\ armed rt1 = (armed rt ++ [(nextTimer rt, timeoutMs c)])%list)
      as (Hp & Hfe & Hn & Ha) by (now rewrite He).
    destruct r as [v | | e]; cbn [fst snd].
    1, 3: split; [assumption |]; exists 1%nat; cbn [seq fmap list_fmap];
      rewrite Nat.add_0_r; split; [lia | assumption].
    destruct (IH (S n) rt1 Hf1) as (Hp' & k & Hfe' & Ha').
    split; [congruence |]. exists (S k). split; [lia |].
    rewrite Ha', Ha, Hn, <- app_assoc. f_equal. cbn [seq fmap list_fmap app].
    rewrite Nat.add_0_r. f_equal. rewrite <- (fmap_S_seq 0), <- list_fmap_compose.
    apply list_fmap_ext. intros _ i _. cbn. f_equal. lia.
Qed.

(** X2. The later client cancels.  Every attempt of a request arms one timer of
    [timeoutMs] (15000 ms unless configured) next to its fetch, and when the
    request completes, with a result or an error and on whatever outcome of
    its attempts, no timer it armed is still pending. *)
Theorem request_leaves_no_timer
    (opts : GitLabClientOptions) (env : environment) (path : string) (rt : runtime) :
  fresh rt ->
  timeoutMs (newClient opts) = default 15000 (optTimeoutMs opts)
  /\ fst (request (newClient opts) env path rt) <> None
  /\ pending (snd (request (newClient opts) env path rt)) = pending rt
  /\ exists attempts : nat,
       fetches (snd (request (newClient opts) env path rt))
       = (fetches rt + attempts)%nat
       /\ armed (snd (request (newClient opts) env path rt))
          = (armed rt ++ ((fun i => ((nextTimer rt + i)%nat, timeoutMs (newClient opts)))
                           <$> seq 0 attempts))%list.
Proof.
  intros Hf. split; [reflexivity |]. unfold request.
  destruct (newURL env _ _).
  - split; [| now apply retryLoop_effects].
    apply retryLoop_total; unfold turnsNeeded; lia.
  - cbn. split; [discriminate | split; [reflexivity |]].
    exists 0%nat. cbn. now rewrite app_nil_r, Nat.add_0_r.
Qed.

Lemma request_leaves_no_timer_witness :
  pending (snd (request defaultClient flakyServer "/projects/1/issues/2" idle)) = [].
Proof.
  apply (request_leaves_no_timer defaultOptions flakyServer "/projects/1/issues/2" idle).
  constructor.
Defined.

(** *** Retries *)

Lemma jitter_range (env : environment) (n : nat) : 0 <= jitter env n <= 99.
Proof.
  unfold jitter.
  pose proof (Z.mod_pos_bound (random env n) (2 ^ 53) ltac:(lia)) as Hr.
  split.
  - apply Z.div_pos; lia.
  - apply Z.lt_succ_r. apply Z.div_lt_upper_bound; lia.
Qed.

Lemma request_loop (c : client) (env : environment) (path : string) (rt : runtime) :
  newURL env (baseUrl c) (normalizedPath path) <> None ->
  request c env path rt = retryLoop (turnsNeeded c) c env 1 rt.
Proof. unfold request. now destruct (newURL env _ _). Qed.

(** The request when all attempts up to the last allowed one are answered,
    the earlier ones with 429 or 5xx. *)
Lemma request_answered
    (c : client) (env : environment) (path : string) (rt : runtime)
    (status : Z) (statusText : string) (text : option string) :
  fresh rt ->
  1 <= maxRetries c ->
  newURL env (baseUrl c) (normalizedPath path) <> None ->
  (forall i : nat,
      (1 <= i)%nat -> Z.of_nat i < maxRetries c ->
      exists status statusText text,
        outcome env i = Responded status statusText text
        /\ (status = 429 \/ 500 <= status <= 599)) ->
  outcome env (Z.to_nat (maxRetries c)) = Responded status statusText text ->
  respond c env (Z.to_nat (maxRetries c)) status statusText text <> Continue ->
  request c env path rt
  = (match respond c env (Z.to_nat (maxRetries c)) status statusText text with
     | Return v => Some (inr v)
     | Throw e => Some (inl e)
     | Continue => None
     end,
     afterTurn c (firesLate env (Z.to_nat (maxRetries c)))
       (afterRetries c env 1 (Z.to_nat (maxRetries c) - 1) rt) []).
Proof.
  intros Hf Hmax Hurl Herr Ho Hnc. set (last := Z.to_nat (maxRetries c)) in *.
  assert (turnsNeeded c = (last - 1 + 1)%nat) as Hfuel by (unfold turnsNeeded; lia).
  rewrite (request_loop _ _ _ _ Hurl), Hfuel, retryLoop_retries.
  - replace (1 + (last - 1))%nat with last by lia.
    pose proof (afterRetries_fresh c env 1 (last - 1) rt Hf) as Hf'.
    rewrite retryLoop_S, (turn_effects _ _ _ _ Hf'), (turn_responded _ _ _ _ _ _ _ Ho).
    unfold timerFires. rewrite Ho.
    destruct (respond c env last status statusText text); [reflexivity | | reflexivity].
    now destruct Hnc.
  - assumption.
  - intros i Hi. destruct (Herr i) as (s & st & t & Hoi & Hs); [lia.. |].
    exists s, st, t. split; [assumption | lia].
  - lia.
Qed.



(** *** The earlier client *)

(** C4.  The request of client.ts arms its timer of [timeoutMs] and never
    cancels it: after a request that the server answers with 200 at the first
    attempt, the timer of that attempt is still pending when the request has
    returned.  The request of the later client, in the same situation, leaves
    none. *)
Lemma legacy_request_timer_left_pending :
  Legacy.request defaultClient healthyServer "/projects/1/issues/2" idle
  = (Some (inr (Object [])),
     {| pending := [0%nat]; nextTimer := 1; armed := [(0%nat, 15000)];
        fetches := 1; aborted := 0; sleeps := [] |})
  /\ request defaultClient healthyServer "/projects/1/issues/2" idle
     = (Some (inr (Object [])),
        {| pending := []; nextTimer := 1; armed := [(0%nat, 15000)];
           fetches := 1; aborted := 0; sleeps := [] |}).
Proof. split; vm_compute; reflexivity. Qed.

(** It never cancels: after a request that succeeds at once the timer of
    that attempt is still pending unless it has fired in the meantime. *)
Lemma legacy_request_leaves_timer
    (c : client) (env : environment) (path : string) (rt : runtime)
    (status : Z) (statusText : string) :
  newURL env (baseUrl c) path <> None ->
  outcome env 1 = Responded status statusText None ->
  firesLate env 1 = false ->
  200 <= status < 300 ->
  Legacy.request c env path rt
  = (Some (inr Undefined),
     {| pending := nextTimer rt :: pending rt;
        nextTimer := S (nextTimer rt);
        armed := (armed rt ++ [(nextTimer rt, timeoutMs c)])%list;
        fetches := S (fetches rt); aborted := aborted rt; sleeps := sleeps rt |}).
Proof.
  intros Hu Ho Hl Hs. unfold Legacy.request.
  destruct (newURL env _ _); [| contradiction].
  unfold turnsNeeded. destruct (Z.to_nat (Z.max 1 (maxRetries c))) as [|fuel] eqn:E; [lia |].
  cbn [Legacy.retryLoop].
  unfold Legacy.turn, tryCatch, Legacy.tryBody, lateFire, bind, ret, armTimer, startFetch.
  cbn [fst snd]. rewrite Ho, Hl.
  assert ((200 <=? status) && (status <? 300) = true) as -> by lia.
  reflexivity.
Qed.

(** After a response it decides like the later client. *)
Lemma legacy_turn_responded (c : client) (env : environment) (n : nat) (rt : runtime)
    (status : Z) (statusText : string) (text : option string) :
  outcome env n = Responded status statusText text ->
  fst (Legacy.turn c env n rt) = respond c env n status statusText text.
Proof.
  intros Ho. unfold respond.
  unfold Legacy.turn, tryCatch, Legacy.tryBody, Legacy.catchBody, lateFire, timerFired,
    bind, ret, armTimer, fireTimer, startFetch, abortFetch, sleep, dropTimer, hasCode.
  cbn [fst snd]. rewrite Ho.
  destruct (firesLate env n); cbn [fst snd]; split_cases; try reflexivity;
    match goal with
    | H : (_ || _ || _) && _ = true |- _ => cbn in H; discriminate H
    end.
Qed.

Lemma legacy_retryLoop_S (c : client) (env : environment) (fuel n : nat) (rt : runtime) :
  Legacy.retryLoop (S fuel) c env n rt
  = match fst (Legacy.turn c env n rt) with
    | Return v => (Some (inr v), snd (Legacy.turn c env n rt))
    | Throw e => (Some (inl e), snd (Legacy.turn c env n rt))
    | Continue => Legacy.retryLoop fuel c env (S n) (snd (Legacy.turn c env n rt))
    end.
Proof.
  cbn [Legacy.retryLoop]. unfold bind at 1.
  now destruct (Legacy.turn c env n rt) as [[v | | e] rt1].
Qed.

Lemma legacy_turn_counts (c : client) (env : environment) (n : nat) (rt : runtime) :
  fetches (snd (Legacy.turn c env n rt)) = S (fetches rt)
  /\ sleeps (snd (Legacy.turn c env n rt))
     = (sleeps rt ++ match fst (Legacy.turn c env n rt) with
                     | Continue => [backoff n + jitter env n]
                     | _ => []
                     end)%list.
Proof.
  unfold Legacy.turn, tryCatch, Legacy.tryBody, Legacy.catchBody, lateFire, timerFired,
    bind, ret, armTimer, fireTimer, startFetch, abortFetch, sleep, dropTimer, hasCode.
  cbn [fst snd pending nextTimer armed fetches aborted sleeps].
  destruct (outcome env n) as [status statusText text | err | abortFirst];
    cbn [fst snd pending nextTimer armed fetches aborted sleeps];
    split_cases; rewrite ?app_nil_r; split; reflexivity.
Qed.

(** While the server answers, both clients return the same, after as many
    fetches and the same backoff. *)
Lemma legacy_retryLoop_agrees (c : client) (env : environment) :
  (forall i, exists status statusText text,
        outcome env i = Responded status statusText text) ->
  forall (fuel n : nat) (rt rt' : runtime),
    fresh rt' -> fetches rt = fetches rt' -> sleeps rt = sleeps rt' ->
    fst (Legacy.retryLoop fuel c env n rt) = fst (retryLoop fuel c env n rt')
    /\ fetches (snd (Legacy.retryLoop fuel c env n rt))
       = fetches (snd (retryLoop fuel c env n rt'))
    /\ sleeps (snd (Legacy.retryLoop fuel c env n rt))
       = sleeps (snd (retryLoop fuel c env n rt')).
Proof.
  intros Hall. induction fuel as [|fuel IH]; intros n rt rt' Hf Hfe Hsl.
  - cbn. auto.
  - destruct (Hall n) as (status & statusText & text & Ho).
    rewrite legacy_retryLoop_S, retryLoop_S.
    pose proof (legacy_turn_counts c env n rt) as [Lf Ls].
    pose proof (turn_effects c env n rt' Hf) as Ne.
    pose proof (turn_fresh c env n rt' Hf) as Hf1.
    rewrite (legacy_turn_responded _ _ _ _ _ _ _ Ho) in *.
    rewrite (turn_responded _ _ _ _ _ _ _ Ho) in *.
    assert (fetches (snd (turn c env n rt')) = S (fetches rt')
            /\ sleeps (snd (turn c env n rt'))
               = (sleeps rt' ++ match respond c env n status statusText text with
                                | Continue => [backoff n + jitter env n]
                                | _ => []
                                end)%list) as [Nf Ns] by (now rewrite Ne).
    destruct (respond c env n status statusText text); cbn [fst snd];
      try (repeat split; congruence).
    apply IH; [assumption | congruence | congruence].
Qed.

(** The same while the attempts that the loops can reach are answered. *)
Lemma legacy_retryLoop_agrees_while (c : client) (env : environment) :
  forall (fuel n : nat) (rt rt' : runtime),
    (forall i, (n <= i < n + fuel)%nat ->
               exists status statusText text,
                 outcome env i = Responded status statusText text) ->
    fresh rt' -> fetches rt = fetches rt' -> sleeps rt = sleeps rt' ->
    fst (Legacy.retryLoop fuel c env n rt) = fst (retryLoop fuel c env n rt')
    /\ fetches (snd (Legacy.retryLoop fuel c env n rt))
       = fetches (snd (retryLoop fuel c env n rt'))
    /\ sleeps (snd (Legacy.retryLoop fuel c env n rt))
       = sleeps (snd (retryLoop fuel c env n rt')).
Proof.
  induction fuel as [|fuel IH]; intros n rt rt' Hall Hf Hfe Hsl.
  - cbn. auto.
  - destruct (Hall n ltac:(lia)) as (status & statusText & text & Ho).
    rewrite legacy_retryLoop_S, retryLoop_S.
    pose proof (legacy_turn_counts c env n rt) as [Lf Ls].
    pose proof (turn_effects c env n rt' Hf) as Ne.
    pose proof (turn_fresh c env n rt' Hf) as Hf1.
    rewrite (legacy_turn_responded _ _ _ _ _ _ _ Ho) in *.
    rewrite (turn_responded _ _ _ _ _ _ _ Ho) in *.
    assert (fetches (snd (turn c env n rt')) = S (fetches rt')
            /\ sleeps (snd (turn c env n rt'))
               = (sleeps rt' ++ match respond c env n status statusText text with
                                | Continue => [backoff n + jitter env n]
                                | _ => []
                                end)%list) as [Nf Ns] by (now rewrite Ne).
    destruct (respond c env n status statusText text); cbn [fst snd];
      try (repeat split; congruence).
    apply IH; [| assumption | congruence | congruence].
    intros i Hi. apply Hall. lia.
Qed.

Lemma substring_all (s : string) (n : nat) :
  (String.length s <= n)%nat -> String.substring 0 n s = s.
Proof.
  revert n. induction s as [|a s IH]; intros [|n] H; cbn in *;
    try reflexivity; try lia.
  f_equal. apply IH. lia.
Qed.

(** The error that [throw new Error(...)] builds (gitlabClient.ts line 151,
    client.ts line 89), field by field. *)
Lemma apiError_fields (status : Z) (statusText body : string) :
  errName (apiError status statusText body) = "Error"
  /\ errCode (apiError status statusText body) = None
  /\ exists tail,
       errMessage (apiError status statusText body)
       = "GitLab API " ++ pretty status ++ " " ++ statusText ++ ": " ++ tail
       /\ ((String.length body <= 1000)%nat -> tail = body).
Proof.
  split; [reflexivity | split; [reflexivity |]].
  exists (String.substring 0 1000 body). split; [reflexivity |].
  apply substring_all.
Qed.

(** C2, as claimed, fails: a client with the default three attempts whose
    server answers 503 to each of them throws, after the third, the plain
    [Error] that [new Error(...)] of gitlabClient.ts line 151 builds from the
    last response.
    Its name is Error, it carries no code, and nothing in the client makes a
    TransientExternalError of it. *)
Lemma request_throws_plain_error :
  request defaultClient busyServer "/projects/1" idle
  = (Some (inl (Err "Error" None "GitLab API 503 Service Unavailable: busy")),
     {| pending := []; nextTimer := 3;
        armed := [(0%nat, 15000); (1%nat, 15000); (2%nat, 15000)];
        fetches := 3; aborted := 0; sleeps := [100; 200] |}).
Proof. vm_compute. reflexivity. Qed.

(** C2, amended. Let [maxRetries >= 1] and let every attempt before the last
    allowed one be answered with 429 or 5xx.  If the last allowed attempt is
    answered with 2xx, the request returns the parsed body.  If it is
    answered with 429 or 5xx too, the request throws an error named Error,
    without a code, whose message is [GitLab API], the status and the status
    text of that last response, a colon and the body of the response (the
    whole body when its UTF-8 text has at most 1000 bytes).  Either way it
    made exactly [maxRetries] attempts and slept between them for
    [100 * 2^(attempt-1)] ms plus a jitter below 100 ms; and the loop of
    client.ts, run on the same answers, ends with the same result or error
    after as many fetches and the same pauses. *)
Theorem request_retry_bound
    (c : client) (env : environment) (path : string) (rt : runtime)
    (status : Z) (statusText : string) (text : option string) :
  fresh rt ->
  1 <= maxRetries c ->
  newURL env (baseUrl c) (normalizedPath path) <> None ->
  (forall i : nat,
      (1 <= i)%nat -> Z.of_nat i < maxRetries c ->
      exists status statusText text,
        outcome env i = Responded status statusText text
        /\ (status = 429 \/ 500 <= status <= 599)) ->
  outcome env (Z.to_nat (maxRetries c)) = Responded status statusText text ->
  200 <= status < 300 \/ status = 429 \/ 500 <= status <= 599 ->
  (200 <= status < 300 ->
   fst (request c env path rt)
   = Some (if String.eqb (default "" text) "" then inr Undefined
           else match jsonParse env (default "" text) with
                | Some v => inr v
                | None => inl (SyntaxError "Unexpected token in JSON")
                end))
  /\ (status = 429 \/ 500 <= status <= 599 ->
      exists (e : error) (tail : string),
        fst (request c env path rt) = Some (inl e)
        /\ errName e = "Error"
        /\ errCode e = None
        /\ errMessage e
           = "GitLab API " ++ pretty status ++ " " ++ statusText ++ ": " ++ tail
        /\ ((String.length (default "" text) <= 1000)%nat -> tail = default "" text))
  /\ fetches (snd (request c env path rt))
     = (fetches rt + Z.to_nat (maxRetries c))%nat
  /\ pending (snd (request c env path rt)) = pending rt
  /\ sleeps (snd (request c env path rt))
     = (sleeps rt ++ ((fun i => backoff i + jitter env i)
                        <$> seq 1 (Z.to_nat (maxRetries c) - 1)))%list
  /\ (forall i : nat,
        100 * 2 ^ (Z.of_nat i - 1) <= backoff i + jitter env i
        <= 100 * 2 ^ (Z.of_nat i - 1) + 99)
  /\ fst (Legacy.retryLoop (turnsNeeded c) c env 1 rt) = fst (request c env path rt)
  /\ fetches (snd (Legacy.retryLoop (turnsNeeded c) c env 1 rt))
     = fetches (snd (request c env path rt))
  /\ sleeps (snd (Legacy.retryLoop (turnsNeeded c) c env 1 rt))
     = sleeps (snd (request c env path rt)).
Proof.
  intros Hf Hmax Hurl Herr Ho Hs.
  assert ((Z.of_nat (Z.to_nat (maxRetries c)) <? maxRetries c) = false) as Hlast
    by (apply Z.ltb_ge; lia).
  assert (fst (Legacy.retryLoop (turnsNeeded c) c env 1 rt) = fst (request c env path rt)
          /\ fetches (snd (Legacy.retryLoop (turnsNeeded c) c env 1 rt))
             = fetches (snd (request c env path rt))
          /\ sleeps (snd (Legacy.retryLoop (turnsNeeded c) c env 1 rt))
             = sleeps (snd (request c env path rt))) as Hearlier.
  { rewrite (request_loop _ _ _ _ Hurl).
    apply legacy_retryLoop_agrees_while; [| assumption | reflexivity | reflexivity].
    intros i Hi. unfold turnsNeeded in Hi.
    destruct (decide (i = Z.to_nat (maxRetries c))) as [-> | Hne].
    - now exists status, statusText, text.
    - destruct (Herr i) as (s & st & t & Hoi & _); [lia.. |]. now exists s, st, t. }
  assert (respond c env (Z.to_nat (maxRetries c)) status statusText text <> Continue)
    as Hnc.
  { destruct Hs as [Hs | Hs].
    - rewrite (respond_success _ _ _ _ _ _ Hs).
      destruct (String.eqb _ _); [discriminate |]. now destruct (jsonParse _ _).
    - rewrite respond_server_error, Hlast by lia. discriminate. }
  rewrite (request_answered _ _ _ _ _ _ _ Hf Hmax Hurl Herr Ho Hnc) in Hearlier |- *.
  cbn [fst snd afterTurn afterRetries fetches pending sleeps].
  split; [| split; [| split; [| split; [| split; [| split]]]]].
  - intros H2. rewrite (respond_success _ _ _ _ _ _ H2).
    destruct (String.eqb _ _); [reflexivity |]. now destruct (jsonParse _ _).
  - intros H5.
    destruct (apiError_fields status statusText (default "" text))
      as (Hname & Hcode & tail & Hmsg & Htail).
    exists (apiError status statusText (default "" text)), tail.
    split; [now rewrite respond_server_error, Hlast by lia |].
    split; [exact Hname | split; [exact Hcode | split; [exact Hmsg | exact Htail]]].
  - lia.
  - reflexivity.
  - now rewrite app_nil_r.
  - intros i. pose proof (jitter_range env i). unfold backoff. lia.
  - exact Hearlier.
Qed.

Lemma request_retry_bound_witness :
  (exists e : error,
      fst (request defaultClient busyServer "/projects/1" idle) = Some (inl e)
      /\ errName e = "Error"
      /\ errMessage e = "GitLab API 503 Service Unavailable: busy")
  /\ fetches (snd (request defaultClient busyServer "/projects/1" idle)) = 3%nat
  /\ sleeps (snd (request defaultClient busyServer "/projects/1" idle)) = [100; 200].
Proof.
  pose proof (request_retry_bound defaultClient busyServer
                "/projects/1" idle 503 "Service Unavailable" (Some "busy")) as H.
  destruct H as (_ & Hthrow & Hfetches & _ & Hsleeps & _).
  - constructor.
  - cbn. lia.
  - discriminate.
  - intros i _ _. exists 503, "Service Unavailable", (Some "busy").
    split; [reflexivity | lia].
  - reflexivity.
  - right. right. lia.
  - destruct Hthrow as (e & tail & He & Hname & _ & Hmsg & Htail); [right; lia |].
    split; [| split; [exact Hfetches | exact Hsleeps]].
    exists e. split; [exact He | split; [exact Hname |]].
    rewrite Hmsg, Htail by (cbn; lia). reflexivity.
Defined.

End GitLabClientFacts.

Module PluginRegistryFacts.
Import PluginRegistry.

Lemma makeKey_inj (s1 s2 : PluginSlot) (n1 n2 : string) :
  makeKey s1 n1 = makeKey s2 n2 -> s1 = s2 /\ n1 = n2.
Proof.
  unfold makeKey. destruct s1, s2; cbn; intros H; try discriminate;
    (split; [reflexivity | congruence]).
Qed.

(** A key starts with the name of a slot and a colon exactly when it is a
    key of that slot. *)
Lemma prefix_makeKey (s s' : PluginSlot) (n : string) :
  String.prefix (slotName s ++ ":") (makeKey s' n) = bool_decide (s = s').
Proof.
  unfold makeKey. destruct s, s'; cbn; try reflexivity; now destruct n.
Qed.

Section RegistryFacts.
Context {Instance : Type}.
Implicit Types (plugins : PluginMap Instance) (plugin : PluginModule Instance)
  (e : entry Instance).

Lemma mapGet_mapSet_eq key e plugins : mapGet key (mapSet key e plugins) = Some e.
Proof.
  induction plugins as [|[k v] rest IH]; cbn.
  - now rewrite String.eqb_refl.
  - destruct (String.eqb k key) eqn:E; cbn; [now rewrite String.eqb_refl |].
    now rewrite E.
Qed.

Lemma mapGet_mapSet_ne key key' e plugins :
  key <> key' -> mapGet key' (mapSet key e plugins) = mapGet key' plugins.
Proof.
  intros Hne. induction plugins as [|[k v] rest IH]; cbn.
  - apply String.eqb_neq in Hne. now rewrite Hne.
  - destruct (String.eqb k key) eqn:E; cbn.
    + apply String.eqb_eq in E. subst k. apply String.eqb_neq in Hne. now rewrite Hne.
    + now rewrite IH.
Qed.

Lemma mapSet_fresh key e plugins :
  mapGet key plugins = None -> mapSet key e plugins = (plugins ++ [(key, e)])%list.
Proof.
  induction plugins as [|[k v] rest IH]; cbn; [reflexivity |].
  destruct (String.eqb k key); [discriminate |]. intros H. now rewrite IH.
Qed.

Lemma mapGet_app key plugins plugins' :
  mapGet key (plugins ++ plugins')%list
  = match mapGet key plugins with
    | Some e => Some e
    | None => mapGet key plugins'
    end.
Proof.
  induction plugins as [|[k v] rest IH]; cbn; [reflexivity |].
  now destruct (String.eqb k key).
Qed.

(** *** register, get, list *)

Lemma get_register plugins plugin config instance :
  create plugin config = inr instance ->
  get (slot (manifest plugin)) (name (manifest plugin))
      (snd (register plugin config plugins))
  = (Some instance, snd (register plugin config plugins)).
Proof.
  intros Hc. unfold get, register. rewrite Hc. cbn [snd].
  now rewrite mapGet_mapSet_eq.
Qed.

Lemma mapGet_register_ne plugins plugin config key :
  keyOf plugin <> key ->
  mapGet key (snd (register plugin config plugins)) = mapGet key plugins.
Proof.
  intros Hne. unfold register. destruct (create plugin config); cbn [snd];
    [reflexivity | now apply mapGet_mapSet_ne].
Qed.

(** A pair of slot and name that no call registered is not bound. *)
Lemma mapGet_registerAll_none
    (calls : list (PluginModule Instance * option PluginConfig)) s n :
  forall plugins,
    mapGet (makeKey s n) plugins = None ->
    (forall p c, In (p, c) calls -> (slot (manifest p), name (manifest p)) <> (s, n)) ->
    mapGet (makeKey s n) (registerAll calls plugins) = None.
Proof.
  induction calls as [|[p c] rest IH]; intros plugins Hnone Hnever; [assumption |].
  cbn [registerAll]. apply IH.
  - rewrite mapGet_register_ne; [assumption |].
    intros [Hs Hn]%makeKey_inj. apply (Hnever p c); [now left | congruence].
  - intros p' c' Hin. apply (Hnever p' c'). now right.
Qed.

(** Calls with pairwise different keys append their bindings in order. *)
Lemma registerAll_distinct
    (calls : list (PluginModule Instance * option PluginConfig)) :
  forall plugins,
    NoDup ((fun call => keyOf (fst call)) <$> calls) ->
    (forall call, In call calls -> mapGet (keyOf (fst call)) plugins = None) ->
    registerAll calls plugins = (plugins ++ omap bindingOf calls)%list.
Proof.
  induction calls as [|[p c] rest IH]; intros plugins Hnd Hfresh.
  - cbn. now rewrite app_nil_r.
  - cbn [registerAll fmap list_fmap] in *. apply NoDup_cons in Hnd as [Hp Hnd].
    assert (forall call, In call rest -> keyOf p <> keyOf (fst call)) as Hother.
    { intros call Hin E. apply Hp. cbn [fst]. rewrite E.
      apply list_elem_of_fmap. exists call. split; [reflexivity | now apply list_elem_of_In]. }
    rewrite IH; [| assumption |].
    + unfold register, bindingOf at 2. cbn [omap list_omap fst snd].
      unfold bindingOf at 1. cbn [fst snd].
      destruct (create p c) as [err | instance]; cbn [snd]; [reflexivity |].
      rewrite mapSet_fresh by (apply (Hfresh (p, c)); now left).
      now rewrite <- app_assoc.
    + intros call Hin. rewrite mapGet_register_ne by now apply Hother.
      apply Hfresh. now right.
Qed.

Lemma list_keysOk plugins s :
  keysOk plugins ->
  fst (list_ s plugins)
  = entryManifest <$> filter (fun e => slot (entryManifest e) = s) (snd <$> plugins).
Proof.
  unfold list_. cbn [fst]. induction 1 as [|[k e] rest Hk _ IH]; [reflexivity |].
  cbn [fst snd] in Hk. subst k. cbn [fmap list_fmap] in *.
  destruct (decide (slot (entryManifest e) = s)) as [Hs | Hs].
  - rewrite (filter_cons_True (fun e => slot (entryManifest e) = s)) by assumption.
    rewrite filter_cons_True
      by (cbn [fst]; rewrite prefix_makeKey; apply bool_decide_eq_true; congruence).
    cbn [fmap list_fmap snd]. now rewrite IH.
  - rewrite (filter_cons_False (fun e => slot (entryManifest e) = s)) by assumption.
    rewrite filter_cons_False
      by (cbn [fst]; rewrite prefix_makeKey, bool_decide_eq_true; congruence).
    exact IH.
Qed.

Lemma bindings_keysOk (calls : list (PluginModule Instance * option PluginConfig)) :
  keysOk (omap bindingOf calls).
Proof.
  unfold keysOk. induction calls as [|[p c] rest IH]; [constructor |].
  cbn [omap list_omap]. unfold bindingOf at 1. cbn [fst snd].
  destruct (create p c); [assumption |]. constructor; [reflexivity | assumption].
Qed.

(** *** What a registry that grew by [register] looks like *)

Lemma keysOk_mapSet plugins plugin instance :
  keysOk plugins ->
  keysOk (mapSet (keyOf plugin)
            {| entryManifest := manifest plugin; entryInstance := instance |}
            plugins).
Proof.
  unfold keysOk. induction 1 as [|[k v] rest Hk Hrest IH]; cbn [mapSet].
  - now repeat constructor.
  - destruct (String.eqb k (keyOf plugin)).
    + constructor; [reflexivity | exact Hrest].
    + constructor; [exact Hk | exact IH].
Qed.

Lemma keys_mapSet key e plugins :
  fst <$> mapSet key e plugins
  = if bool_decide (key ∈ (fst <$> plugins)) then fst <$> plugins
    else ((fst <$> plugins) ++ [key])%list.
Proof.
  induction plugins as [|[k v] rest IH]; cbn [mapSet fmap list_fmap fst].
  - rewrite bool_decide_eq_false_2 by set_solver. reflexivity.
  - destruct (String.eqb k key) eqn:E.
    + apply String.eqb_eq in E. subst k.
      rewrite bool_decide_eq_true_2 by set_solver. reflexivity.
    + apply String.eqb_neq in E. cbn [fmap list_fmap fst]. rewrite IH.
      destruct (bool_decide (key ∈ (fst <$> rest))) eqn:B.
      * apply bool_decide_eq_true in B.
        rewrite bool_decide_eq_true_2 by (apply elem_of_cons; now right).
        reflexivity.
      * apply bool_decide_eq_false in B.
        rewrite bool_decide_eq_false_2
          by (intros [Hk | Hin]%elem_of_cons; [now apply E | now apply B]).
        reflexivity.
Qed.

Lemma NoDup_mapSet key e plugins :
  NoDup (fst <$> plugins) -> NoDup (fst <$> mapSet key e plugins).
Proof.
  intros Hnd. rewrite keys_mapSet. case_bool_decide as B; [assumption |].
  apply NoDup_app. split; [assumption | split].
  - intros x Hx ->%list_elem_of_singleton. contradiction.
  - apply NoDup_singleton.
Qed.

Lemma registerAll_invariant
    (calls : list (PluginModule Instance * option PluginConfig)) :
  forall plugins,
    keysOk plugins -> NoDup (fst <$> plugins) ->
    keysOk (registerAll calls plugins) /\ NoDup (fst <$> registerAll calls plugins).
Proof.
  induction calls as [|[p c] rest IH]; intros plugins Hk Hnd; [now split |].
  cbn [registerAll]. apply IH; unfold register; destruct (create p c); cbn [snd];
    try assumption.
  - now apply keysOk_mapSet.
  - now apply NoDup_mapSet.
Qed.

Lemma mapGet_elem key e plugins :
  NoDup (fst <$> plugins) ->
  mapGet key plugins = Some e <-> (key, e) ∈ plugins.
Proof.
  induction plugins as [|[k v] rest IH]; cbn [mapGet fmap list_fmap fst].
  - intros _. split; [discriminate | intros H; now apply elem_of_nil in H].
  - intros [Hk Hnd]%NoDup_cons. destruct (String.eqb k key) eqn:E.
    + apply String.eqb_eq in E. subst k. split.
      * intros [= ->]. now left.
      * intros [[= ->] | Hin]%elem_of_cons; [reflexivity |].
        exfalso. apply Hk. apply list_elem_of_fmap. now exists (key, e).
    + apply String.eqb_neq in E. rewrite (IH Hnd). split.
      * intros H. now right.
      * intros [[= -> ->] | Hin]%elem_of_cons; [contradiction | assumption].
Qed.

(** In such a registry [list(slot)] lists the manifests that are bound under
    a name of that slot, and no others. *)
Lemma list_bound plugins s m :
  keysOk plugins -> NoDup (fst <$> plugins) ->
  m ∈ fst (list_ s plugins)
  <-> exists n instance,
        mapGet (makeKey s n) plugins
        = Some {| entryManifest := m; entryInstance := instance |}.
Proof.
  intros Hk Hnd. rewrite (list_keysOk _ _ Hk). split.
  - intros (e & -> & [He (kv & -> & Hkv)%list_elem_of_fmap]%list_elem_of_filter)%list_elem_of_fmap.
    destruct kv as [k e]. cbn [snd] in *.
    exists (name (entryManifest e)), (entryInstance e).
    apply (mapGet_elem _ _ _ Hnd).
    unfold keysOk in Hk. rewrite Forall_forall in Hk.
    specialize (Hk _ Hkv). cbn [fst snd] in Hk. subst k. rewrite <- He.
    now destruct e.
  - intros (n & instance & Hget). apply (mapGet_elem _ _ _ Hnd) in Hget.
    unfold keysOk in Hk. rewrite Forall_forall in Hk.
    pose proof (Hk _ Hget) as Hkey. cbn [fst snd entryManifest] in Hkey.
    apply makeKey_inj in Hkey as [Hs _].
    apply list_elem_of_fmap.
    exists {| entryManifest := m; entryInstance := instance |}. split; [reflexivity |].
    apply list_elem_of_filter. split; [now cbn |].
    apply list_elem_of_fmap. now exists (makeKey s n, {| entryManifest := m; entryInstance := instance |}).
Qed.

(** C6. After [register(plugin, config)], [get] of the plugin's slot and
    name returns the instance that [plugin.create(config)] constructed; a
    slot and name that no call registered give [null]; [list(slot)] returns
    exactly the manifests bound under a name of that slot, which for calls
    with pairwise different slot and name are the manifests of the plugins
    registered under that slot, in the order of registration; and [get] and
    [list] leave the registry as it is. *)
Theorem registry_register_get_list
    plugins plugin (config : option PluginConfig) (instance : Instance)
    (calls : list (PluginModule Instance * option PluginConfig)) :
  create plugin config = inr instance ->
  get (slot (manifest plugin)) (name (manifest plugin))
      (snd (register plugin config plugins))
  = (Some instance, snd (register plugin config plugins))
  /\ (forall s n,
        (forall p c, In (p, c) calls ->
                     (slot (manifest p), name (manifest p)) <> (s, n)) ->
        fst (get s n (registerAll calls [])) = None)
  /\ (forall s m,
        m ∈ fst (list_ s (registerAll calls []))
        <-> exists n instance,
              mapGet (makeKey s n) (registerAll calls [])
              = Some {| entryManifest := m; entryInstance := instance |})
  /\ (NoDup ((fun call => keyOf (fst call)) <$> calls) ->
      forall s,
        fst (list_ s (registerAll calls []))
        = entryManifest
            <$> filter (fun e => slot (entryManifest e) = s)
                       (snd <$> omap bindingOf calls))
  /\ (forall s n, snd (get s n plugins) = plugins)
  /\ (forall s, snd (list_ s plugins) = plugins).
Proof.
  intros Hc. split; [now apply get_register | split; [| split; [| split; [| split]]]].
  - intros s n Hnever. unfold get. cbn [fst].
    now rewrite mapGet_registerAll_none.
  - intros s m.
    destruct (registerAll_invariant calls []) as [Hk Hnd];
      [constructor | constructor |].
    now apply list_bound.
  - intros Hnd s. rewrite registerAll_distinct by (assumption || reflexivity).
    cbn [app]. apply list_keysOk, bindings_keysOk.
  - reflexivity.
  - reflexivity.
Qed.

End RegistryFacts.

(** *** loadBuiltins *)

Section LoadFacts.
Context {Instance : Type}.
Variable importPkg : string -> Js.result (ImportedModule Instance).
Variable orchestratorConfig : option OrchestratorConfig.
Implicit Types (plugins : PluginMap Instance) (b : builtin).

Lemma loadBuiltin_ok b plugins :
  fst (loadBuiltin importPkg orchestratorConfig b plugins) = inr tt.
Proof.
  unfold loadBuiltin, register.
  repeat match goal with
         | |- context [match ?x with _ => _ end] => destruct x
         end; reflexivity.
Qed.

Lemma loadBuiltin_absent b plugins err :
  importPkg (pkg b) = inl err ->
  loadBuiltin importPkg orchestratorConfig b plugins = (inr tt, plugins).
Proof. intros H. unfold loadBuiltin. now rewrite H. Qed.

Lemma loadAll_cons b bs plugins :
  loadAll importPkg orchestratorConfig (b :: bs) plugins
  = loadAll importPkg orchestratorConfig bs
      (snd (loadBuiltin importPkg orchestratorConfig b plugins)).
Proof.
  cbn [loadAll]. pose proof (loadBuiltin_ok b plugins) as H.
  destruct (loadBuiltin importPkg orchestratorConfig b plugins) as [[e | []] plugins'];
    [discriminate | reflexivity].
Qed.

Lemma loadAll_ok bs : forall plugins,
  fst (loadAll importPkg orchestratorConfig bs plugins) = inr tt.
Proof.
  induction bs as [|b bs IH]; intros plugins; [reflexivity |].
  rewrite loadAll_cons. apply IH.
Qed.

(** Loading skips the packages that cannot be imported. *)
Lemma loadAll_available bs : forall plugins,
  loadAll importPkg orchestratorConfig bs plugins
  = loadAll importPkg orchestratorConfig
      (filter (fun b => available importPkg b = true) bs) plugins.
Proof.
  induction bs as [|b bs IH]; intros plugins; [reflexivity |].
  rewrite loadAll_cons. unfold available at 1.
  destruct (importPkg (pkg b)) as [err | mod_] eqn:E.
  - rewrite filter_cons_False by (unfold available; rewrite E; discriminate).
    rewrite (loadBuiltin_absent _ _ _ E). apply IH.
  - rewrite filter_cons_True by (unfold available; now rewrite E).
    rewrite loadAll_cons. apply IH.
Qed.

Lemma loadBuiltin_other_key b plugins key :
  ~ provides importPkg b key ->
  mapGet key (snd (loadBuiltin importPkg orchestratorConfig b plugins))
  = mapGet key plugins.
Proof.
  intros Hnot. unfold loadBuiltin.
  destruct (importPkg (pkg b)) as [err | mod_] eqn:E; [reflexivity |].
  destruct (modManifest mod_) as [m|] eqn:Em; [| reflexivity].
  destruct (modCreate mod_) as [c|]; [| reflexivity].
  pose proof (mapGet_register_ne plugins {| manifest := m; create := c |}
                (configFor orchestratorConfig b) key) as Hreg.
  unfold configFor in Hreg.
  destruct (register _ _ plugins) as [[e | []] plugins']; cbn [snd] in *;
    apply Hreg; intros Hk; apply Hnot; now exists mod_, m.
Qed.

Lemma loadAll_other_key bs key : forall plugins,
  (forall b, In b bs -> ~ provides importPkg b key) ->
  mapGet key (snd (loadAll importPkg orchestratorConfig bs plugins))
  = mapGet key plugins.
Proof.
  induction bs as [|b bs IH]; intros plugins Hnot; [reflexivity |].
  rewrite loadAll_cons, IH by (intros b' Hb'; apply Hnot; now right).
  apply loadBuiltin_other_key, Hnot. now left.
Qed.

Lemma loadBuiltin_registers b plugins mod_ m c instance :
  importPkg (pkg b) = inr mod_ ->
  modManifest mod_ = Some m ->
  modCreate mod_ = Some c ->
  c (configFor orchestratorConfig b) = inr instance ->
  mapGet (makeKey (slot m) (name m))
         (snd (loadBuiltin importPkg orchestratorConfig b plugins))
  = Some {| entryManifest := m; entryInstance := instance |}.
Proof.
  intros Hi Hm Hc Hcreate. unfold loadBuiltin, register. rewrite Hi, Hm, Hc.
  cbn [manifest create]. unfold configFor in Hcreate. rewrite Hcreate.
  cbn [snd]. apply mapGet_mapSet_eq.
Qed.

(** A binding survives the loading of builtins that either are [b] again or
    do not provide its key. *)
Lemma loadAll_keeps b bs key e : forall plugins,
  mapGet key plugins = Some e ->
  (forall plugins', mapGet key (snd (loadBuiltin importPkg orchestratorConfig b plugins'))
                    = Some e) ->
  (forall b', In b' bs -> b' <> b -> ~ provides importPkg b' key) ->
  mapGet key (snd (loadAll importPkg orchestratorConfig bs plugins)) = Some e.
Proof.
  induction bs as [|b0 bs IH]; intros plugins Hget Hb Hothers; [assumption |].
  rewrite loadAll_cons. apply IH; [| assumption | intros b' Hb'; apply Hothers; now right].
  destruct (decide (b0 = b)) as [-> | Hne]; [apply Hb |].
  rewrite loadBuiltin_other_key; [assumption |].
  apply Hothers; [now left | assumption].
Qed.

Lemma loadAll_registers b bs key e : forall plugins,
  In b bs ->
  (forall plugins', mapGet key (snd (loadBuiltin importPkg orchestratorConfig b plugins'))
                    = Some e) ->
  (forall b', In b' bs -> b' <> b -> ~ provides importPkg b' key) ->
  mapGet key (snd (loadAll importPkg orchestratorConfig bs plugins)) = Some e.
Proof.
  induction bs as [|b0 bs IH]; intros plugins Hin Hb Hothers; [contradiction |].
  rewrite loadAll_cons. destruct (decide (b0 = b)) as [-> | Hne].
  - apply (loadAll_keeps b); [apply Hb | assumption |].
    intros b' Hb'. apply Hothers. now right.
  - apply IH; [| assumption | intros b' Hb'; apply Hothers; now right].
    destruct Hin as [-> | Hin]; [contradiction | assumption].
Qed.

(** C7. Whatever packages fail to import, [loadBuiltins] returns without
    throwing; it does what loading only the importable builtins does; a slot
    and name that no imported package declares resolve after loading as they
    did before (to [null] in a new registry); and a builtin that imports and
    constructs is registered under its manifest. *)
Theorem loadBuiltins_tolerates_absent plugins :
  fst (loadBuiltins importPkg orchestratorConfig plugins) = inr tt
  /\ loadBuiltins importPkg orchestratorConfig plugins
     = loadAll importPkg orchestratorConfig
         (filter (fun b => available importPkg b = true) BUILTIN_PLUGINS) plugins
  /\ (forall s n,
        (forall b mod_ m,
            In b BUILTIN_PLUGINS -> importPkg (pkg b) = inr mod_ ->
            modManifest mod_ = Some m -> (slot m, name m) <> (s, n)) ->
        fst (get s n (snd (loadBuiltins importPkg orchestratorConfig plugins)))
        = fst (get s n plugins))
  /\ (forall b mod_ m c instance,
        In b BUILTIN_PLUGINS ->
        importPkg (pkg b) = inr mod_ ->
        modManifest mod_ = Some m ->
        modCreate mod_ = Some c ->
        c (configFor orchestratorConfig b) = inr instance ->
        (forall b' mod' m',
            In b' BUILTIN_PLUGINS -> b' <> b -> importPkg (pkg b') = inr mod' ->
            modManifest mod' = Some m' -> (slot m', name m') <> (slot m, name m)) ->
        fst (get (slot m) (name m)
               (snd (loadBuiltins importPkg orchestratorConfig plugins)))
        = Some instance).
Proof.
  unfold loadBuiltins. split; [apply loadAll_ok | split; [apply loadAll_available |]].
  split.
  - intros s n Hnone. unfold get. cbn [fst].
    rewrite loadAll_other_key; [reflexivity |].
    intros b Hb (mod_ & m & Hi & Hm & Hk). apply makeKey_inj in Hk as [Hs Hn].
    apply (Hnone b mod_ m Hb Hi Hm). congruence.
  - intros b mod_ m c instance Hb Hi Hm Hc Hcreate Hothers. unfold get. cbn [fst].
    rewrite (loadAll_registers b _ _ {| entryManifest := m; entryInstance := instance |});
      [reflexivity | assumption | |].
    + intros plugins'. now apply (loadBuiltin_registers b plugins' mod_ m c).
    + intros b' Hb' Hne (mod' & m' & Hi' & Hm' & Hk). apply makeKey_inj in Hk as [Hs Hn].
      apply (Hothers b' mod' m' Hb' Hne Hi' Hm'). congruence.
Qed.

End LoadFacts.

Lemma registry_register_get_list_witness :
  get SlotTracker "gitlab"
      (snd (register {| manifest := gitlabManifest; create := fun _ => inr 7%nat |}
                     None []))
  = (Some 7%nat,
     snd (register {| manifest := gitlabManifest; create := fun _ => inr 7%nat |}
                   None []))
  /\ fst (list_ SlotTracker
            (registerAll
               [({| manifest := githubManifest; create := fun _ => inr 1%nat |}, None);
                ({| manifest := gitlabManifest; create := fun _ => inr 7%nat |}, None)]
               []))
     = [gitlabManifest].
Proof.
  pose proof (registry_register_get_list []
                {| manifest := gitlabManifest; create := fun _ => inr 7%nat |}
                None 7%nat
                [({| manifest := githubManifest; create := fun _ => inr 1%nat |}, None);
                 ({| manifest := gitlabManifest; create := fun _ => inr 7%nat |}, None)]
                eq_refl) as (Hget & _ & _ & Hlist & _).
  split; [exact Hget |].
  rewrite Hlist; [reflexivity |].
  apply (bool_decide_unpack _). vm_compute. exact I.
Defined.

Lemma loadBuiltins_tolerates_absent_witness :
  fst (get SlotRuntime "tmux" (snd (loadBuiltins onlyScmGithub None [])))
  = None.
Proof.
  refine (proj1 (proj2 (proj2 (loadBuiltins_tolerates_absent onlyScmGithub None [])))
            SlotRuntime "tmux" _).
  intros b mod_ m _ Hi Hm. unfold onlyScmGithub in Hi.
  destruct (String.eqb (pkg b) _); [| discriminate].
  injection Hi as <-. cbn in Hm. injection Hm as <-. discriminate.
Defined.

Example loadBuiltins_only_scm :
  loadBuiltins onlyScmGithub None []
  = (inr tt, [("scm:github", {| entryManifest := githubManifest; entryInstance := 1%nat |})]).
Proof. vm_compute. reflexivity. Qed.

End PluginRegistryFacts.

Module TrackerFacts.
Import Js Tracker.

Example mapState_opened : mapState (Some "opened") = StateOpen.
Proof. reflexivity. Qed.

Example mapState_reopened : mapState (Some "reopened") = StateOpen.
Proof. reflexivity. Qed.

Example mapState_missing : mapState None = StateOpen.
Proof. reflexivity. Qed.

Example mapState_closed_mixed_case : mapState (Some "ClOsEd") = StateClosed.
Proof. reflexivity. Qed.

Example mapState_locked : mapState (Some "locked") = StateOpen.
Proof. reflexivity. Qed.

Lemma mapState_closed (st : option string) :
  mapState st = StateClosed <-> upstreamClosed st.
Proof.
  unfold mapState, upstreamClosed. change (toLowerCase "CLOSED") with "closed".
  destruct st as [s|]; unfold default; cbn [from_option Datatypes.id].
  - destruct (String.eqb (toLowerCase s) "closed") eqn:E.
    + apply String.eqb_eq in E. split; [intros _; now exists s | reflexivity].
    + apply String.eqb_neq in E. split.
      * now destruct (_ || _).
      * intros (s' & [= <-] & H). contradiction.
  - cbn. split; [discriminate | intros (s & H & _); discriminate].
Qed.

Lemma mapState_open (st : option string) :
  mapState st = StateOpen <-> ~ upstreamClosed st.
Proof.
  rewrite <- mapState_closed. destruct (mapState st); split; congruence.
Qed.

(** The test of [isCompleted] and [mapState] agree on every state. *)
Lemma completed_mapState (st : option string) :
  String.eqb (toLowerCase (stringOf st)) "closed"
  = match mapState st with StateClosed => true | StateOpen => false end.
Proof.
  unfold mapState, stringOf. destruct st as [s|]; unfold default;
    cbn [from_option Datatypes.id]; [| reflexivity].
  destruct (String.eqb (toLowerCase s) "closed"); [reflexivity |].
  now destruct (_ || _).
Qed.

Lemma isCompleted_getIssue (pf : platform) (client : api)
    (identifier : string) (project : ProjectConfig) :
  isCompleted pf client identifier project
  = match getIssue pf client identifier project with
    | inl e => inl e
    | inr issue =>
        inr (match state issue with StateClosed => true | StateOpen => false end)
    end.
Proof.
  unfold isCompleted, getIssue.
  destruct (parseIid pf identifier) as [e | n]; [reflexivity |].
  destruct (projectToPath project) as [e | r]; [reflexivity |].
  destruct (getIssueAt client _) as [e | [data |]]; [reflexivity | | reflexivity].
  cbn [state]. now rewrite completed_mapState.
Qed.

(** C9. Whenever the identifier parses, the project names a repository and
    the API answers with an issue, [getIssue] returns an issue, [listIssues]
    returns one issue for each issue of the answer (none for an empty body)
    and [createIssue] returns the issue created; the state of each issue
    returned is closed exactly when the upstream state reads closed in
    whatever case, and open for every other value and for a missing one.
    [isCompleted] then returns true exactly when that state is closed; and
    on every input it answers true exactly when [getIssue] returns an issue
    whose state is closed, false exactly when it returns an open one. *)
Theorem tracker_state_normalised
    (pf : platform) (client : api) (identifier : string)
    (project : ProjectConfig) (filters : IssueFilters) (input : CreateIssueInput) :
  (forall st, (mapState st = StateClosed <-> upstreamClosed st)
              /\ (mapState st = StateOpen <-> ~ upstreamClosed st))
  /\ (forall iid repo data,
        parseIid pf identifier = inr iid ->
        projectToPath project = inr repo ->
        getIssueAt client (issuePath (encodeURIComponent pf repo) iid)
        = inr (Some data) ->
        exists issue,
          getIssue pf client identifier project = inr issue
          /\ state issue = mapState (glState data)
          /\ (state issue = StateClosed <-> upstreamClosed (glState data))
          /\ (state issue = StateOpen <-> ~ upstreamClosed (glState data))
          /\ isCompleted pf client identifier project
             = inr (match state issue with
                    | StateClosed => true
                    | StateOpen => false
                    end))
  /\ (forall repo data,
        projectToPath project = inr repo ->
        getIssuesAt client ("/projects/" ++ encodeURIComponent pf repo ++ "/issues")
          (issuesQuery filters)
        = inr data ->
        exists issues,
          listIssues pf client filters project = inr issues
          /\ state <$> issues
             = (fun d => mapState (glState d)) <$> default [] data
          /\ Forall2 (fun issue d =>
                        (state issue = StateClosed <-> upstreamClosed (glState d))
                        /\ (state issue = StateOpen <-> ~ upstreamClosed (glState d)))
                     issues (default [] data))
  /\ (forall repo created,
        projectToPath project = inr repo ->
        postIssue client ("/projects/" ++ encodeURIComponent pf repo ++ "/issues")
          {| payloadTitle := inputTitle input;
             payloadDescription := default "" (inputDescription input);
             payloadLabels := String.concat "," <$> nonEmpty (inputLabels input);
             payloadAssigneeIds := resolveAssignee client (inputAssignee input) |}
        = inr (Some created) ->
        exists issue,
          createIssue pf client input project = inr issue
          /\ state issue = mapState (glState created)
          /\ (state issue = StateClosed <-> upstreamClosed (glState created))
          /\ (state issue = StateOpen <-> ~ upstreamClosed (glState created)))
  /\ (isCompleted pf client identifier project = inr true
      <-> exists issue, getIssue pf client identifier project = inr issue
                        /\ state issue = StateClosed)
  /\ (isCompleted pf client identifier project = inr false
      <-> exists issue, getIssue pf client identifier project = inr issue
                        /\ state issue = StateOpen).
Proof.
  split; [intros st; split; [apply mapState_closed | apply mapState_open] |].
  split; [| split; [| split; [| split]]].
  - intros n r data Hn Hr Hd.
    rewrite isCompleted_getIssue. unfold getIssue. rewrite Hn, Hr, Hd.
    eexists. split; [reflexivity |]. cbn [state].
    split; [reflexivity |].
    split; [apply mapState_closed | split; [apply mapState_open | reflexivity]].
  - intros r data Hr Hd. unfold listIssues. rewrite Hr, Hd.
    eexists. split; [reflexivity |].
    split; [now rewrite <- list_fmap_compose |].
    induction (default [] data) as [|d ds IH]; [constructor |].
    cbn [fmap list_fmap]. constructor; [| exact IH].
    cbn [listedIssue state].
    split; [apply mapState_closed | apply mapState_open].
  - intros r created Hr Hc. unfold createIssue. rewrite Hr, Hc.
    eexists. split; [reflexivity |]. cbn [listedIssue state].
    split; [reflexivity |].
    split; [apply mapState_closed | apply mapState_open].
  - rewrite isCompleted_getIssue.
    destruct (getIssue pf client identifier project) as [e | issue].
    + split; [discriminate | intros (i & H & _); discriminate].
    + split.
      * intros H. exists issue. split; [reflexivity |].
        destruct (state issue); [discriminate | reflexivity].
      * intros (i & [= <-] & ->). reflexivity.
  - rewrite isCompleted_getIssue.
    destruct (getIssue pf client identifier project) as [e | issue].
    + split; [discriminate | intros (i & H & _); discriminate].
    + split.
      * intros H. exists issue. split; [reflexivity |].
        destruct (state issue); [reflexivity | discriminate].
      * intros (i & [= <-] & ->). reflexivity.
Qed.

Lemma tracker_state_normalised_witness :
  (exists issue,
      getIssue plainPlatform allClosed "#42" {| repo := Some "group/project" |}
      = inr issue
      /\ state issue = StateClosed)
  /\ isCompleted plainPlatform allClosed "#42" {| repo := Some "group/project" |}
     = inr true.
Proof.
  destruct (tracker_state_normalised plainPlatform allClosed "#42"
              {| repo := Some "group/project" |}
              {| filterState := None; filterLabels := None; filterAssignee := None;
                 filterLimit := None |}
              {| inputTitle := "t"; inputDescription := None; inputLabels := None;
                 inputAssignee := None |})
    as (_ & Hget & _ & _ & _ & _).
  destruct (Hget "42" "group/project" closedIssue)
    as (issue & Hissue & Hstate & _ & _ & Hdone);
    [reflexivity | reflexivity | reflexivity |].
  assert (state issue = StateClosed) as Hclosed by (rewrite Hstate; reflexivity).
  split.
  - exists issue. split; [exact Hissue | exact Hclosed].
  - rewrite Hdone, Hclosed. reflexivity.
Defined.

End TrackerFacts.

Module TextFacts.
Import Text.

Example trim_spaces : trim (" " ++ bytes [194; 160; 9] ++ "a b" ++ bytes [10; 226; 128; 168])
                      = "a b".
Proof. vm_compute. reflexivity. Qed.

Example trim_keeps_inner : trim "a  b" = "a  b".
Proof. vm_compute. reflexivity. Qed.

Example split_path : split "/" "group/sub/project" = ["group"; "sub"; "project"].
Proof. vm_compute. reflexivity. Qed.

Example split_slash : split "/" "/" = [""; ""].
Proof. vm_compute. reflexivity. Qed.

Example encode_path : encodeURIComponent "group/my project" = "group%2Fmy%20project".
Proof. vm_compute. reflexivity. Qed.

Example encode_utf8 : encodeURIComponent (bytes [195; 169]) = "%C3%A9".
Proof. vm_compute. reflexivity. Qed.

Example stripTrailing_slashes : stripTrailing "/" "https://x//" = "https://x".
Proof. vm_compute. reflexivity. Qed.

(** *** Concatenation *)

Lemma app_assoc' (a b c : string) : (a ++ b) ++ c = a ++ (b ++ c).
Proof. induction a as [|x a IH]; cbn; [reflexivity | now rewrite IH]. Qed.

Lemma app_empty_r' (a : string) : a ++ "" = a.
Proof. induction a as [|x a IH]; cbn; [reflexivity | now rewrite IH]. Qed.

Lemma app_eq_empty (a b : string) : a ++ b = "" -> a = "" /\ b = "".
Proof. destruct a; cbn; [tauto | discriminate]. Qed.

Lemma length_app (a b : string) :
  String.length (a ++ b) = (String.length a + String.length b)%nat.
Proof. induction a as [|x a IH]; cbn; [reflexivity | now rewrite IH]. Qed.

(** *** endsWith *)

Lemma endsWith_refl (s : string) : endsWith s s = true.
Proof. destruct s; cbn [endsWith]; now rewrite String.eqb_refl. Qed.

Lemma endsWith_app (x suffix : string) : endsWith (x ++ suffix) suffix = true.
Proof.
  induction x as [|a x IH]; cbn [String.append endsWith]; [apply endsWith_refl |].
  rewrite IH. apply orb_true_r.
Qed.

Lemma endsWith_spec (s suffix : string) :
  endsWith s suffix = true <-> exists x, s = x ++ suffix.
Proof.
  split.
  - induction s as [|a s IH]; cbn [endsWith].
    + rewrite orb_false_r. intros H%String.eqb_eq. now exists "".
    + intros [H%String.eqb_eq | H]%orb_true_iff.
      * now exists "".
      * destruct (IH H) as [x ->]. now exists (String a x).
  - intros [x ->]. apply endsWith_app.
Qed.

(** The last character of a text that ends with a non-empty [suffix] is the
    last character of [suffix]. *)
Lemma endsWith_trans (s t u : string) :
  endsWith s t = true -> endsWith t u = true -> endsWith s u = true.
Proof.
  intros [x ->]%endsWith_spec [y ->]%endsWith_spec.
  apply endsWith_spec. exists (x ++ y). now rewrite app_assoc'.
Qed.

Lemma endsWith_length (s suffix : string) :
  endsWith s suffix = true -> (String.length suffix <= String.length s)%nat.
Proof. intros [x ->]%endsWith_spec. rewrite length_app. lia. Qed.

(** Two suffixes of one text: the shorter is a suffix of the longer. *)
Lemma endsWith_both (s t u : string) :
  endsWith s t = true -> endsWith s u = true ->
  (String.length u <= String.length t)%nat -> endsWith t u = true.
Proof.
  induction s as [|a s IH]; cbn [endsWith].
  - rewrite !orb_false_r. intros Ht Hu _. apply String.eqb_eq in Ht, Hu. subst.
    reflexivity.
  - intros [Ht%String.eqb_eq | Ht]%orb_true_iff [Hu%String.eqb_eq | Hu]%orb_true_iff Hlen.
    + subst. apply endsWith_refl.
    + subst t. cbn [endsWith]. rewrite Hu. apply orb_true_r.
    + subst u. apply endsWith_length in Ht. cbn in Hlen. lia.
    + now apply IH.
Qed.

(** *** stripTrailing *)

Lemma stripTrailing_keeps (c : ascii) (x y : string) :
  y <> "" -> stripTrailing c y = y -> stripTrailing c (x ++ y) = x ++ y.
Proof.
  intros Hy Hs. induction x as [|a x IH]; cbn [String.append stripTrailing]; [assumption |].
  rewrite IH. destruct (x ++ y) eqn:E; [| reflexivity].
  apply app_eq_empty in E as [_ ->]. contradiction.
Qed.

Lemma stripTrailing_prefix (c : ascii) (s : string) :
  exists q, s = stripTrailing c s ++ q.
Proof.
  induction s as [|a s [q IH]]; cbn [stripTrailing]; [now exists "" |].
  destruct (String.eqb (stripTrailing c s) "" && Ascii.eqb a c).
  - now exists (String a s).
  - exists q. cbn. now rewrite <- IH.
Qed.

Lemma stripTrailing_last (c : ascii) (s : string) :
  endsWith (stripTrailing c s) (String c "") = false.
Proof.
  induction s as [|a s IH]; cbn [stripTrailing]; [reflexivity |].
  destruct (String.eqb (stripTrailing c s) "") eqn:E; cbn [andb].
  - apply String.eqb_eq in E. rewrite E.
    destruct (Ascii.eqb a c) eqn:Ea; [reflexivity |].
    cbn [endsWith]. rewrite orb_false_r.
    cbn [String.eqb]. now rewrite Ea.
  - cbn [endsWith]. rewrite IH, orb_false_r.
    cbn [String.eqb]. destruct (Ascii.eqb a c); [| reflexivity].
    destruct (stripTrailing c s); [discriminate | reflexivity].
Qed.

(** *** stripPrefix and white space *)

Lemma stripPrefix_spec (w s r : string) : stripPrefix w s = Some r <-> s = w ++ r.
Proof.
  revert s. induction w as [|a w IH]; intros s; cbn [stripPrefix String.append].
  - split; [now intros [= ->] | now intros ->].
  - destruct s as [|b s]; [split; discriminate |].
    destruct (Ascii.eqb_spec a b) as [-> | Hne].
    + rewrite IH. split; [now intros -> | now intros [= ->]].
    + split; [discriminate | intros [= <- _]; contradiction].
Qed.

(** A prefix without the character [c] that reaches into [n ++ c ...] lies
    within [n]. *)
Lemma stripPrefix_before (c : ascii) (w n t r : string) :
  allChars (isNot c) w = true ->
  stripPrefix w (n ++ String c t) = Some r ->
  exists r', stripPrefix w n = Some r'.
Proof.
  revert n. induction w as [|a w IH]; intros n Hw H; cbn [stripPrefix]; [eauto |].
  cbn [allChars] in Hw. apply andb_true_iff in Hw as [Ha Hw].
  destruct n as [|b n]; cbn [String.append stripPrefix] in H |- *.
  - unfold isNot in Ha.
    destruct (Ascii.eqb a c); [discriminate Ha | discriminate H].
  - destruct (Ascii.eqb a b); [now apply IH | discriminate].
Qed.

Lemma afterWhite_spec (ws : list string) (s r : string) :
  afterWhite ws s = Some r -> exists w, In w ws /\ s = w ++ r.
Proof.
  induction ws as [|w ws IH]; cbn [afterWhite]; [discriminate |].
  destruct (stripPrefix w s) as [r'|] eqn:E.
  - intros [= ->]. exists w. split; [now left | now apply stripPrefix_spec].
  - intros H. destruct (IH H) as (w' & Hin & ->). exists w'. split; [now right | reflexivity].
Qed.

Lemma afterWhite_none (ws : list string) (s : string) :
  afterWhite ws s = None <-> Forall (fun w => stripPrefix w s = None) ws.
Proof.
  induction ws as [|w ws IH]; cbn [afterWhite].
  - split; [constructor | reflexivity].
  - destruct (stripPrefix w s) eqn:E.
    + split; [discriminate |]. intros H. inversion H; congruence.
    + rewrite IH. split; [now constructor | intros H; now inversion H].
Qed.

(** No leading white space is left when the text is cut short. *)
Lemma afterWhite_none_prefix (ws : list string) (s q : string) :
  afterWhite ws (s ++ q) = None -> afterWhite ws s = None.
Proof.
  rewrite !afterWhite_none. intros H. eapply Forall_impl; [exact H |].
  intros w Hw. cbn beta in *.
  destruct (stripPrefix w s) as [r|] eqn:E; [| reflexivity].
  apply stripPrefix_spec in E. subst s.
  assert (stripPrefix w ((w ++ r) ++ q) = Some (r ++ q)) as Hq
    by (apply stripPrefix_spec; now rewrite app_assoc').
  congruence.
Qed.

(** Nor when a text that starts with [c], which is in no white space
    character, is put after it. *)
Lemma afterWhite_none_app (c : ascii) (ws : list string) (n t : string) :
  Forall (fun w => allChars (isNot c) w = true) ws ->
  afterWhite ws n = None -> afterWhite ws (n ++ String c t) = None.
Proof.
  rewrite !afterWhite_none. intros Hc Hn.
  induction ws as [|w ws IH]; [constructor |].
  inversion Hc; inversion Hn; subst. constructor; [| now apply IH].
  destruct (stripPrefix w (n ++ String c t)) as [r|] eqn:E; [| reflexivity].
  destruct (stripPrefix_before c w n t r) as [r' Hr']; [assumption.. |]. congruence.
Qed.

Lemma whiteSpace_no_slash : Forall (fun w => allChars (isNot "/") w = true) whiteSpace.
Proof. repeat constructor. Qed.

Lemma whiteSpace_nonempty : Forall (fun w => w <> "") whiteSpace.
Proof. repeat constructor; discriminate. Qed.

Lemma whiteSpace_last (a : ascii) :
  (48 <=? N_of_ascii a)%N && (N_of_ascii a <=? 57)%N = true ->
  Forall (fun w => endsWith w (String a "") = false) whiteSpace.
Proof.
  intros Ha.
  assert (forall b, (N_of_ascii b <? 48)%N || (57 <? N_of_ascii b)%N = true ->
                    Ascii.eqb b a = false) as Hne.
  { intros b Hb. apply Ascii.eqb_neq. intros ->.
    apply andb_true_iff in Ha as [H1%N.leb_le H2%N.leb_le].
    apply orb_true_iff in Hb as [Hb%N.ltb_lt | Hb%N.ltb_lt]; lia. }
  repeat constructor;
    cbn [endsWith String.eqb]; rewrite ?Hne by reflexivity; reflexivity.
Qed.

(** *** trimStart and trimEnd *)

Lemma trimStartWithin_clean (n : nat) : forall s,
  (String.length s <= n)%nat -> afterWhite whiteSpace (trimStartWithin n s) = None.
Proof.
  induction n as [|n IH]; intros s Hlen; cbn [trimStartWithin].
  - destruct s; [reflexivity | cbn in Hlen; lia].
  - destruct (afterWhite whiteSpace s) as [r|] eqn:E; [| assumption].
    apply IH. apply afterWhite_spec in E as (w & Hin & ->).
    pose proof whiteSpace_nonempty as Hne. rewrite List.Forall_forall in Hne.
    specialize (Hne w Hin).
    rewrite length_app in Hlen. destruct w; [contradiction | cbn in Hlen; lia].
Qed.

Lemma trimStart_clean (s : string) : afterWhite whiteSpace (trimStart s) = None.
Proof. now apply trimStartWithin_clean. Qed.

Lemma trimStart_fixed (s : string) : afterWhite whiteSpace s = None -> trimStart s = s.
Proof.
  intros H. unfold trimStart. destruct (String.length s); cbn [trimStartWithin];
    [reflexivity | now rewrite H].
Qed.

(** A text that [trimStart] consumes is empty or ends with a white space
    character. *)
Lemma trimStartWithin_all (n : nat) : forall s,
  trimStartWithin n s = "" ->
  s = "" \/ exists w, In w whiteSpace /\ endsWith s w = true.
Proof.
  induction n as [|n IH]; intros s; cbn [trimStartWithin]; [now left |].
  destruct (afterWhite whiteSpace s) as [r|] eqn:E; [| now left].
  apply afterWhite_spec in E as (w & Hin & ->). intros H.
  right. destruct (IH r H) as [-> | (w' & Hin' & He)].
  - exists w. split; [assumption |]. rewrite app_empty_r'. apply endsWith_refl.
  - exists w'. split; [assumption |].
    apply endsWith_spec in He as [x ->]. apply endsWith_spec. exists (w ++ x).
    now rewrite app_assoc'.
Qed.

Lemma trimEnd_prefix (s : string) : exists q, s = trimEnd s ++ q.
Proof.
  induction s as [|a s [q IH]]; cbn [trimEnd]; [now exists "" |].
  destruct (String.eqb (trimStart (String a s)) "").
  - now exists (String a s).
  - exists q. cbn. now rewrite <- IH.
Qed.

(** A text whose last character is a digit keeps its end. *)
Lemma trimEnd_fixed (a : ascii) (s : string) :
  (48 <=? N_of_ascii a)%N && (N_of_ascii a <=? 57)%N = true ->
  endsWith s (String a "") = true -> trimEnd s = s.
Proof.
  intros Ha. induction s as [|b s IH]; [reflexivity |]. intros He.
  cbn [trimEnd].
  destruct (String.eqb (trimStart (String b s)) "") eqn:E.
  - apply String.eqb_eq in E. apply trimStartWithin_all in E as [E | (w & Hin & Hw)];
      [discriminate |].
    pose proof (whiteSpace_last a Ha) as Hl. rewrite List.Forall_forall in Hl.
    specialize (Hl w Hin).
    pose proof whiteSpace_nonempty as Hne. rewrite List.Forall_forall in Hne.
    specialize (Hne w Hin).
    rewrite (endsWith_both (String b s) w (String a "")) in Hl; [discriminate | assumption.. |].
    destruct w; [contradiction | cbn; lia].
  - f_equal. destruct s as [|b' s']; [reflexivity |]. apply IH.
    cbn [endsWith] in He. apply orb_true_iff in He as [He | He]; [| assumption].
    cbn in He. destruct (Ascii.eqb b a); discriminate.
Qed.

Lemma trim_clean (s : string) : afterWhite whiteSpace (trim s) = None.
Proof.
  unfold trim. destruct (trimEnd_prefix (trimStart s)) as [q Hq].
  apply (afterWhite_none_prefix _ _ q). rewrite <- Hq. apply trimStart_clean.
Qed.

(** *** split *)

Lemma split_nonempty (c : ascii) (s : string) : split c s <> [].
Proof.
  induction s as [|a s IH]; cbn [split]; [discriminate |].
  destruct (split c s); [contradiction |]. destruct (Ascii.eqb a c); discriminate.
Qed.

(** Joining what [split] gives restores the text. *)
Lemma concat_split (c : ascii) (s : string) :
  String.concat (String c "") (split c s) = s.
Proof.
  induction s as [|a s IH]; cbn [split]; [reflexivity |].
  pose proof (split_nonempty c s) as Hne.
  destruct (split c s) as [|w ws]; [contradiction |].
  destruct (Ascii.eqb a c) eqn:Ea.
  - apply Ascii.eqb_eq in Ea. subst a.
    change (String.concat (String c "") ("" :: w :: ws))
      with ("" ++ String c "" ++ String.concat (String c "") (w :: ws)).
    rewrite IH. reflexivity.
  - destruct ws as [|w' ws].
    + cbn [String.concat] in *. now rewrite IH.
    + change (String.concat (String c "") (String a w :: w' :: ws))
        with (String a (String.concat (String c "") (w :: w' :: ws))).
      now rewrite IH.
Qed.

(** Splitting a text joined from pieces without the separator gives the
    pieces. *)
Lemma split_concat (c : ascii) (ws : list string) :
  ws <> [] -> Forall (fun w => allChars (isNot c) w = true) ws ->
  split c (String.concat (String c "") ws) = ws.
Proof.
  intros Hne Hall. induction Hall as [|w ws Hw Hws IH]; [contradiction |].
  destruct ws as [|w' ws'].
  - cbn [String.concat]. clear IH Hne Hws.
    induction w as [|a w IHw]; [reflexivity |].
    cbn [allChars] in Hw. apply andb_true_iff in Hw as [Ha Hw].
    cbn [split]. rewrite (IHw Hw). unfold isNot in Ha.
    now destruct (Ascii.eqb a c).
  - specialize (IH ltac:(discriminate)).
    change (String.concat (String c "") (w :: w' :: ws'))
      with (w ++ String c (String.concat (String c "") (w' :: ws'))).
    clear Hne. induction w as [|a w IHw].
    + cbn [String.append split]. rewrite IH. now rewrite Ascii.eqb_refl.
    + cbn [allChars] in Hw. apply andb_true_iff in Hw as [Ha Hw].
      cbn [String.append split]. rewrite (IHw Hw). unfold isNot in Ha.
      now destruct (Ascii.eqb a c).
Qed.

(** *** encodeURIComponent *)

Lemma allChars_app (p : ascii -> bool) (s t : string) :
  allChars p (s ++ t) = allChars p s && allChars p t.
Proof.
  induction s as [|a s IH]; cbn [String.append allChars]; [reflexivity |].
  now rewrite IH, andb_assoc.
Qed.

Lemma allChars_impl (p q : ascii -> bool) (s : string) :
  (forall a, p a = true -> q a = true) -> allChars p s = true -> allChars q s = true.
Proof.
  intros Hpq. induction s as [|a s IH]; cbn [allChars]; [reflexivity |].
  intros [Ha Hs]%andb_true_iff. now rewrite (Hpq a Ha), IH.
Qed.

Lemma percent_encoded (a : ascii) : allChars encoded (percent a) = true.
Proof. destruct a as [[] [] [] [] [] [] [] []]; vm_compute; reflexivity. Qed.

Lemma encodeURIComponent_chars (s : string) :
  allChars encoded (encodeURIComponent s) = true.
Proof.
  induction s as [|a s IH]; cbn [encodeURIComponent]; [reflexivity |].
  rewrite allChars_app, IH, andb_true_r.
  destruct (unreserved a) eqn:E; [| apply percent_encoded].
  cbn [allChars]. unfold encoded. now rewrite E.
Qed.

Lemma encoded_not (c : ascii) :
  encoded c = false -> forall a, encoded a = true -> isNot c a = true.
Proof.
  intros Hc a Ha. unfold isNot. destruct (Ascii.eqb_spec a c) as [-> | _]; [congruence | reflexivity].
Qed.

Lemma encodeURIComponent_without (c : ascii) (s : string) :
  encoded c = false -> allChars (isNot c) (encodeURIComponent s) = true.
Proof.
  intros Hc. apply (allChars_impl encoded); [now apply encoded_not |].
  apply encodeURIComponent_chars.
Qed.

(** Text without reserved characters is left as it is. *)
Lemma encodeURIComponent_plain (s : string) :
  allChars unreserved s = true -> encodeURIComponent s = s.
Proof.
  induction s as [|a s IH]; cbn [allChars encodeURIComponent]; [reflexivity |].
  intros [Ha Hs]%andb_true_iff. rewrite Ha, (IH Hs). reflexivity.
Qed.

Lemma hexUpper_inj (n m : N) :
  (n < 16)%N -> (m < 16)%N -> hexUpper n = hexUpper m -> n = m.
Proof.
  unfold hexUpper. intros Hn Hm H. apply (f_equal N_of_ascii) in H.
  destruct (N.ltb_spec n 10), (N.ltb_spec m 10);
    rewrite !N_ascii_embedding in H by lia; lia.
Qed.

Lemma percent_inj (a b : ascii) : percent a = percent b -> a = b.
Proof.
  unfold percent. intros [= Hhi Hlo].
  pose proof (N_ascii_bounded a) as Ha. pose proof (N_ascii_bounded b) as Hb.
  apply hexUpper_inj in Hhi; [| apply N.Div0.div_lt_upper_bound; lia..].
  apply hexUpper_inj in Hlo; [| apply N.mod_lt; lia..].
  rewrite <- (ascii_N_embedding a), <- (ascii_N_embedding b). f_equal.
  rewrite (N.div_mod (N_of_ascii a) 16), (N.div_mod (N_of_ascii b) 16) by lia.
  now rewrite Hhi, Hlo.
Qed.

(** Different texts are encoded differently. *)
Lemma encodeURIComponent_inj (s t : string) :
  encodeURIComponent s = encodeURIComponent t -> s = t.
Proof.
  revert t. induction s as [|a s IH]; intros [|b t]; cbn [encodeURIComponent].
  - reflexivity.
  - destruct (unreserved b); discriminate.
  - destruct (unreserved a); discriminate.
  - destruct (unreserved a) eqn:Ea, (unreserved b) eqn:Eb; cbn [String.append percent].
    + intros [= -> H]. now rewrite (IH _ H).
    + intros [= -> _]. discriminate Ea.
    + intros [= <- _]. discriminate Eb.
    + intros [= H1 H2 H]. rewrite (IH _ H). f_equal.
      apply percent_inj. unfold percent. now rewrite H1, H2.
Qed.

End TextFacts.

Module BaseUrlFacts.
Import Js Text GitLabClient BaseUrl TextFacts.

Example defaultBaseUrl_host :
  defaultBaseUrl (Some " https://gitlab.example.com// ") = "https://gitlab.example.com/api/v4".
Proof. vm_compute. reflexivity. Qed.

Example defaultBaseUrl_full :
  defaultBaseUrl (Some "http://gitlab.local:8080/api/v4/") = "http://gitlab.local:8080/api/v4".
Proof. vm_compute. reflexivity. Qed.

Example defaultBaseUrl_missing : defaultBaseUrl None = "https://gitlab.com/api/v4".
Proof. reflexivity. Qed.

Example legacy_defaultBaseUrl_full :
  Legacy.defaultBaseUrl (Some "http://gitlab.local:8080/api/v4/")
  = "http://gitlab.local:8080/api/v4/api/v4".
Proof. vm_compute. reflexivity. Qed.

Lemma truthy_nonempty (s : string) : s <> "" -> truthy (Some s) = true.
Proof. intros H. cbn. now destruct s. Qed.

Lemma endsWith_nonempty (s suffix : string) :
  suffix <> "" -> endsWith s suffix = true -> s <> "".
Proof.
  intros Hs He ->. cbn in He. rewrite orb_false_r in He.
  destruct suffix; [contradiction | discriminate].
Qed.

(** What [defaultBaseUrl] returns, [defaultBaseUrl] returns as it is. *)
Lemma defaultBaseUrl_fixed (r : string) :
  endsWith r "/api/v4" = true -> afterWhite whiteSpace r = None ->
  defaultBaseUrl (Some r) = r.
Proof.
  intros He Hw. unfold defaultBaseUrl.
  rewrite truthy_nonempty by (apply (endsWith_nonempty _ "/api/v4"); [discriminate | assumption]).
  cbn [default from_option Datatypes.id]. unfold trim.
  rewrite (trimStart_fixed _ Hw).
  rewrite (trimEnd_fixed "4") by
    (reflexivity || (apply (endsWith_trans _ "/api/v4"); [assumption | reflexivity])).
  destruct (proj1 (endsWith_spec _ _) He) as [x Hx].
  assert (stripTrailing "/" r = r) as ->.
  { rewrite Hx. apply stripTrailing_keeps; [discriminate | reflexivity]. }
  now rewrite He.
Qed.

Lemma defaultBaseUrl_suffix (url : option string) :
  endsWith (defaultBaseUrl url) "/api/v4" = true.
Proof.
  unfold defaultBaseUrl. destruct (truthy url); [| reflexivity].
  cbv zeta. destruct (endsWith (stripTrailing "/" _) "/api/v4") eqn:E; [assumption |].
  apply endsWith_app.
Qed.

Lemma defaultBaseUrl_clean (url : option string) :
  afterWhite whiteSpace (defaultBaseUrl url) = None.
Proof.
  unfold defaultBaseUrl. destruct (truthy url); [| vm_compute; reflexivity]. cbv zeta.
  set (u := default "" url).
  assert (afterWhite whiteSpace (stripTrailing "/" (trim u)) = None) as Hn.
  { destruct (stripTrailing_prefix "/" (trim u)) as [q Hq].
    apply (afterWhite_none_prefix _ _ q). rewrite <- Hq. apply trim_clean. }
  destruct (endsWith _ "/api/v4"); [assumption |].
  apply (afterWhite_none_app "/"); [apply whiteSpace_no_slash | assumption].
Qed.

Lemma endsWith_not (s t u : string) :
  endsWith s t = true -> (String.length u <= String.length t)%nat ->
  endsWith t u = false -> endsWith s u = false.
Proof.
  intros Ht Hlen Hu. destruct (endsWith s u) eqn:E; [| reflexivity].
  now rewrite (endsWith_both s t u) in Hu.
Qed.

Lemma dropSlash_keeps (s : string) : endsWith s "/" = false -> Legacy.dropSlash s = s.
Proof.
  induction s as [|a s IH]; [reflexivity |]. intros He.
  cbn [endsWith] in He. apply orb_false_iff in He as [Ha Hs].
  cbn [Legacy.dropSlash]. destruct s as [|b s'].
  - cbn in Ha. destruct (Ascii.eqb a "/"); [discriminate | reflexivity].
  - now rewrite IH.
Qed.

(** X8. The base URL of a client is normalised: whatever is configured,
    it ends with [/api/v4], so never with a slash, and normalising it once
    more changes nothing. *)
Theorem defaultBaseUrl_normal_form (url : option string) :
  endsWith (defaultBaseUrl url) "/api/v4" = true
  /\ endsWith (defaultBaseUrl url) "/" = false
  /\ defaultBaseUrl (Some (defaultBaseUrl url)) = defaultBaseUrl url.
Proof.
  pose proof (defaultBaseUrl_suffix url) as Hs. split; [assumption |]. split.
  - apply (endsWith_not _ "/api/v4"); [assumption | cbn; lia | reflexivity].
  - apply defaultBaseUrl_fixed; [assumption | apply defaultBaseUrl_clean].
Qed.

(** X9. The URL of a request is the API root, one slash and the path
    without its leading slash: a path is requested the same with and without
    that slash, whatever base is configured. *)
Theorem requestUrl_single_slash (opts : GitLabClientOptions) (path : string) :
  exists root,
    defaultBaseUrl (optBaseUrl opts) = root ++ "/api/v4"
    /\ requestUrl opts path = root ++ "/api/v4/" ++ relative path
    /\ requestUrl opts (String "/" (relative path)) = requestUrl opts path.
Proof.
  destruct (proj1 (endsWith_spec _ _) (defaultBaseUrl_suffix (optBaseUrl opts)))
    as [root Hroot].
  exists root. split; [assumption |].
  assert (normalizedPath path = String "/" (relative path)) as Hp.
  { destruct path as [|a p]; [reflexivity |]. cbn.
    destruct a as [[] [] [] [] [] [] [] []]; reflexivity. }
  unfold requestUrl. rewrite Hroot, Hp. split; [| reflexivity].
  rewrite !app_assoc'. reflexivity.
Qed.

(** X12. The base URL of the earlier client ends with [/api/v4]
    too and is stable, but a base given as [.../api/v4/] gets the suffix a
    second time, and the path of a request is appended as it is. *)
Theorem legacy_defaultBaseUrl_appends (url : option string) :
  endsWith (Legacy.defaultBaseUrl url) "/api/v4" = true
  /\ Legacy.defaultBaseUrl (Some (Legacy.defaultBaseUrl url)) = Legacy.defaultBaseUrl url
  /\ (forall s, Legacy.defaultBaseUrl (Some (s ++ "/api/v4/")) = s ++ "/api/v4/api/v4")
  /\ (forall opts path,
        Legacy.requestUrl opts path = Legacy.defaultBaseUrl (optBaseUrl opts) ++ path).
Proof.
  assert (forall u, endsWith (Legacy.defaultBaseUrl u) "/api/v4" = true) as Hs.
  { intros u. unfold Legacy.defaultBaseUrl. destruct (truthy u); [| reflexivity].
    cbv zeta. destruct (endsWith (default "" u) "/api/v4") eqn:E; [assumption |].
    destruct (endsWith (default "" u) "/") eqn:E'.
    - apply endsWith_spec in E' as [x ->].
      apply endsWith_spec. exists x. now rewrite app_assoc'.
    - apply endsWith_app. }
  split; [apply Hs |]. split; [| split].
  - specialize (Hs url). set (r := Legacy.defaultBaseUrl url) in *.
    unfold Legacy.defaultBaseUrl.
    rewrite truthy_nonempty
      by (apply (endsWith_nonempty _ "/api/v4"); [discriminate | assumption]).
    cbn [default from_option Datatypes.id]. now rewrite Hs.
  - intros s. unfold Legacy.defaultBaseUrl.
    rewrite truthy_nonempty
      by (apply (endsWith_nonempty _ "/api/v4/"); [discriminate | apply endsWith_app]).
    cbn [default from_option Datatypes.id].
    rewrite (endsWith_not _ "/api/v4/" "/api/v4"); [| apply endsWith_app | cbn; lia | reflexivity].
    rewrite (endsWith_trans _ "/api/v4/" "/"); [| apply endsWith_app | reflexivity].
    now rewrite app_assoc'.
  - intros opts path. unfold Legacy.requestUrl. rewrite dropSlash_keeps; [reflexivity |].
    apply (endsWith_not _ "/api/v4"); [apply Hs | cbn; lia | reflexivity].
Qed.

End BaseUrlFacts.

Module RetryFacts.
Import Js GitLabClient Retry GitLabClientFacts.
Local Open Scope Z_scope.

Lemma turn_verdict (c : client) (env : environment) (n : nat) (rt : runtime) :
  fst (turn c env n rt) = verdict c env n.
Proof.
  unfold verdict. destruct (outcome env n) as [status statusText text | err | abortFirst] eqn:Ho.
  - now apply turn_responded.
  - unfold retryable. unfold_turn. rewrite Ho.
    destruct (firesLate env n);
      cbn [fst snd pending nextTimer armed fetches aborted sleeps];
      destruct ((_ || _ || _ || _) && _); reflexivity.
  - unfold_turn. rewrite Ho.
    cbn [fst snd pending nextTimer armed fetches aborted sleeps].
    destruct abortFirst; cbn; destruct (Z.of_nat n <? maxRetries c); reflexivity.
Qed.

(** What a turn does to the counters, fresh timers or not. *)
Lemma turn_counts (c : client) (env : environment) (n : nat) (rt : runtime) :
  fetches (snd (turn c env n rt)) = S (fetches rt)
  /\ aborted (snd (turn c env n rt))
     = (aborted rt + if timerFires env n then 1 else 0)%nat
  /\ sleeps (snd (turn c env n rt))
     = (sleeps rt ++ match verdict c env n with
                     | Continue => [pause env n]
                     | _ => []
                     end)%list.
Proof.
  rewrite <- (turn_verdict c env n rt). unfold timerFires, pause. unfold_turn.
  destruct (outcome env n) as [status statusText text | err | abortFirst];
    cbn [fst snd pending nextTimer armed fetches aborted sleeps];
    split_cases; rewrite ?app_nil_r; repeat split; lia.
Qed.

(** The loop, by the verdicts of its turns. *)
Lemma retryLoop_run (c : client) (env : environment) (fuel : nat) :
  forall (n : nat) (rt : runtime),
    fst (retryLoop fuel c env n rt) = settle fuel c env n
    /\ fetches (snd (retryLoop fuel c env n rt))
       = (fetches rt + attemptsFrom fuel c env n)%nat
    /\ aborted (snd (retryLoop fuel c env n rt))
       = (aborted rt
          + length (filter (fun i => timerFires env i = true)
                           (seq n (attemptsFrom fuel c env n))))%nat
    /\ (settle fuel c env n <> None ->
        sleeps (snd (retryLoop fuel c env n rt))
        = (sleeps rt ++ (pause env <$> seq n (attemptsFrom fuel c env n - 1)))%list).
Proof.
  induction fuel as [|fuel IH]; intros n rt.
  - cbn. rewrite !Nat.add_0_r.
    split; [reflexivity | split; [reflexivity | split; [reflexivity |]]].
    intros H. now destruct H.
  - rewrite retryLoop_S, turn_verdict.
    destruct (turn_counts c env n rt) as (Hf & Ha & Hs).
    cbn [settle attemptsFrom].
    destruct (verdict c env n) as [v | | e] eqn:Hv; cbn [fst snd].
    1, 3: rewrite Hf, Ha, Hs; cbn [seq Nat.sub];
      rewrite filter_cons, filter_nil;
      (destruct (timerFires env n);
        [rewrite decide_True by reflexivity | rewrite decide_False by discriminate]);
      cbn [length];
      (split; [reflexivity | split; [lia | split; [lia | reflexivity]]]).
    destruct (IH (S n) (snd (turn c env n rt))) as (IH1 & IH2 & IH3 & IH4).
    rewrite IH1, IH2, IH3, Hf, Ha. repeat split; [lia | |].
    + cbn [seq]. rewrite filter_cons.
      destruct (timerFires env n);
        [rewrite decide_True by reflexivity | rewrite decide_False by discriminate];
        cbn [length]; lia.
    + intros Hsome. rewrite (IH4 Hsome), Hs, <- app_assoc. f_equal.
      destruct (attemptsFrom fuel c env (S n)) as [|k] eqn:Hk.
      * destruct fuel; [now destruct Hsome |]. cbn in Hk.
        destruct (verdict c env (S n)); discriminate.
      * cbn [Nat.sub seq fmap list_fmap app]. now rewrite Nat.sub_0_r.
Qed.

(** A turn goes on only below [maxRetries]. *)
Lemma verdict_continue (c : client) (env : environment) (n : nat) :
  verdict c env n = Continue -> Z.of_nat n < maxRetries c.
Proof.
  rewrite <- (turn_verdict c env n idle). intros H.
  now destruct (turn_continue c env n idle H).
Qed.

Lemma attemptsFrom_bound (c : client) (env : environment) (fuel : nat) :
  forall n : nat,
    (1 <= fuel)%nat -> (1 <= n)%nat ->
    (1 <= attemptsFrom fuel c env n)%nat
    /\ Z.of_nat n + Z.of_nat (attemptsFrom fuel c env n) - 1
       <= Z.max (Z.of_nat n) (maxRetries c).
Proof.
  induction fuel as [|fuel IH]; intros n Hfuel Hn; [lia |].
  cbn [attemptsFrom]. pose proof (verdict_continue c env n) as Hc.
  destruct (verdict c env n); [lia | | lia].
  specialize (Hc eq_refl). destruct fuel as [|fuel']; [cbn; lia |].
  destruct (IH (S n) ltac:(lia) ltac:(lia)) as [H1 H2]. lia.
Qed.

Lemma settle_total (c : client) (env : environment) (fuel : nat) :
  forall n : nat,
    Z.of_nat n <= Z.max 1 (maxRetries c) ->
    Z.max 1 (maxRetries c) < Z.of_nat n + Z.of_nat fuel ->
    settle fuel c env n <> None.
Proof.
  intros n Hn Hfuel. rewrite <- (proj1 (retryLoop_run c env fuel n idle)).
  now apply retryLoop_total.
Qed.

Lemma pause_range (env : environment) (i : nat) :
  100 * 2 ^ (Z.of_nat i - 1) <= pause env i <= 100 * 2 ^ (Z.of_nat i - 1) + 99.
Proof. unfold pause, backoff. pose proof (jitter_range env i). lia. Qed.

(** X3. Whatever the server and the network do, a request with a valid
    URL ends after at least one and at most [max(1, maxRetries)] fetches,
    and between two fetches it waits once, before attempt [i + 1] for
    [100 * 2^(i-1)] ms and a jitter below 100 ms. *)
Theorem request_attempts_bounded
    (c : client) (env : environment) (path : string) (rt : runtime) :
  newURL env (baseUrl c) (normalizedPath path) <> None ->
  exists k : nat,
    (1 <= k)%nat /\ Z.of_nat k <= Z.max 1 (maxRetries c)
    /\ fst (request c env path rt) <> None
    /\ fetches (snd (request c env path rt)) = (fetches rt + k)%nat
    /\ (aborted (snd (request c env path rt)) <= aborted rt + k)%nat
    /\ sleeps (snd (request c env path rt))
       = (sleeps rt ++ (pause env <$> seq 1 (k - 1)))%list
    /\ forall i : nat,
         100 * 2 ^ (Z.of_nat i - 1) <= pause env i <= 100 * 2 ^ (Z.of_nat i - 1) + 99.
Proof.
  intros Hurl. rewrite (request_loop _ _ _ _ Hurl).
  destruct (retryLoop_run c env (turnsNeeded c) 1 rt) as (H1 & H2 & H3 & H4).
  assert (settle (turnsNeeded c) c env 1 <> None) as Hsome
    by (apply settle_total; unfold turnsNeeded; lia).
  destruct (attemptsFrom_bound c env (turnsNeeded c) 1) as [Hk1 Hk2];
    [unfold turnsNeeded; lia | lia |].
  exists (attemptsFrom (turnsNeeded c) c env 1).
  repeat split; try assumption; try lia.
  - congruence.
  - rewrite H3. pose proof (length_filter (fun i => timerFires env i = true)
                              (seq 1 (attemptsFrom (turnsNeeded c) c env 1))) as Hl.
    rewrite length_seq in Hl. lia.
  - now apply H4.
  - apply pause_range.
  - apply pause_range.
Qed.

Lemma request_attempts_bounded_witness :
  exists k : nat,
    (1 <= k)%nat /\ Z.of_nat k <= 3
    /\ fetches (snd (request defaultClient shakyNetwork "/users" idle)) = k.
Proof.
  destruct (request_attempts_bounded defaultClient shakyNetwork "/users" idle)
    as (k & H1 & H2 & _ & H4 & _); [discriminate |].
  exists k. split; [assumption |]. split; [exact H2 | exact H4].
Defined.

Lemma verdict_transient (c : client) (env : environment) (i : nat) :
  transient (outcome env i) = true -> Z.of_nat i < maxRetries c ->
  verdict c env i = Continue.
Proof.
  unfold verdict, transient. intros Ht Hi.
  assert ((Z.of_nat i <? maxRetries c) = true) as Hlt by lia.
  destruct (outcome env i) as [status statusText text | err | abortFirst].
  - rewrite respond_server_error by (apply orb_true_iff in Ht; lia). now rewrite Hlt.
  - now rewrite Ht, Hlt.
  - now rewrite Hlt.
Qed.

(** [k] turns that go on, then the rest. *)
Lemma run_transients (c : client) (env : environment) (k : nat) :
  forall n fuel : nat,
    (forall i, (n <= i < n + k)%nat -> verdict c env i = Continue) ->
    settle (k + fuel) c env n = settle fuel c env (n + k)
    /\ attemptsFrom (k + fuel) c env n = (k + attemptsFrom fuel c env (n + k))%nat.
Proof.
  induction k as [|k IH]; intros n fuel Hall.
  - now rewrite Nat.add_0_r.
  - cbn [Nat.add settle attemptsFrom]. rewrite (Hall n) by lia.
    destruct (IH (S n) fuel) as [IH1 IH2]; [intros i Hi; apply Hall; lia |].
    rewrite IH1, IH2. replace (S n + k)%nat with (n + S k)%nat by lia. now split.
Qed.

(** The request when the attempts before the last allowed one all go on. *)
Lemma request_after_transients
    (c : client) (env : environment) (path : string) (rt : runtime) :
  1 <= maxRetries c ->
  newURL env (baseUrl c) (normalizedPath path) <> None ->
  (forall i : nat, (1 <= i)%nat -> Z.of_nat i < maxRetries c ->
                   transient (outcome env i) = true) ->
  verdict c env (Z.to_nat (maxRetries c)) <> Continue ->
  fst (request c env path rt)
  = match verdict c env (Z.to_nat (maxRetries c)) with
    | Return v => Some (inr v)
    | Throw e => Some (inl e)
    | Continue => None
    end
  /\ fetches (snd (request c env path rt)) = (fetches rt + Z.to_nat (maxRetries c))%nat
  /\ aborted (snd (request c env path rt))
     = (aborted rt + length (filter (fun i => timerFires env i = true)
                                    (seq 1 (Z.to_nat (maxRetries c)))))%nat
  /\ sleeps (snd (request c env path rt))
     = (sleeps rt ++ (pause env <$> seq 1 (Z.to_nat (maxRetries c) - 1)))%list.
Proof.
  intros Hmax Hurl Hall Hlast. set (last := Z.to_nat (maxRetries c)) in *.
  rewrite (request_loop _ _ _ _ Hurl).
  assert (turnsNeeded c = (last - 1 + 1)%nat) as Hfuel by (unfold turnsNeeded; lia).
  destruct (retryLoop_run c env (turnsNeeded c) 1 rt) as (H1 & H2 & H3 & H4).
  destruct (run_transients c env (last - 1) 1 1) as [Hs Ha].
  { intros i Hi. apply verdict_transient; [apply Hall |]; lia. }
  replace (1 + (last - 1))%nat with last in * by lia.
  rewrite <- Hfuel in Hs, Ha. cbn [settle attemptsFrom] in Hs, Ha.
  assert (attemptsFrom (turnsNeeded c) c env 1 = last) as Hk
    by (rewrite Ha; destruct (verdict c env last); [lia | now destruct Hlast | lia]).
  rewrite Hk in *. rewrite H1, H2, H3, H4, Hs.
  - destruct (verdict c env last); [auto | now destruct Hlast | auto].
  - rewrite Hs. destruct (verdict c env last); [discriminate | now destruct Hlast | discriminate].
Qed.

(** The request when the first attempt settles it. *)
Lemma request_first_verdict
    (c : client) (env : environment) (path : string) (rt : runtime) :
  newURL env (baseUrl c) (normalizedPath path) <> None ->
  verdict c env 1 <> Continue ->
  fst (request c env path rt)
  = match verdict c env 1 with
    | Return v => Some (inr v)
    | Throw e => Some (inl e)
    | Continue => None
    end
  /\ fetches (snd (request c env path rt)) = S (fetches rt)
  /\ aborted (snd (request c env path rt))
     = (aborted rt + if timerFires env 1 then 1 else 0)%nat
  /\ sleeps (snd (request c env path rt)) = sleeps rt.
Proof.
  intros Hurl Hv. rewrite (request_loop _ _ _ _ Hurl).
  assert (exists fuel, turnsNeeded c = S fuel) as [fuel ->]
    by (exists (turnsNeeded c - 1)%nat; unfold turnsNeeded; lia).
  rewrite retryLoop_S, turn_verdict.
  destruct (turn_counts c env 1 rt) as (Hf & Ha & Hs).
  destruct (verdict c env 1); [| now destruct Hv |]; cbn [fst snd];
    rewrite Hf, Ha, Hs, app_nil_r; auto.
Qed.

Lemma filter_all {A} (P : A -> Prop) `{forall x, Decision (P x)} (l : list A) :
  Forall P l -> filter P l = l.
Proof.
  induction 1 as [|x l Hx _ IH]; [reflexivity |].
  now rewrite filter_cons, decide_True, IH.
Qed.

(** X5. When no attempt is answered within [timeoutMs], the request
    throws the timeout (or the abort) of its last attempt after exactly
    [maxRetries] fetches, every one of them aborted, with a pause after each
    but the last, and with no timer left. *)
Theorem request_all_timeouts
    (c : client) (env : environment) (path : string) (rt : runtime) :
  fresh rt ->
  1 <= maxRetries c ->
  newURL env (baseUrl c) (normalizedPath path) <> None ->
  (forall i : nat, (1 <= i)%nat -> Z.of_nat i <= maxRetries c ->
                   exists abortFirst, outcome env i = TimedOut abortFirst) ->
  (fst (request c env path rt) = Some (inl (timeoutError (timeoutMs c)))
   \/ fst (request c env path rt) = Some (inl abortError))
  /\ fetches (snd (request c env path rt)) = (fetches rt + Z.to_nat (maxRetries c))%nat
  /\ aborted (snd (request c env path rt)) = (aborted rt + Z.to_nat (maxRetries c))%nat
  /\ pending (snd (request c env path rt)) = pending rt
  /\ sleeps (snd (request c env path rt))
     = (sleeps rt ++ (pause env <$> seq 1 (Z.to_nat (maxRetries c) - 1)))%list.
Proof.
  intros Hf Hmax Hurl Hall. set (last := Z.to_nat (maxRetries c)).
  destruct (Hall last) as [abortFirst Hlast]; [lia.. |].
  assert (verdict c env last
          = Throw (if abortFirst then abortError else timeoutError (timeoutMs c))) as Hv.
  { unfold verdict. rewrite Hlast.
    assert ((Z.of_nat last <? maxRetries c) = false) as -> by (apply Z.ltb_ge; lia).
    reflexivity. }
  destruct (request_after_transients c env path rt Hmax Hurl) as (H1 & H2 & H3 & H4).
  { intros i Hi1 Hi2. destruct (Hall i) as [ab Ho]; [lia.. |]. now rewrite Ho. }
  { fold last. rewrite Hv. discriminate. }
  fold last in H1, H2, H3, H4. rewrite Hv in H1.
  split; [destruct abortFirst; auto |]. split; [assumption |]. split; [| split; [| assumption]].
  - rewrite H3, filter_all, length_seq; [reflexivity |].
    apply Forall_forall. intros i Hi%elem_of_seq. unfold timerFires.
    destruct (Hall i) as [ab Ho]; [lia.. |]. now rewrite Ho.
  - rewrite (request_loop _ _ _ _ Hurl). now apply retryLoop_effects.
Qed.

Lemma request_all_timeouts_witness :
  fst (request defaultClient deadServer "/projects/1/issues" idle)
  = Some (inl (timeoutError 15000))
  \/ fst (request defaultClient deadServer "/projects/1/issues" idle)
     = Some (inl abortError).
Proof.
  refine (proj1 (request_all_timeouts defaultClient deadServer "/projects/1/issues" idle
                   _ _ _ _)).
  - constructor.
  - cbn. lia.
  - discriminate.
  - intros i _ _. now exists false.
Defined.

(** X4. Failures that the client retries - a 429 or 5xx answer, a
    reset connection or a failed lookup, a timeout - on every attempt before
    the last allowed one do not fail the request: when that one is answered
    with 2xx and a JSON body, the request returns the parsed body, after
    exactly [maxRetries] fetches. *)
Theorem request_recovers
    (c : client) (env : environment) (path : string) (rt : runtime)
    (status : Z) (statusText text : string) (v : value) :
  1 <= maxRetries c ->
  newURL env (baseUrl c) (normalizedPath path) <> None ->
  (forall i : nat, (1 <= i)%nat -> Z.of_nat i < maxRetries c ->
                   transient (outcome env i) = true) ->
  outcome env (Z.to_nat (maxRetries c)) = Responded status statusText (Some text) ->
  200 <= status < 300 ->
  text <> "" ->
  jsonParse env text = Some v ->
  fst (request c env path rt) = Some (inr v)
  /\ fetches (snd (request c env path rt)) = (fetches rt + Z.to_nat (maxRetries c))%nat
  /\ sleeps (snd (request c env path rt))
     = (sleeps rt ++ (pause env <$> seq 1 (Z.to_nat (maxRetries c) - 1)))%list.
Proof.
  intros Hmax Hurl Hall Hlast Hs Ht Hj.
  assert (verdict c env (Z.to_nat (maxRetries c)) = Return v) as Hv.
  { unfold verdict. rewrite Hlast. unfold respond. cbn [default from_option Datatypes.id].
    assert ((200 <=? status) && (status <? 300) = true) as -> by lia.
    apply String.eqb_neq in Ht. now rewrite Ht, Hj. }
  destruct (request_after_transients c env path rt Hmax Hurl Hall) as (H1 & H2 & _ & H4).
  { rewrite Hv. discriminate. }
  rewrite Hv in H1. auto.
Qed.

Lemma request_recovers_witness :
  fst (request defaultClient shakyNetwork "/users" idle) = Some (inr (Array [])).
Proof.
  refine (proj1 (request_recovers defaultClient shakyNetwork "/users" idle
                   200 "OK" "[]" (Array []) _ _ _ _ _ _ _)).
  - cbn. lia.
  - discriminate.
  - intros i Hi1 Hi2. cbn in Hi2.
    assert (i = 1 \/ i = 2)%nat as [-> | ->] by lia; reflexivity.
  - reflexivity.
  - lia.
  - discriminate.
  - reflexivity.
Defined.

(** X6. A network failure that is neither an abort or timeout nor
    carries the code ECONNRESET or ENOTFOUND is not retried: the request
    throws that error after one fetch and without waiting, whatever
    [maxRetries] is. *)
Theorem request_network_error_not_retried
    (c : client) (env : environment) (path : string) (rt : runtime) (err : error) :
  newURL env (baseUrl c) (normalizedPath path) <> None ->
  outcome env 1 = FetchFailed err ->
  retryable err = false ->
  fst (request c env path rt) = Some (inl err)
  /\ fetches (snd (request c env path rt)) = S (fetches rt)
  /\ sleeps (snd (request c env path rt)) = sleeps rt.
Proof.
  intros Hurl Ho Hr.
  assert (verdict c env 1 = Throw err) as Hv by (unfold verdict; now rewrite Ho, Hr).
  destruct (request_first_verdict c env path rt Hurl) as (H1 & H2 & _ & H4).
  { rewrite Hv. discriminate. }
  rewrite Hv in H1. auto.
Qed.

Lemma request_network_error_not_retried_witness :
  fetches (snd (request defaultClient badCertificate "/users" idle)) = 1%nat.
Proof.
  refine (proj1 (proj2 (request_network_error_not_retried defaultClient badCertificate
                          "/users" idle _ _ _ _))).
  - discriminate.
  - reflexivity.
  - reflexivity.
Defined.

(** X7. A 2xx answer ends the request at once: an empty or unreadable
    body gives [undefined], a JSON body its value, and a body that does not
    parse makes the request throw the SyntaxError without another attempt. *)
Theorem request_success_body
    (c : client) (env : environment) (path : string) (rt : runtime)
    (status : Z) (statusText : string) (text : option string) :
  newURL env (baseUrl c) (normalizedPath path) <> None ->
  outcome env 1 = Responded status statusText text ->
  200 <= status < 300 ->
  fst (request c env path rt)
  = Some (if String.eqb (default "" text) "" then inr Undefined
          else match jsonParse env (default "" text) with
               | Some v => inr v
               | None => inl (SyntaxError "Unexpected token in JSON")
               end)
  /\ fetches (snd (request c env path rt)) = S (fetches rt)
  /\ sleeps (snd (request c env path rt)) = sleeps rt.
Proof.
  intros Hurl Ho Hs.
  assert (verdict c env 1
          = if String.eqb (default "" text) "" then Return Undefined
            else match jsonParse env (default "" text) with
                 | Some v => Return v
                 | None => Throw (SyntaxError "Unexpected token in JSON")
                 end) as Hv.
  { unfold verdict. rewrite Ho. unfold respond.
    now assert ((200 <=? status) && (status <? 300) = true) as -> by lia. }
  destruct (request_first_verdict c env path rt Hurl) as (H1 & H2 & _ & H4).
  { rewrite Hv. destruct (String.eqb _ _); [discriminate |].
    destruct (jsonParse _ _); discriminate. }
  rewrite Hv in H1. split; [| auto].
  rewrite H1. destruct (String.eqb _ _); [reflexivity |].
  now destruct (jsonParse _ _).
Qed.

Lemma request_success_body_witness :
  fst (request defaultClient htmlServer "/users" idle)
  = Some (inl (SyntaxError "Unexpected token in JSON")).
Proof.
  refine (proj1 (request_success_body defaultClient htmlServer "/users" idle
                   200 "OK" (Some "<html>") _ _ _)).
  - discriminate.
  - reflexivity.
  - lia.
Defined.

(** *** The earlier client *)

Ltac unfold_legacy_turn :=
  unfold GitLabClient.Legacy.turn, tryCatch, GitLabClient.Legacy.tryBody,
    GitLabClient.Legacy.catchBody, lateFire, timerFired,
    bind, ret, armTimer, fireTimer, startFetch, abortFetch, sleep, dropTimer, hasCode;
  cbn [fst snd pending nextTimer armed fetches aborted sleeps].

Lemma legacy_turn_verdict (c : client) (env : environment) (n : nat) (rt : runtime) :
  fst (GitLabClient.Legacy.turn c env n rt) = Legacy.verdict c env n.
Proof.
  unfold Legacy.verdict.
  destruct (outcome env n) as [status statusText text | err | abortFirst] eqn:Ho.
  - now apply legacy_turn_responded.
  - unfold Legacy.retryable.
    unfold_legacy_turn. rewrite Ho.
    destruct (firesLate env n);
      cbn [fst snd pending nextTimer armed fetches aborted sleeps];
      destruct ((_ || _ || _) && _); reflexivity.
  - unfold_legacy_turn. rewrite Ho.
    cbn. destruct (Z.of_nat n <? maxRetries c); reflexivity.
Qed.

Lemma legacy_turn_state (c : client) (env : environment) (n : nat) (rt : runtime) :
  fetches (snd (GitLabClient.Legacy.turn c env n rt)) = S (fetches rt)
  /\ nextTimer (snd (GitLabClient.Legacy.turn c env n rt)) = S (nextTimer rt)
  /\ aborted (snd (GitLabClient.Legacy.turn c env n rt))
     = (aborted rt + if timerFires env n then 1 else 0)%nat
  /\ sleeps (snd (GitLabClient.Legacy.turn c env n rt))
     = (sleeps rt ++ match Legacy.verdict c env n with
                     | Continue => [pause env n]
                     | _ => []
                     end)%list
  /\ (timerFires env n = false ->
      pending (snd (GitLabClient.Legacy.turn c env n rt)) = nextTimer rt :: pending rt).
Proof.
  rewrite <- (legacy_turn_verdict c env n rt). unfold timerFires, pause.
  unfold_legacy_turn.
  destruct (outcome env n) as [status statusText text | err | abortFirst];
    cbn [fst snd pending nextTimer armed fetches aborted sleeps];
    split_cases; rewrite ?app_nil_r;
    (split; [reflexivity | split; [reflexivity | split; [lia | split; [reflexivity |]]]]);
    intros Hno; (discriminate Hno || reflexivity).
Qed.

Lemma legacy_verdict_common (c : client) (env : environment) (n : nat) :
  Legacy.common (outcome env n) = true -> Legacy.verdict c env n = verdict c env n.
Proof.
  unfold Legacy.common, Legacy.verdict, verdict, Legacy.retryable, retryable.
  destruct (outcome env n) as [status statusText text | err | abortFirst]; intros H.
  - reflexivity.
  - apply negb_true_iff in H. now rewrite H, orb_false_r.
  - now subst.
Qed.

(** The loop of the earlier client, by its verdicts. *)
Lemma legacy_retryLoop_run (c : client) (env : environment) (fuel : nat) :
  forall (n : nat) (rt : runtime),
    (forall i, Legacy.common (outcome env i) = true) ->
    fst (GitLabClient.Legacy.retryLoop fuel c env n rt) = settle fuel c env n
    /\ fetches (snd (GitLabClient.Legacy.retryLoop fuel c env n rt))
       = (fetches rt + attemptsFrom fuel c env n)%nat
    /\ aborted (snd (GitLabClient.Legacy.retryLoop fuel c env n rt))
       = (aborted rt
          + length (filter (fun i => timerFires env i = true)
                           (seq n (attemptsFrom fuel c env n))))%nat
    /\ (settle fuel c env n <> None ->
        sleeps (snd (GitLabClient.Legacy.retryLoop fuel c env n rt))
        = (sleeps rt ++ (pause env <$> seq n (attemptsFrom fuel c env n - 1)))%list).
Proof.
  intros n rt Hcommon. revert n rt.
  induction fuel as [|fuel IH]; intros n rt.
  - cbn. rewrite !Nat.add_0_r.
    split; [reflexivity | split; [reflexivity | split; [reflexivity |]]].
    intros H. now destruct H.
  - rewrite legacy_retryLoop_S, legacy_turn_verdict.
    destruct (legacy_turn_state c env n rt) as (Hf & _ & Ha & Hs & _).
    rewrite (legacy_verdict_common c env n (Hcommon n)) in *.
    cbn [settle attemptsFrom].
    destruct (verdict c env n) as [v | | e] eqn:Hv; cbn [fst snd].
    1, 3: rewrite Hf, Ha, Hs; cbn [seq Nat.sub];
      rewrite filter_cons, filter_nil;
      (destruct (timerFires env n);
        [rewrite decide_True by reflexivity | rewrite decide_False by discriminate]);
      cbn [length];
      (split; [reflexivity | split; [lia | split; [lia | reflexivity]]]).
    destruct (IH (S n) (snd (GitLabClient.Legacy.turn c env n rt))) as (IH1 & IH2 & IH3 & IH4).
    rewrite IH1, IH2, IH3, Hf, Ha. repeat split; [lia | |].
    + cbn [seq]. rewrite filter_cons.
      destruct (timerFires env n);
        [rewrite decide_True by reflexivity | rewrite decide_False by discriminate];
        cbn [length]; lia.
    + intros Hsome. rewrite (IH4 Hsome), Hs, <- app_assoc. f_equal.
      destruct (attemptsFrom fuel c env (S n)) as [|k] eqn:Hk.
      * destruct fuel; [now destruct Hsome |]. cbn in Hk.
        destruct (verdict c env (S n)); discriminate.
      * cbn [Nat.sub seq fmap list_fmap app]. now rewrite Nat.sub_0_r.
Qed.

(** The loops ask nothing about the URL. *)
Lemma retryLoop_resolving (parse : string -> option string)
    (c : client) (env : environment) (fuel : nat) :
  forall (n : nat) (rt : runtime),
    retryLoop fuel c (BaseUrl.resolving parse env) n rt = retryLoop fuel c env n rt.
Proof.
  induction fuel as [|fuel IH]; intros n rt; [reflexivity |].
  rewrite !retryLoop_S.
  change (turn c (BaseUrl.resolving parse env) n rt) with (turn c env n rt).
  destruct (fst (turn c env n rt)); [reflexivity | apply IH | reflexivity].
Qed.

Lemma legacy_retryLoop_resolving (parse : string -> option string)
    (c : client) (env : environment) (fuel : nat) :
  forall (n : nat) (rt : runtime),
    GitLabClient.Legacy.retryLoop fuel c (BaseUrl.Legacy.resolving parse env) n rt
    = GitLabClient.Legacy.retryLoop fuel c env n rt.
Proof.
  induction fuel as [|fuel IH]; intros n rt; [reflexivity |].
  rewrite !legacy_retryLoop_S.
  change (GitLabClient.Legacy.turn c (BaseUrl.Legacy.resolving parse env) n rt)
    with (GitLabClient.Legacy.turn c env n rt).
  destruct (fst (GitLabClient.Legacy.turn c env n rt));
    [reflexivity | apply IH | reflexivity].
Qed.

(** Each client hands its own text to [new URL]. *)
Lemma request_resolving (parse : string -> option string)
    (opts : GitLabClientOptions) (env : environment) (path : string) (rt : runtime) :
  request (newClient opts) (BaseUrl.resolving parse env) path rt
  = match parse (BaseUrl.requestUrl opts path) with
    | None => (Some (inl (TypeError "Invalid URL")), rt)
    | Some _ => retryLoop (turnsNeeded (newClient opts)) (newClient opts) env 1 rt
    end.
Proof.
  unfold request, BaseUrl.requestUrl. cbn [newURL BaseUrl.resolving baseUrl newClient].
  destruct (parse _); [apply retryLoop_resolving | reflexivity].
Qed.

Lemma legacy_request_resolving (parse : string -> option string)
    (opts : GitLabClientOptions) (env : environment) (path : string) (rt : runtime) :
  GitLabClient.Legacy.request (newClient opts) (BaseUrl.Legacy.resolving parse env) path rt
  = match parse (BaseUrl.Legacy.requestUrl opts path) with
    | None => (Some (inl (TypeError "Invalid URL")), rt)
    | Some _ =>
        GitLabClient.Legacy.retryLoop (turnsNeeded (newClient opts)) (newClient opts) env 1 rt
    end.
Proof.
  unfold GitLabClient.Legacy.request, BaseUrl.Legacy.requestUrl.
  cbn [newURL BaseUrl.Legacy.resolving baseUrl newClient].
  destruct (parse _); [apply legacy_retryLoop_resolving | reflexivity].
Qed.

(** A base that is unset, or that is already an API root without blanks
    around it, and a path that starts with a slash: then both clients build
    the same URL text. *)
Lemma requestUrl_agrees (opts : GitLabClientOptions) (path : string) :
  normalizedPath path = path ->
  (optBaseUrl opts = None
   \/ exists r, optBaseUrl opts = Some r
                /\ Text.endsWith r "/api/v4" = true
                /\ Text.afterWhite Text.whiteSpace r = None) ->
  BaseUrl.Legacy.requestUrl opts path = BaseUrl.requestUrl opts path.
Proof.
  intros Hp Hbase. unfold BaseUrl.Legacy.requestUrl, BaseUrl.requestUrl.
  rewrite Hp. f_equal.
  destruct Hbase as [-> | (r & -> & He & Hw)]; [reflexivity |].
  rewrite (BaseUrlFacts.defaultBaseUrl_fixed r He Hw).
  assert (BaseUrl.Legacy.defaultBaseUrl (Some r) = r) as ->.
  { unfold BaseUrl.Legacy.defaultBaseUrl.
    rewrite BaseUrlFacts.truthy_nonempty
      by (apply (BaseUrlFacts.endsWith_nonempty _ "/api/v4"); [discriminate | assumption]).
    cbn [default from_option Datatypes.id]. now rewrite He. }
  apply BaseUrlFacts.dropSlash_keeps.
  apply (BaseUrlFacts.endsWith_not _ "/api/v4"); [assumption | cbn; lia | reflexivity].
Qed.

(** X10. Let [new URL] be any parser of URL texts, each client handing it
    the text it builds itself from the configured base and the path.
    Whenever the two texts are the same, and as long as no await ends in a
    way that only the later client knows (its own TimeoutError), the two
    clients return or throw the same, after as many fetches, as many of them
    aborted, and the same pauses. *)
Theorem legacy_request_agrees
    (opts : GitLabClientOptions) (parse : string -> option string)
    (env : environment) (path : string) (rt : runtime) :
  BaseUrl.Legacy.requestUrl opts path = BaseUrl.requestUrl opts path ->
  (forall i, Legacy.common (outcome env i) = true) ->
  fst (GitLabClient.Legacy.request (newClient opts)
         (BaseUrl.Legacy.resolving parse env) path rt)
  = fst (request (newClient opts) (BaseUrl.resolving parse env) path rt)
  /\ fetches (snd (GitLabClient.Legacy.request (newClient opts)
                     (BaseUrl.Legacy.resolving parse env) path rt))
     = fetches (snd (request (newClient opts) (BaseUrl.resolving parse env) path rt))
  /\ aborted (snd (GitLabClient.Legacy.request (newClient opts)
                     (BaseUrl.Legacy.resolving parse env) path rt))
     = aborted (snd (request (newClient opts) (BaseUrl.resolving parse env) path rt))
  /\ sleeps (snd (GitLabClient.Legacy.request (newClient opts)
                    (BaseUrl.Legacy.resolving parse env) path rt))
     = sleeps (snd (request (newClient opts) (BaseUrl.resolving parse env) path rt)).
Proof.
  intros Hurl Hcommon.
  rewrite legacy_request_resolving, request_resolving, Hurl.
  destruct (parse (BaseUrl.requestUrl opts path)); [| now cbn].
  set (c := newClient opts).
  destruct (legacy_retryLoop_run c env (turnsNeeded c) 1 rt Hcommon) as (L1 & L2 & L3 & L4).
  destruct (retryLoop_run c env (turnsNeeded c) 1 rt) as (N1 & N2 & N3 & N4).
  assert (settle (turnsNeeded c) c env 1 <> None) as Hsome
    by (apply settle_total; unfold turnsNeeded; lia).
  rewrite L1, L2, L3, L4, N1, N2, N3, N4 by assumption. auto.
Qed.

Lemma legacy_request_agrees_witness :
  fst (GitLabClient.Legacy.request
         (newClient {| optBaseUrl := Some "https://gitlab.example.com/api/v4";
                       optToken := "t"; optTimeoutMs := None; optMaxRetries := None |})
         (BaseUrl.Legacy.resolving Some flakyServer) "/projects/1/issues/2" idle)
  = fst (request
           (newClient {| optBaseUrl := Some "https://gitlab.example.com/api/v4";
                         optToken := "t"; optTimeoutMs := None; optMaxRetries := None |})
           (BaseUrl.resolving Some flakyServer) "/projects/1/issues/2" idle).
Proof.
  refine (proj1 (legacy_request_agrees
                   {| optBaseUrl := Some "https://gitlab.example.com/api/v4";
                      optToken := "t"; optTimeoutMs := None; optMaxRetries := None |}
                   Some flakyServer "/projects/1/issues/2" idle _ _)).
  - vm_compute. reflexivity.
  - intros i. unfold flakyServer. cbn [outcome]. now destruct (i <? 3)%nat.
Defined.

(** The timers of the earlier client stay. *)
Lemma legacy_retryLoop_pending (c : client) (env : environment) (fuel : nat) :
  forall (n : nat) (rt : runtime),
    (forall i, timerFires env i = false) ->
    exists k : nat,
      ((fuel = 0)%nat \/ (1 <= k)%nat)
      /\ fetches (snd (GitLabClient.Legacy.retryLoop fuel c env n rt)) = (fetches rt + k)%nat
      /\ pending (snd (GitLabClient.Legacy.retryLoop fuel c env n rt))
         = (rev (seq (nextTimer rt) k) ++ pending rt)%list.
Proof.
  intros n rt Hno. revert n rt.
  induction fuel as [|fuel IH]; intros n rt.
  - exists 0%nat. cbn. split; [now left | split; [lia | reflexivity]].
  - rewrite legacy_retryLoop_S.
    destruct (legacy_turn_state c env n rt) as (Hf & Hn & _ & _ & Hp).
    specialize (Hp (Hno n)).
    destruct (fst (GitLabClient.Legacy.turn c env n rt)) as [v | | e]; cbn [fst snd].
    1, 3: exists 1%nat; cbn [seq rev app]; split; [right; lia | split; [lia | assumption]].
    destruct (IH (S n) (snd (GitLabClient.Legacy.turn c env n rt))) as (k & _ & Hk1 & Hk2).
    exists (S k). split; [right; lia |]. split; [lia |].
    rewrite Hk2, Hp, Hn. cbn [seq rev]. now rewrite <- app_assoc.
Qed.

(** X11. In the earlier client every attempt whose timer does not fire
    leaves that timer behind: when none fires, a request that makes [k]
    fetches returns with [k] more timers pending. *)
Theorem legacy_request_leaves_every_timer
    (c : client) (env : environment) (path : string) (rt : runtime) :
  newURL env (baseUrl c) path <> None ->
  (forall i, timerFires env i = false) ->
  exists k : nat,
    (1 <= k)%nat
    /\ fetches (snd (GitLabClient.Legacy.request c env path rt)) = (fetches rt + k)%nat
    /\ pending (snd (GitLabClient.Legacy.request c env path rt))
       = (rev (seq (nextTimer rt) k) ++ pending rt)%list.
Proof.
  intros Hurl Hno. unfold GitLabClient.Legacy.request.
  destruct (newURL env (baseUrl c) path); [| contradiction].
  destruct (legacy_retryLoop_pending c env (turnsNeeded c) 1 rt Hno) as (k & Hk & H1 & H2).
  exists k. split; [| now split].
  destruct Hk as [Hk | Hk]; [unfold turnsNeeded in Hk; lia | assumption].
Qed.

Lemma legacy_request_leaves_every_timer_witness :
  exists k : nat,
    (1 <= k)%nat
    /\ pending (snd (GitLabClient.Legacy.request defaultClient notFoundServer "/users" idle))
       = (rev (seq 0 k) ++ [])%list.
Proof.
  destruct (legacy_request_leaves_every_timer defaultClient notFoundServer "/users" idle)
    as (k & H1 & _ & H3); [discriminate | reflexivity |].
  exists k. split; [exact H1 | exact H3].
Defined.

End RetryFacts.

Module PluginLoadingFacts.
Import PluginRegistry PluginLoading PluginRegistryFacts.

Section MoreRegistryFacts.
Context {Instance : Type}.
Implicit Types (plugins : PluginMap Instance) (plugin : PluginModule Instance)
  (e : entry Instance).

Lemma reachable_invariant plugins :
  reachable plugins -> keysOk plugins /\ NoDup (fst <$> plugins).
Proof.
  induction 1 as [|plugins plugin config _ [Hk Hnd]].
  - split; constructor.
  - unfold register. destruct (create plugin config); cbn [snd]; [now split |].
    split; [now apply keysOk_mapSet | now apply NoDup_mapSet].
Qed.

Lemma length_mapSet key e plugins :
  mapGet key plugins <> None -> length (mapSet key e plugins) = length plugins.
Proof.
  induction plugins as [|[k v] rest IH]; cbn [mapGet mapSet]; [contradiction |].
  destruct (String.eqb k key); [reflexivity |]. intros H. cbn [length]. now rewrite IH.
Qed.

Lemma mapGet_keys key plugins :
  mapGet key plugins <> None <-> key ∈ (fst <$> plugins).
Proof.
  induction plugins as [|[k v] rest IH]; cbn [mapGet fmap list_fmap fst].
  - split; [contradiction | intros H; now apply elem_of_nil in H].
  - destruct (String.eqb_spec k key) as [-> | Hne].
    + split; [intros _; now left | discriminate].
    + rewrite IH. split; [now right |].
      intros [Heq | Hin]%elem_of_cons; [congruence | assumption].
Qed.

(** X13. Registering under a slot and name that are bound already
    replaces the instance where it stands: the key keeps its place, no entry
    is added, [get] returns the new instance and every other binding is as
    before; and when the factory throws, [register] throws and the registry
    is what it was. *)
Theorem register_again_replaces plugins plugin config (instance : Instance) e0 :
  mapGet (keyOf plugin) plugins = Some e0 ->
  create plugin config = inr instance ->
  fst (get (slot (manifest plugin)) (name (manifest plugin))
         (snd (register plugin config plugins))) = Some instance
  /\ fst <$> snd (register plugin config plugins) = fst <$> plugins
  /\ (forall key, key <> keyOf plugin ->
                  mapGet key (snd (register plugin config plugins)) = mapGet key plugins)
  /\ (forall plugin' config' err,
        create plugin' config' = inl err ->
        register plugin' config' plugins = (inl err, plugins)).
Proof.
  intros Hbound Hcreate. split; [| split; [| split]].
  - now rewrite (get_register plugins plugin config instance Hcreate).
  - unfold register. rewrite Hcreate. cbn [snd]. rewrite keys_mapSet.
    rewrite bool_decide_eq_true_2; [reflexivity |].
    apply mapGet_keys. unfold keyOf in Hbound. now rewrite Hbound.
  - intros key Hne. unfold register. rewrite Hcreate. cbn [snd].
    apply mapGet_mapSet_ne. intros Heq. apply Hne. now rewrite <- Heq.
  - intros plugin' config' err Herr. unfold register. now rewrite Herr.
Qed.

Lemma sublist_keys_filter (P : string * entry Instance -> Prop)
    `{forall kv, Decision (P kv)} plugins :
  NoDup (fst <$> plugins) -> NoDup (fst <$> filter P plugins).
Proof.
  intros Hnd. eapply sublist_NoDup; [exact Hnd |].
  apply fmap_sublist, sublist_filter.
Qed.

(** X14. In a registry that grew by [register], [list] and [get]
    tell the same: a manifest listed under a slot belongs to that slot and
    [get] of the slot and its name finds an instance; what [get] finds is
    listed under its slot with that name; and no name is listed twice under
    a slot. *)
Theorem reachable_list_get plugins :
  reachable plugins ->
  (forall s m, m ∈ fst (list_ s plugins) ->
               slot m = s /\ exists instance, fst (get s (name m) plugins) = Some instance)
  /\ (forall s n instance,
        fst (get s n plugins) = Some instance ->
        exists m, m ∈ fst (list_ s plugins) /\ name m = n /\ slot m = s)
  /\ (forall s, NoDup (name <$> fst (list_ s plugins))).
Proof.
  intros [Hk Hnd]%reachable_invariant.
  assert (forall kv, kv ∈ plugins ->
                     fst kv = makeKey (slot (entryManifest (snd kv)))
                                      (name (entryManifest (snd kv)))) as Hall
    by (now apply Forall_forall).
  split; [| split].
  - intros s m (n & instance & Hget)%(list_bound _ _ _ Hk Hnd).
    pose proof Hget as Hin. apply (mapGet_elem _ _ _ Hnd) in Hin.
    pose proof (Hall _ Hin) as Hkey. cbn [fst snd entryManifest] in Hkey.
    apply makeKey_inj in Hkey as [<- <-]. split; [reflexivity |].
    exists instance. unfold get. cbn [fst]. now rewrite Hget.
  - intros s n instance Hget. unfold get in Hget. cbn [fst] in Hget.
    destruct (mapGet (makeKey s n) plugins) as [[m i]|] eqn:E; [| discriminate].
    exists m. pose proof E as Hin. apply (mapGet_elem _ _ _ Hnd) in Hin.
    pose proof (Hall _ Hin) as Hkey. cbn [fst snd entryManifest] in Hkey.
    apply makeKey_inj in Hkey as [Hs Hn]. split; [| now split].
    apply (list_bound _ _ _ Hk Hnd). now exists n, i.
  - intros s. unfold list_. cbn [fst].
    set (F := filter (fun kv => String.prefix (slotName s ++ ":") (fst kv) = true) plugins).
    assert (NoDup (fst <$> F)) as HF by now apply sublist_keys_filter.
    assert (fst <$> F
            = makeKey s <$> (name <$> (entryManifest <$> (snd <$> F)))) as Hkeys.
    { rewrite <- !list_fmap_compose. apply list_fmap_ext.
      intros _ [k e] [Hp Hin]%list_elem_of_lookup_2%list_elem_of_filter.
      cbn [fst snd compose] in *.
      specialize (Hall _ Hin). cbn [fst snd] in Hall. subst k.
      rewrite prefix_makeKey in Hp. apply bool_decide_eq_true in Hp. now subst s. }
    rewrite Hkeys in HF. now apply NoDup_fmap_1 in HF.
Qed.

End MoreRegistryFacts.

Section MoreLoadFacts.
Context {Instance : Type}.
Variable importPkg : string -> Js.result (ImportedModule Instance).
Variable orchestratorConfig : option OrchestratorConfig.
Implicit Types (plugins : PluginMap Instance) (b : builtin).

Lemma loadBuiltin_unusable b plugins :
  usable importPkg orchestratorConfig b = false ->
  loadBuiltin importPkg orchestratorConfig b plugins = (inr tt, plugins).
Proof.
  unfold usable, loadBuiltin, register, configFor.
  destruct (importPkg (pkg b)) as [err | mod_]; [reflexivity |].
  destruct (modManifest mod_) as [m|]; [| reflexivity].
  destruct (modCreate mod_) as [c|]; [| reflexivity]. cbn [create manifest].
  destruct (c _); [reflexivity | discriminate].
Qed.

Lemma loadAll_usable bs : forall plugins,
  loadAll importPkg orchestratorConfig bs plugins
  = loadAll importPkg orchestratorConfig
      (filter (fun b => usable importPkg orchestratorConfig b = true) bs) plugins.
Proof.
  induction bs as [|b bs IH]; intros plugins; [reflexivity |].
  rewrite loadAll_cons.
  destruct (usable importPkg orchestratorConfig b) eqn:E.
  - rewrite filter_cons_True by assumption. rewrite loadAll_cons. apply IH.
  - rewrite filter_cons_False by (rewrite E; discriminate).
    rewrite (loadBuiltin_unusable _ _ E). apply IH.
Qed.

Lemma length_loadBuiltin b plugins :
  (length (snd (loadBuiltin importPkg orchestratorConfig b plugins))
   <= S (length plugins))%nat.
Proof.
  unfold loadBuiltin, register.
  destruct (importPkg (pkg b)) as [err | mod_]; cbn [snd]; [lia |].
  destruct (modManifest mod_) as [m|]; cbn [snd]; [| lia].
  destruct (modCreate mod_) as [c|]; cbn [snd]; [| lia]. cbn [create manifest].
  destruct (c _); cbn [snd]; [lia |].
  match goal with |- context [mapSet ?k ?e plugins] =>
    pose proof (f_equal (@length _) (keys_mapSet k e plugins)) as Hl end.
  rewrite length_fmap in Hl. rewrite Hl.
  case_bool_decide; rewrite ?length_app, !length_fmap; cbn [length]; lia.
Qed.

Lemma length_loadAll bs : forall plugins,
  (length (snd (loadAll importPkg orchestratorConfig bs plugins))
   <= length plugins + length bs)%nat.
Proof.
  induction bs as [|b bs IH]; intros plugins; [cbn; lia |].
  rewrite loadAll_cons. specialize (IH (snd (loadBuiltin importPkg orchestratorConfig b plugins))).
  pose proof (length_loadBuiltin b plugins). cbn [length]. lia.
Qed.

(** X15. [loadBuiltins] passes over every builtin that does not give an
    instance - the package is missing, it exports no manifest or no factory,
    or the factory throws - as if it were not in the list: it does what
    loading the other builtins alone does, and it adds at most one entry for
    each of those. *)
Theorem loadBuiltins_skips_unusable plugins :
  loadBuiltins importPkg orchestratorConfig plugins
  = loadAll importPkg orchestratorConfig
      (filter (fun b => usable importPkg orchestratorConfig b = true) BUILTIN_PLUGINS)
      plugins
  /\ (length (snd (loadBuiltins importPkg orchestratorConfig plugins))
      <= length plugins
         + length (filter (fun b => usable importPkg orchestratorConfig b = true)
                          BUILTIN_PLUGINS))%nat
  /\ (length (filter (fun b => usable importPkg orchestratorConfig b = true)
                     BUILTIN_PLUGINS) <= 15)%nat.
Proof.
  unfold loadBuiltins. split; [apply loadAll_usable |]. split.
  - rewrite loadAll_usable. apply length_loadAll.
  - apply (length_filter (fun b => usable importPkg orchestratorConfig b = true)
             BUILTIN_PLUGINS).
Qed.

End MoreLoadFacts.

Lemma register_again_replaces_witness :
  fst (get SlotTracker "gitlab"
         (snd (register (gitlabModule 8) None
                 (snd (register (gitlabModule 7) None [])))))
  = Some 8%nat.
Proof.
  refine (proj1 (register_again_replaces
                   (snd (register (gitlabModule 7) None []))
                   (gitlabModule 8) None 8%nat
                   {| entryManifest := gitlabManifest; entryInstance := 7%nat |} _ _)).
  - reflexivity.
  - reflexivity.
Defined.

Lemma reachable_list_get_witness :
  NoDup (name <$> fst (list_ SlotTracker (snd (register (gitlabModule 7) None [])))).
Proof.
  refine (proj2 (proj2 (reachable_list_get (snd (register (gitlabModule 7) None [])) _))
            SlotTracker).
  apply reachable_register. apply reachable_new.
Defined.

Example loadBuiltins_broken_packages :
  loadBuiltins brokenPackages None []
  = (inr tt, [("scm:github", {| entryManifest := githubManifest; entryInstance := 1%nat |})]).
Proof. vm_compute. reflexivity. Qed.

End PluginLoadingFacts.

Module TrackerOpsFacts.
Import Js Text Tracker TrackerOps TextFacts.

Example issueUrl_example :
  issueUrl (textPlatform (fun s => Some s)) (fun _ => Some "http://gitlab.local:8080")
    "http://gitlab.local:8080/api/v4" "#42" {| repo := Some "group/my project" |}
  = "http://gitlab.local:8080/group/my%20project/-/issues/42".
Proof. vm_compute. reflexivity. Qed.

Example legacy_issueUrl_example :
  Legacy.issueUrl "http://gitlab.local:8080/api/v4" "#42" {| repo := Some "group/project" |}
  = "https://gitlab.local:8080/group/project/-/issues/42".
Proof. vm_compute. reflexivity. Qed.

Example updateIssue_example :
  updateIssue (textPlatform (fun s => Some s)) labelledServer "#42"
    {| updState := Some "closed"; updLabels := Some ["ui"; "urgent"];
       updAssignee := None; updComment := Some "done" |}
    {| repo := Some "group/project" |}
  = ([GetIssue "/projects/group%2Fproject/issues/42";
      PostNote "/projects/group%2Fproject/issues/42/notes" "done";
      PutIssue "/projects/group%2Fproject/issues/42"
        {| stateEvent := Some "close"; putLabels := Some "bug,ui,urgent";
           putAssigneeIds := None |}],
     inr tt).
Proof. vm_compute. reflexivity. Qed.

(** *** Creation *)

(** X16. [createGitLabTracker] takes the token of the configuration
    and, only when the configuration has none, the one of the environment;
    it throws exactly when the token it takes is missing or empty - so an
    empty configured token is not made up for by the environment - and
    otherwise builds a client with that token and the defaults of 15000 ms
    and 3 attempts. *)
Theorem createGitLabTracker_token (cfg : GitLabPluginConfig) (envToken : option string) :
  (createGitLabTracker cfg envToken = inl tokenRequired
   <-> cfgToken cfg = Some "" \/ (cfgToken cfg = None /\ truthy envToken = false))
  /\ (forall c, createGitLabTracker cfg envToken = inr c ->
        GitLabClient.token c <> ""
        /\ (cfgToken cfg = Some (GitLabClient.token c)
            \/ (cfgToken cfg = None /\ envToken = Some (GitLabClient.token c)))
        /\ GitLabClient.baseUrl c = cfgBaseUrl cfg
        /\ GitLabClient.timeoutMs c = default 15000%Z (cfgTimeoutMs cfg)
        /\ GitLabClient.maxRetries c = default 3%Z (cfgMaxRetries cfg)).
Proof.
  unfold createGitLabTracker.
  destruct (cfgToken cfg) as [t|]; cbn [orElse].
  - destruct (String.eqb_spec t "") as [-> | Hne]; cbn [truthy].
    + rewrite String.eqb_refl. cbn [negb]. split; [split; [intros _; now left | reflexivity] |].
      discriminate.
    + apply String.eqb_neq in Hne as Hb. rewrite Hb. cbn [negb]. split.
      * split; [discriminate |]. intros [[= ->] | [[=] _]]. contradiction.
      * intros c [= <-]. cbn. repeat split; auto.
  - destruct envToken as [t|]; cbn [truthy].
    + destruct (String.eqb_spec t "") as [-> | Hne]; cbn [negb].
      * split; [split; [intros _; now right | reflexivity] | discriminate].
      * split.
        -- split; [discriminate |]. intros [[=] | [_ [=]]].
        -- intros c [= <-]. cbn. repeat split; auto.
    + split; [split; [intros _; now right | reflexivity] | discriminate].
Qed.

(** *** Identifiers *)

(** X17. An identifier may be given with or without a leading [#]: with
    it the same issue is read and tested, and the same branch name and link
    are made; an identifier that does not parse without it does not parse
    with it. *)
Theorem hash_prefix_optional
    (pf : platform) (client : api) (originOf : string -> option string)
    (base s : string) (project : ProjectConfig) :
  stripHash s = s ->
  (forall n, parseIid pf s = inr n ->
             getIssue pf client (String "#" s) project = getIssue pf client s project
             /\ isCompleted pf client (String "#" s) project
                = isCompleted pf client s project)
  /\ ((exists e, parseIid pf s = inl e) -> exists e, parseIid pf (String "#" s) = inl e)
  /\ branchName pf (String "#" s) = branchName pf s
  /\ issueUrl pf originOf base (String "#" s) project = issueUrl pf originOf base s project.
Proof.
  intros Hs. split; [| split; [| split]].
  - intros n Hn. unfold getIssue, isCompleted. rewrite Hn.
    unfold parseIid in *. rewrite Hs in Hn. cbn [stripHash].
    destruct (finiteNumber pf (trim pf s)); [| discriminate].
    injection Hn as ->. now split.
  - intros [e He]. unfold parseIid in *. rewrite Hs in He. cbn [stripHash].
    destruct (finiteNumber pf (trim pf s)); [discriminate | eauto].
  - unfold branchName. now rewrite Hs.
  - unfold issueUrl. now rewrite Hs.
Qed.

Lemma hash_prefix_optional_witness :
  branchName plainPlatform "#42" = branchName plainPlatform "42".
Proof.
  refine (proj1 (proj2 (proj2 (hash_prefix_optional plainPlatform allClosed
                                 (fun _ => None) "" "42" {| repo := None |} _)))).
  reflexivity.
Defined.

(** *** Links *)

Lemma split_chars (p : ascii -> bool) (c : ascii) (s : string) :
  allChars (fun a => p a || Ascii.eqb a c) s = true ->
  Forall (fun w => allChars p w = true) (split c s).
Proof.
  induction s as [|a s IH]; cbn [allChars split]; [now repeat constructor |].
  intros [Ha Hs]%andb_true_iff. specialize (IH Hs).
  destruct (split c s) as [|w ws]; [constructor |].
  inversion IH as [|? ? Hw Hws]; subst.
  destruct (Ascii.eqb a c); [now repeat constructor |].
  rewrite orb_false_r in Ha. constructor; [| assumption]. cbn [allChars]. now rewrite Ha, Hw.
Qed.

Lemma encodeURIComponent_empty (s : string) : Text.encodeURIComponent s = "" -> s = "".
Proof.
  destruct s as [|a s]; [reflexivity |]. cbn [Text.encodeURIComponent].
  destruct (unreserved a); discriminate.
Qed.

Lemma encoded_segments (ws : list string) :
  Forall (fun w => allChars (isNot "/") w = true) (Text.encodeURIComponent <$> ws).
Proof.
  apply Forall_fmap, Forall_forall. intros w _. cbn.
  now apply encodeURIComponent_without.
Qed.

Lemma plain_segments (s : string) :
  plainPath s = true ->
  String.concat "/" (Text.encodeURIComponent <$> split "/" s) = s.
Proof.
  intros Hp. rewrite <- (concat_split "/" s) at 2. f_equal.
  apply split_chars in Hp. induction Hp as [|w ws Hw _ IH]; [reflexivity |].
  cbn [fmap list_fmap]. now rewrite (encodeURIComponent_plain _ Hw), IH.
Qed.

(** X19. The link to an issue keeps the shape of the repository path:
    each part between slashes is encoded by itself, so the path has as many
    parts as configured and neither it nor the number can add a part, a
    query or a fragment; a path of letters, digits and [-_.!~*'()] with its
    slashes is taken as it is. *)
Theorem issueUrl_keeps_segments
    (finiteNumber : string -> option string) (originOf : string -> option string)
    (base identifier r : string) (project : ProjectConfig) :
  repo project = Some r ->
  Text.trim r <> "" ->
  exists path num,
    issueUrl (textPlatform finiteNumber) originOf base identifier project
    = default "https://" (originOf base) ++ "/" ++ path ++ "/-/issues/" ++ num
    /\ num = Text.encodeURIComponent (Text.trim (stripHash identifier))
    /\ split "/" path = Text.encodeURIComponent <$> split "/" (Text.trim r)
    /\ allChars (isNot "/") num = true
    /\ allChars (isNot "?") (path ++ num) = true
    /\ allChars (isNot "#") (path ++ num) = true
    /\ (plainPath (Text.trim r) = true -> path = Text.trim r).
Proof.
  intros Hr Hne. unfold issueUrl. cbn [textPlatform trim encodeURIComponent].
  rewrite Hr. cbn [default from_option Datatypes.id].
  set (raw := Text.trim r) in *. set (num := Text.encodeURIComponent _).
  set (path := String.concat "/" (Text.encodeURIComponent <$> split "/" raw)).
  assert (split "/" path = Text.encodeURIComponent <$> split "/" raw) as Hsplit.
  { apply split_concat; [| apply encoded_segments].
    pose proof (split_nonempty "/" raw). now destruct (split "/" raw). }
  assert (path <> "") as Hpath.
  { intros Hp. rewrite Hp in Hsplit. cbn [split] in Hsplit.
    apply Hne. rewrite <- (concat_split "/" raw).
    destruct (split "/" raw) as [|w [|w' ws]]; try discriminate.
    injection Hsplit as Hw. symmetry in Hw. apply encodeURIComponent_empty in Hw.
    now subst. }
  apply String.eqb_neq in Hne as ->. apply String.eqb_neq in Hpath as Hb. rewrite Hb.
  cbn [negb]. exists path, num. split; [reflexivity |]. split; [reflexivity |].
  split; [assumption |].
  assert (forall c, encoded c = false -> c <> "/"%char ->
                    allChars (isNot c) (path ++ num) = true) as Hfree.
  { intros c Hc Hslash. rewrite allChars_app.
    pose proof (encodeURIComponent_without c (Text.trim (stripHash identifier)) Hc) as Hnum.
    fold num in Hnum. rewrite Hnum, andb_true_r.
    rewrite <- (concat_split "/" path), Hsplit.
    assert (Forall (fun w => allChars (isNot c) w = true)
                   (Text.encodeURIComponent <$> split "/" raw)) as Hall.
    { apply Forall_fmap, Forall_forall. intros w _. cbn.
      now apply encodeURIComponent_without. }
    assert (isNot c "/" = true) as Hs
      by (unfold isNot; apply negb_true_iff, Ascii.eqb_neq; congruence).
    clear - Hall Hs. induction Hall as [|w ws Hw Hws IH]; [reflexivity |].
    destruct ws as [|w' ws']; [exact Hw |].
    change (String.concat "/" (w :: w' :: ws'))
      with (w ++ "/" ++ String.concat "/" (w' :: ws')).
    rewrite !allChars_app, Hw, IH. cbn [allChars]. now rewrite Hs. }
  split; [now apply (encodeURIComponent_without "/") |].
  split; [apply Hfree; [reflexivity | discriminate] |].
  split; [apply Hfree; [reflexivity | discriminate] |].
  apply plain_segments.
Qed.

Lemma issueUrl_keeps_segments_witness :
  exists path num,
    issueUrl (textPlatform (fun s => Some s)) (fun _ => Some "http://gitlab.local:8080")
      "http://gitlab.local:8080/api/v4" "#42" {| repo := Some " group/my project" |}
    = "http://gitlab.local:8080" ++ "/" ++ path ++ "/-/issues/" ++ num
    /\ split "/" path = ["group"; "my%20project"].
Proof.
  destruct (issueUrl_keeps_segments (fun s => Some s)
              (fun _ => Some "http://gitlab.local:8080")
              "http://gitlab.local:8080/api/v4" "#42" " group/my project"
              {| repo := Some " group/my project" |})
    as (path & num & H1 & _ & H3 & _); [reflexivity | vm_compute; discriminate |].
  exists path, num. split; [exact H1 | exact H3].
Defined.

Lemma substring_prefix (x y : string) : String.substring 0 (String.length x) (x ++ y) = x.
Proof.
  induction x as [|a x IH]; cbn [String.length String.append String.substring].
  - now destruct y.
  - now rewrite IH.
Qed.

Lemma stripApi_suffix (x : string) : Legacy.stripApi (x ++ "/api/v4") = x.
Proof.
  unfold Legacy.stripApi.
  assert (endsWith (x ++ "/api/v4") "/api/v4/" = false) as ->.
  { destruct (endsWith (x ++ "/api/v4") "/api/v4/") eqn:E; [| reflexivity].
    rewrite <- (BaseUrlFacts.endsWith_not (x ++ "/api/v4") "/api/v4" "/");
      [| apply endsWith_app | cbn; lia | reflexivity].
    symmetry. now apply (endsWith_trans _ "/api/v4/"). }
  rewrite endsWith_app, length_app.
  replace (String.length x + String.length "/api/v4" - 7)%nat with (String.length x)
    by (cbn; lia).
  apply substring_prefix.
Qed.

(** X20. The link that the earlier adapter makes is an https link on
    the host of the base URL, whether the base URL itself is http or
    https; the repository path and the number go into it as they are. *)
Theorem legacy_issueUrl_forces_https (host identifier r : string) :
  Legacy.issueUrl ("http://" ++ host ++ "/api/v4") identifier {| repo := Some r |}
  = "https://" ++ host ++ "/" ++ r ++ "/-/issues/" ++ stripHash identifier
  /\ Legacy.issueUrl ("https://" ++ host ++ "/api/v4") identifier {| repo := Some r |}
     = "https://" ++ host ++ "/" ++ r ++ "/-/issues/" ++ stripHash identifier
  /\ Legacy.issueUrl ("http://" ++ host ++ "/api/v4") identifier {| repo := None |}
     = "https://" ++ host ++ "/undefined/-/issues/" ++ stripHash identifier.
Proof.
  assert (Legacy.stripScheme (Legacy.stripApi ("http://" ++ host ++ "/api/v4")) = host) as H1
    by (rewrite <- app_assoc', stripApi_suffix; reflexivity).
  assert (Legacy.stripScheme (Legacy.stripApi ("https://" ++ host ++ "/api/v4")) = host) as H2
    by (rewrite <- app_assoc', stripApi_suffix; reflexivity).
  unfold Legacy.issueUrl. cbn [repo stringOf default from_option Datatypes.id].
  rewrite H1, H2. repeat split; reflexivity.
Qed.

(** *** Updates *)

Lemma setAdd_elem (acc : list string) (x y : string) :
  y ∈ setAdd acc x <-> y ∈ acc \/ y = x.
Proof.
  unfold setAdd. case_bool_decide as Hx.
  - split; [now left |]. intros [H | ->]; assumption.
  - rewrite elem_of_app, list_elem_of_singleton. reflexivity.
Qed.

Lemma fold_setAdd_elem (l : list string) : forall (acc : list string) (y : string),
  y ∈ fold_left setAdd l acc <-> y ∈ acc \/ y ∈ l.
Proof.
  induction l as [|x l IH]; intros acc y; cbn [fold_left].
  - split; [now left |]. intros [H | H]; [assumption | now apply elem_of_nil in H].
  - rewrite IH, setAdd_elem, elem_of_cons. tauto.
Qed.

Lemma fold_setAdd_NoDup (l : list string) : forall acc : list string,
  NoDup acc -> NoDup (fold_left setAdd l acc).
Proof.
  induction l as [|x l IH]; intros acc Hnd; cbn [fold_left]; [assumption |].
  apply IH. unfold setAdd. case_bool_decide as Hx; [assumption |].
  apply NoDup_app. split; [assumption |]. split; [| apply NoDup_singleton].
  intros y Hy ->%list_elem_of_singleton. contradiction.
Qed.

Lemma fold_setAdd_prefix (l : list string) : forall acc : list string,
  exists added, fold_left setAdd l acc = (acc ++ added)%list.
Proof.
  induction l as [|x l IH]; intros acc; cbn [fold_left].
  - exists []. now rewrite app_nil_r.
  - destruct (IH (setAdd acc x)) as [added ->]. unfold setAdd.
    case_bool_decide; [now exists added |].
    exists (x :: added). now rewrite <- app_assoc.
Qed.

Lemma fold_setAdd_fresh (l : list string) : forall acc : list string,
  NoDup (acc ++ l) -> fold_left setAdd l acc = (acc ++ l)%list.
Proof.
  induction l as [|x l IH]; intros acc Hnd; cbn [fold_left]; [now rewrite app_nil_r |].
  unfold setAdd. rewrite bool_decide_eq_false_2.
  - rewrite IH; rewrite <- app_assoc; [reflexivity | assumption].
  - apply NoDup_app in Hnd as (_ & Hdisj & _). intros Hx. apply (Hdisj x Hx). now left.
Qed.

(** The merged labels: no label twice, every label of the issue and every
    requested one, and the labels of the issue first when they are
    distinct. *)
Lemma mergeLabels_spec (existing requested : list string) :
  NoDup (mergeLabels existing requested)
  /\ (forall x, x ∈ mergeLabels existing requested <-> x ∈ existing \/ x ∈ requested)
  /\ (NoDup existing ->
      exists added, mergeLabels existing requested = (existing ++ added)%list).
Proof.
  unfold mergeLabels, fromSet. split; [| split].
  - apply fold_setAdd_NoDup. constructor.
  - intros x. rewrite fold_setAdd_elem, elem_of_app. split; [| tauto].
    intros [H | H]; [now apply elem_of_nil in H | assumption].
  - intros Hnd. rewrite fold_left_app, (fold_setAdd_fresh existing []) by assumption.
    apply fold_setAdd_prefix.
Qed.

Ltac unfold_update :=
  unfold updateIssue, labelsFor, assigneeFor, getIssueCall, getUsersCall, postNoteCall,
    putIssueCall, bind, ret.

(** X21. An update makes no call on the client exactly when it asks
    for nothing: no labels, no assignee, no comment, and a state other than
    open and closed, as in_progress is.  Such an update succeeds. *)
Theorem updateIssue_nothing_to_do
    (pf : platform) (sv : server) (identifier iid repo_ : string)
    (update : IssueUpdate) (project : ProjectConfig) :
  parseIid pf identifier = inr iid ->
  projectToPath project = inr repo_ ->
  (fst (updateIssue pf sv identifier update project) = []
   <-> stateEventOf (updState update) = None
       /\ nonEmpty (updLabels update) = None
       /\ truthy (updAssignee update) = false
       /\ truthy (updComment update) = false)
  /\ (fst (updateIssue pf sv identifier update project) = [] ->
      snd (updateIssue pf sv identifier update project) = inr tt).
Proof.
  intros Hi Hp. unfold_update. rewrite Hi, Hp.
  destruct (nonEmpty (updLabels update)) as [requested|].
  { destruct (issueAt sv _); destruct (truthy (updAssignee update));
      destruct (truthy (updComment update)); try destruct (noteTo sv _ _);
      try destruct (hasKeys _); cbn -[issuePath String.concat mergeLabels];
      (split; [split; [discriminate | now intros (_ & [=] & _)] | discriminate]). }
  destruct (truthy (updAssignee update)).
  { destruct (truthy (updComment update)); try destruct (noteTo sv _ _);
      try destruct (hasKeys _); cbn -[issuePath];
      (split; [split; [discriminate | now intros (_ & _ & [=] & _)] | discriminate]). }
  destruct (truthy (updComment update)).
  { destruct (noteTo sv _ _); [| destruct (hasKeys _)]; cbn -[issuePath];
      (split; [split; [discriminate | now intros (_ & _ & _ & [=])] | discriminate]). }
  cbn [hasKeys stateEvent putLabels putAssigneeIds].
  destruct (stateEventOf (updState update)); cbn -[issuePath].
  - split; [split; [discriminate | now intros ([=] & _)] | discriminate].
  - split; [split; [auto | reflexivity] | reflexivity].
Qed.

Lemma updateIssue_nothing_to_do_witness :
  snd (updateIssue plainPlatform readOnlyServer "42"
         {| updState := Some "in_progress"; updLabels := Some []; updAssignee := None;
            updComment := Some "" |}
         {| repo := Some "group/project" |})
  = inr tt.
Proof.
  refine (proj2 (updateIssue_nothing_to_do plainPlatform readOnlyServer "42" "42"
                   "group/project" _ {| repo := Some "group/project" |} _ _) _);
    reflexivity.
Defined.

(** X22. Reading is best effort: on a server that accepts the writes
    an update succeeds whatever the look-ups of the issue and of the user
    answer or throw.  It writes what was asked, in this order: the comment,
    if there is one, as a note, and then at most one PUT, which carries the
    state event of the requested state. *)
Theorem updateIssue_best_effort
    (pf : platform) (sv : server) (identifier iid repo_ : string)
    (update : IssueUpdate) (project : ProjectConfig) :
  parseIid pf identifier = inr iid ->
  projectToPath project = inr repo_ ->
  writable sv ->
  let path := issuePath (encodeURIComponent pf repo_) iid in
  snd (updateIssue pf sv identifier update project) = inr tt
  /\ exists puts,
       filter (fun c => isWrite c = true) (fst (updateIssue pf sv identifier update project))
       = ((if truthy (updComment update)
           then [PostNote (path ++ "/notes") (default "" (updComment update))]
           else []) ++ puts)%list
       /\ (puts = []
           \/ exists payload,
                puts = [PutIssue path payload]
                /\ stateEvent payload = stateEventOf (updState update)).
Proof.
  intros Hi Hp [Hnote Hput] path. unfold_update. rewrite Hi, Hp. fold path.
  set (labels := match nonEmpty (updLabels update) with Some _ => _ | None => _ end).
  assert (filter (fun c => isWrite c = true) (fst labels) = []) as Hl.
  { subst labels. destruct (nonEmpty (updLabels update)); [| reflexivity].
    destruct (issueAt sv path); reflexivity. }
  destruct labels as [l1 labels]. cbn [fst] in Hl.
  set (ids := if truthy (updAssignee update) then _ else _).
  assert (filter (fun c => isWrite c = true) (fst ids) = []) as Ha
    by (subst ids; destruct (truthy (updAssignee update)); reflexivity).
  destruct ids as [l2 ids]. cbn [fst] in Ha.
  destruct (truthy (updComment update)); cbn [fst snd].
  - rewrite Hnote.
    destruct (hasKeys _); cbn [fst snd];
      rewrite ?Hput, !filter_app, Hl, Ha, ?app_nil_r; cbn [app];
      (split; [reflexivity |]).
    + eexists. split; [reflexivity |]. right. eexists. now split.
    + exists []. split; [reflexivity | now left].
  - destruct (hasKeys _); cbn [fst snd];
      rewrite ?Hput, !filter_app, Hl, Ha, ?app_nil_r; cbn [app];
      (split; [reflexivity |]).
    + eexists. split; [reflexivity |]. right. eexists. now split.
    + exists []. split; [reflexivity | now left].
Qed.

Lemma updateIssue_best_effort_witness :
  snd (updateIssue plainPlatform
         {| issueAt := fun _ => inl (Error "GitLab API 500");
            usersNamed := fun _ => inl (Error "GitLab API 500");
            noteTo := fun _ _ => inr tt; putTo := fun _ _ => inr tt |}
         "42"
         {| updState := Some "closed"; updLabels := Some ["bug"];
            updAssignee := Some "alice"; updComment := Some "done" |}
         {| repo := Some "group/project" |})
  = inr tt.
Proof.
  refine (proj1 (updateIssue_best_effort plainPlatform _ "42" "42" "group/project" _
                   {| repo := Some "group/project" |} _ _ _)).
  - reflexivity.
  - reflexivity.
  - split; reflexivity.
Defined.

(** X23. The comment goes first: when the note is refused, the update
    throws the error of the note and sends no PUT, so the state, the labels
    and the assignee it was asked for are not changed. *)
Theorem updateIssue_note_failure
    (pf : platform) (sv : server) (identifier iid repo_ : string)
    (update : IssueUpdate) (project : ProjectConfig) (comment : string) (err : error) :
  parseIid pf identifier = inr iid ->
  projectToPath project = inr repo_ ->
  updComment update = Some comment ->
  comment <> "" ->
  noteTo sv (issuePath (encodeURIComponent pf repo_) iid ++ "/notes") comment = inl err ->
  snd (updateIssue pf sv identifier update project) = inl err
  /\ filter (fun c => isPut c = true) (fst (updateIssue pf sv identifier update project)) = [].
Proof.
  intros Hi Hp Hc Hne Herr. unfold_update. rewrite Hi, Hp, Hc.
  cbn [truthy default from_option Datatypes.id].
  apply String.eqb_neq in Hne as ->. cbn [negb]. rewrite Herr.
  set (labels := match nonEmpty (updLabels update) with Some _ => _ | None => _ end).
  assert (filter (fun c => isPut c = true) (fst labels) = []) as Hl.
  { subst labels. destruct (nonEmpty (updLabels update)); [| reflexivity].
    destruct (issueAt sv _); reflexivity. }
  destruct labels as [l1 labels]. cbn [fst] in Hl.
  set (ids := if truthy (updAssignee update) then _ else _).
  assert (filter (fun c => isPut c = true) (fst ids) = []) as Ha
    by (subst ids; destruct (truthy (updAssignee update)); reflexivity).
  destruct ids as [l2 ids]. cbn [fst snd] in *.
  split; [reflexivity |]. now rewrite !filter_app, Hl, Ha.
Qed.

Lemma updateIssue_note_failure_witness :
  snd (updateIssue plainPlatform readOnlyServer "42"
         {| updState := Some "closed"; updLabels := None; updAssignee := None;
            updComment := Some "done" |}
         {| repo := Some "group/project" |})
  = inl (Error "GitLab API 403 Forbidden: ").
Proof.
  refine (proj1 (updateIssue_note_failure plainPlatform readOnlyServer "42" "42"
                   "group/project" _ {| repo := Some "group/project" |} "done" _
                   _ _ _ _ _)).
  - reflexivity.
  - reflexivity.
  - reflexivity.
  - discriminate.
  - reflexivity.
Defined.

(** X24. Labels are added, not replaced: when the issue can be read,
    the PUT carries the labels of the issue and the requested ones, each
    once, joined by commas (the labels of the issue first when they are
    distinct); when it cannot be read, the requested labels alone. *)
Theorem updateIssue_merges_labels
    (pf : platform) (sv : server) (identifier iid repo_ : string)
    (update : IssueUpdate) (project : ProjectConfig) (requested : list string) :
  parseIid pf identifier = inr iid ->
  projectToPath project = inr repo_ ->
  writable sv ->
  nonEmpty (updLabels update) = Some requested ->
  let path := issuePath (encodeURIComponent pf repo_) iid in
  let existing :=
    match issueAt sv path with
    | inr (Some d) => default [] (glLabels d)
    | _ => []
    end in
  exists payload,
    last (fst (updateIssue pf sv identifier update project)) = Some (PutIssue path payload)
    /\ head (fst (updateIssue pf sv identifier update project)) = Some (GetIssue path)
    /\ putLabels payload
       = Some (String.concat ","
                 (match issueAt sv path with
                  | inr _ => mergeLabels existing requested
                  | inl _ => requested
                  end))
    /\ NoDup (mergeLabels existing requested)
    /\ (forall x, x ∈ mergeLabels existing requested <-> x ∈ existing \/ x ∈ requested)
    /\ (NoDup existing ->
        exists added, mergeLabels existing requested = (existing ++ added)%list).
Proof.
  intros Hi Hp [Hnote Hput] Hl path existing.
  destruct (mergeLabels_spec existing requested) as (M1 & M2 & M3).
  unfold_update. rewrite Hi, Hp, Hl. fold path.
  set (ids := if truthy (updAssignee update) then _ else _). destruct ids as [l2 ids].
  subst existing.
  destruct (issueAt sv path) as [e | data];
    (destruct (truthy (updComment update)); rewrite ?Hnote;
     (destruct (stateEventOf (updState update));
      cbn -[mergeLabels String.concat path]; rewrite ?Hput;
      eexists; (split; [rewrite app_comm_cons, last_app_cons; reflexivity |]);
      (split; [reflexivity |]); (split; [reflexivity |]); auto)).
Qed.

Lemma updateIssue_merges_labels_witness :
  exists payload,
    last (fst (updateIssue plainPlatform labelledServer "42"
                 {| updState := None; updLabels := Some ["ui"; "urgent"];
                    updAssignee := None; updComment := None |}
                 {| repo := Some "group/project" |}))
    = Some (PutIssue "/projects/group/project/issues/42" payload)
    /\ putLabels payload = Some "bug,ui,urgent".
Proof.
  destruct (updateIssue_merges_labels plainPlatform labelledServer "42" "42" "group/project"
              {| updState := None; updLabels := Some ["ui"; "urgent"];
                 updAssignee := None; updComment := None |}
              {| repo := Some "group/project" |} ["ui"; "urgent"])
    as (payload & H1 & _ & H3 & _); [reflexivity | reflexivity | split; reflexivity | reflexivity |].
  exists payload. split; [exact H1 | exact H3].
Defined.

(** *** Reading and creating *)

Lemma split_segment (c : ascii) (w rest : string) :
  allChars (isNot c) w = true -> split c (w ++ String c rest) = w :: split c rest.
Proof.
  induction w as [|a w IH]; cbn [allChars String.append split].
  - intros _. rewrite Ascii.eqb_refl.
    pose proof (split_nonempty c rest). now destruct (split c rest).
  - intros [Ha Hw]%andb_true_iff. rewrite (IH Hw). unfold isNot in Ha.
    now destruct (Ascii.eqb a c).
Qed.

(** X18. The project takes exactly one part of the path that [getIssue]
    and [isCompleted] request, whatever characters its name has, and
    different projects take different paths; the two read nothing of the
    server but the answer to that path. *)
Theorem getIssue_project_segment
    (finiteNumber : string -> option string) (client1 client2 : api)
    (identifier iid r : string) (project : ProjectConfig) :
  parseIid (textPlatform finiteNumber) identifier = inr iid ->
  repo project = Some r ->
  r <> "" ->
  let path := "/projects/" ++ Text.encodeURIComponent r ++ "/issues/" ++ iid in
  (getIssueAt client1 path = getIssueAt client2 path ->
   getIssue (textPlatform finiteNumber) client1 identifier project
   = getIssue (textPlatform finiteNumber) client2 identifier project
   /\ isCompleted (textPlatform finiteNumber) client1 identifier project
      = isCompleted (textPlatform finiteNumber) client2 identifier project)
  /\ split "/" path
     = ([""; "projects"; Text.encodeURIComponent r; "issues"] ++ split "/" iid)%list
  /\ (forall r', Text.encodeURIComponent r' = Text.encodeURIComponent r -> r' = r).
Proof.
  intros Hi Hr Hne path. split; [| split].
  - intros Hsame. unfold getIssue, isCompleted, projectToPath. rewrite Hi, Hr.
    cbn [truthy default from_option Datatypes.id textPlatform encodeURIComponent].
    apply String.eqb_neq in Hne as ->. cbn [negb]. unfold issuePath. fold path.
    now rewrite Hsame.
  - subst path.
    change ("/projects/" ++ Text.encodeURIComponent r ++ "/issues/" ++ iid)
      with ("" ++ String "/" ("projects" ++ String "/"
              (Text.encodeURIComponent r ++ String "/" ("issues" ++ String "/" iid)))).
    rewrite !split_segment; try reflexivity.
    now apply (encodeURIComponent_without "/").
  - intros r'. apply encodeURIComponent_inj.
Qed.

Lemma getIssue_project_segment_witness :
  split "/" ("/projects/" ++ Text.encodeURIComponent "group/project" ++ "/issues/" ++ "42")
  = [""; "projects"; "group%2Fproject"; "issues"; "42"].
Proof.
  refine (proj1 (proj2 (getIssue_project_segment (fun s => Some s) allClosed allClosed
                          "#42" "42" "group/project" {| repo := Some "group/project" |}
                          _ _ _))).
  - reflexivity.
  - reflexivity.
  - discriminate.
Defined.

(** X25. Looking up the assignee of a new issue is best effort: a
    look-up that throws is the look-up that finds nobody, the issue is
    created without an assignee. *)
Theorem createIssue_assignee_best_effort
    (pf : platform) (client : api) (input : CreateIssueInput) (project : ProjectConfig)
    (assignee : string) (err : error) :
  inputAssignee input = Some assignee ->
  getUsers client assignee = inl err ->
  createIssue pf client input project
  = createIssue pf (withUsers client (inr (Some []))) input project
  /\ createIssue pf client input project
     = createIssue pf client
         {| inputTitle := inputTitle input; inputDescription := inputDescription input;
            inputLabels := inputLabels input; inputAssignee := None |} project.
Proof.
  intros Ha Herr. unfold createIssue, resolveAssignee, withUsers. rewrite Ha.
  cbn [getUsers postIssue inputTitle inputDescription inputLabels inputAssignee truthy
         default from_option Datatypes.id].
  rewrite Herr. destruct (negb (String.eqb assignee "")); split; reflexivity.
Qed.

Lemma createIssue_assignee_best_effort_witness :
  createIssue plainPlatform echoServer
    {| inputTitle := "Crash"; inputDescription := None; inputLabels := None;
       inputAssignee := Some "alice" |} {| repo := Some "group/project" |}
  = createIssue plainPlatform (withUsers echoServer (inr (Some [])))
      {| inputTitle := "Crash"; inputDescription := None; inputLabels := None;
         inputAssignee := Some "alice" |} {| repo := Some "group/project" |}.
Proof.
  refine (proj1 (createIssue_assignee_best_effort plainPlatform echoServer _ _
                   "alice" (Error "GitLab API 403 Forbidden: ") _ _)).
  - reflexivity.
  - reflexivity.
Defined.

(** X26. On every answer with a body the two adapters read an issue
    alike: [isCompleted] gives the same, and [getIssue] the same issue but
    for the link, which the later adapter makes the empty text where the
    earlier one leaves it undefined; they throw the same errors. *)
Theorem legacy_getIssue_agrees
    (pf : platform) (client : api) (identifier : string) (project : ProjectConfig) :
  (forall path, getIssueAt client path <> inr None) ->
  Legacy.isCompleted pf client identifier project = isCompleted pf client identifier project
  /\ match Legacy.getIssue pf client identifier project with
     | inr issue =>
         getIssue pf client identifier project
         = inr {| id := id issue; title := title issue; description := description issue;
                  url := Some (default "" (url issue)); state := state issue;
                  labels := labels issue; assignee := assignee issue |}
     | inl e => getIssue pf client identifier project = inl e
     end.
Proof.
  intros Hbody. unfold Legacy.isCompleted, isCompleted, Legacy.getIssue, getIssue,
    Legacy.projectToPath, projectToPath.
  destruct (parseIid pf identifier) as [e | iid]; [now split |].
  destruct (truthy (repo project)); [| now split].
  specialize (Hbody (issuePath (encodeURIComponent pf (default "" (repo project))) iid)).
  destruct (getIssueAt client _) as [e | [data|]]; [now split | now split | contradiction].
Qed.

Lemma legacy_getIssue_agrees_witness :
  Legacy.isCompleted plainPlatform allClosed "#42" {| repo := Some "group/project" |}
  = isCompleted plainPlatform allClosed "#42" {| repo := Some "group/project" |}.
Proof.
  refine (proj1 (legacy_getIssue_agrees plainPlatform allClosed "#42"
                   {| repo := Some "group/project" |} _)).
  discriminate.
Defined.

End TrackerOpsFacts.

Module ShellFacts.
Import Utils Shell UtilsFacts.

Example shellWords_plain : shellWords "git  commit -m 'a b'" = Some ["git"; "commit"; "-m"; "a b"].
Proof. vm_compute. reflexivity. Qed.

Example shellWords_injection : shellWords "echo a; rm -rf /" = None.
Proof. vm_compute. reflexivity. Qed.

Example commandLine_example :
  commandLine ["it's"; "a; rm -rf /"; ""] = "'it'\''s' 'a; rm -rf /' ''".
Proof. vm_compute. reflexivity. Qed.

(** Inside the quotes of an escaped argument the reader collects the
    argument and goes on behind the closing quote. *)
Lemma readWords_body (s rest w : string) (ws : list string) :
  readWords Unquoted true rest = Some (w :: ws) ->
  readWords InSingleQuotes true (replaceAll squote escapedQuote s ++ String squote rest)
  = Some ((s ++ w) :: ws).
Proof.
  intros Hrest. induction s as [|a s IH]; cbn [replaceAll String.append].
  - cbn [readWords]. change (Ascii.eqb squote squote) with true. cbn iota. assumption.
  - destruct (Ascii.eqb a squote) eqn:Ea.
    + apply Ascii.eqb_eq in Ea. subst a.
      cbn [escapedQuote String.append readWords].
      change (Ascii.eqb squote squote) with true.
      change (Ascii.eqb backslash squote) with false.
      change (Ascii.eqb backslash backslash) with true.
      change (Ascii.eqb squote newline) with false.
      cbn iota. now rewrite IH.
    + cbn [String.append readWords]. now rewrite Ea, IH.
Qed.

Lemma readWords_escaped (s rest w : string) (ws : list string) :
  readWords Unquoted true rest = Some (w :: ws) ->
  forall inWord, readWords Unquoted inWord (shellEscape s ++ rest) = Some ((s ++ w) :: ws).
Proof.
  intros Hrest inWord. unfold shellEscape.
  rewrite !append_assoc. cbn [String.append readWords].
  change (Ascii.eqb squote squote) with true. cbn iota. now apply readWords_body.
Qed.

(** X27. A command line made of escaped arguments separated by spaces
    is read by the shell as exactly those arguments: as many words, each the
    argument it was made from, whatever the arguments contain. *)
Theorem shellEscape_command_line (args : list string) :
  shellWords (commandLine args) = Some args.
Proof.
  unfold shellWords, commandLine.
  induction args as [|x args IH]; [reflexivity |].
  destruct args as [|y args].
  - cbn [fmap list_fmap String.concat].
    rewrite <- (append_empty_r (shellEscape x)).
    rewrite (readWords_escaped x "" "" []); [now rewrite append_empty_r | reflexivity].
  - change (String.concat " " (shellEscape <$> x :: y :: args))
      with (shellEscape x ++ String " " (String.concat " " (shellEscape <$> y :: args))).
    rewrite (readWords_escaped x _ "" (y :: args)); [now rewrite append_empty_r |].
    cbn [readWords].
    change (Ascii.eqb " " squote) with false.
    change (Ascii.eqb " " backslash) with false.
    change (blank " ") with true.
    cbn iota. now rewrite IH.
Qed.

End ShellFacts.

Module WebhookHeaderFacts.
Import Js WebhookHandler.

(** X28. The handler reads four headers and nothing else of the
    request headers: the token and the event, each under its lower-case and
    its capitalised name.  The lower-case name goes first: when it is
    present, also with an empty value, the capitalised one is not looked
    at. *)
Theorem handleWebhook_reads_four_headers
    (headers headers' : Headers) (payload : value) (secret : option string) :
  (headers !! "x-gitlab-token" = headers' !! "x-gitlab-token"
   /\ headers !! "X-Gitlab-Token" = headers' !! "X-Gitlab-Token"
   /\ headers !! "x-gitlab-event" = headers' !! "x-gitlab-event"
   /\ headers !! "X-Gitlab-Event" = headers' !! "X-Gitlab-Event" ->
   handleWebhook headers payload secret = handleWebhook headers' payload secret
   /\ Legacy.handleWebhook headers payload secret
      = Legacy.handleWebhook headers' payload secret)
  /\ (forall token other,
        headers !! "x-gitlab-token" = Some token ->
        handleWebhook (<["X-Gitlab-Token" := other]> headers) payload secret
        = handleWebhook headers payload secret)
  /\ (forall event other,
        headers !! "x-gitlab-event" = Some event ->
        handleWebhook (<["X-Gitlab-Event" := other]> headers) payload secret
        = handleWebhook headers payload secret)
  /\ (forall name v,
        name <> "x-gitlab-token" -> name <> "X-Gitlab-Token" ->
        name <> "x-gitlab-event" -> name <> "X-Gitlab-Event" ->
        handleWebhook (<[name := v]> headers) payload secret
        = handleWebhook headers payload secret).
Proof.
  assert (forall h h' : Headers,
            tokenHeader h = tokenHeader h' -> eventHeader h = eventHeader h' ->
            handleWebhook h payload secret = handleWebhook h' payload secret
            /\ Legacy.handleWebhook h payload secret
               = Legacy.handleWebhook h' payload secret) as Hframe.
  { intros h h' Ht He. unfold handleWebhook, Legacy.handleWebhook, tokenOk, normalize.
    now rewrite Ht, He. }
  split; [| split; [| split]].
  - intros (H1 & H2 & H3 & H4). apply Hframe; unfold tokenHeader, eventHeader;
      now rewrite H1, H2 || rewrite H3, H4.
  - intros token other Ht. apply Hframe.
    + unfold tokenHeader. rewrite lookup_insert_ne by discriminate. rewrite Ht. reflexivity.
    + unfold eventHeader. now rewrite !lookup_insert_ne by discriminate.
  - intros event other He. apply Hframe.
    + unfold tokenHeader. now rewrite !lookup_insert_ne by discriminate.
    + unfold eventHeader. rewrite lookup_insert_ne by discriminate. rewrite He. reflexivity.
  - intros name v N1 N2 N3 N4. apply Hframe.
    + unfold tokenHeader. now rewrite !lookup_insert_ne by congruence.
    + unfold eventHeader. now rewrite !lookup_insert_ne by congruence.
Qed.

End WebhookHeaderFacts.
